(** * Timed gating control of an Agilent B2902A source/measure unit

    A shallow embedding of [McNeill_23899_2025_InAir_GatingControl.py]
    (class [AgilentB2902A]) and the properties of its acquisition loop
    [run_measurement].

    The Python methods talk to the outside world through four channels: the
    wall clock ([time.time], [time.sleep]), the TCP socket ([sendall],
    [recv]), the attribute [self.stoptrigger] that an external actor may
    rewrite at any moment, and the attribute [self.datapoints].  Each of
    them is modelled by a primitive of a small state-and-exception monad;
    everything the outside world decides (what the clock shows, when the
    flag is rewritten, what the instrument answers, when the link breaks)
    is read from an environment of oracles indexed by the number of
    primitive operations executed so far.  Every primitive appends the
    effect it had to a history, so that statements about the order of
    effects are statements about a list.

    Numbers: Python floats are modelled by exact rationals ([Q]); rounding
    is not modelled. *)

From Stdlib Require Import List Bool Arith Lia Sorted.
From Stdlib.Strings Require Import String Ascii Byte.
From Stdlib Require Import ZArith QArith Lqa DecimalString.
Import ListNotations.

Set Implicit Arguments.

(** ** Data *)

(** A Python [bytes] object. *)
Definition bytes := list byte.

(** [str.encode()]: a Python [str] is represented by the string of its
    UTF-8 bytes, so encoding is the passage from [string] to [bytes]. *)
Definition encode (s : string) : bytes := list_byte_of_string s.

(** The Python string ["\n"]. *)
Definition newline : string := String "010"%char EmptyString.

(** One element of the list [self.datapoints]: the tuple
    [(t_global, current, voltage)], the readings being the raw replies. *)
Definition Sample : Type := Q * bytes * bytes.

(** One row of the array returned by [np.array(..., dtype=float)]. *)
Definition Row : Type := Q * Q * Q.

Definition timestamp (s : Sample) : Q := fst (fst s).
Definition row_time (r : Row) : Q := fst (fst r).

(** The attribute [self.datapoints] is a Python list while the loops run
    and is rebound to a numpy array at the end. *)
Inductive Datapoints : Type :=
| PyList (l : list Sample)
| NdArray (rows : list Row).

(** The Python exceptions that the modelled code can raise. *)
Inductive PyExn : Type :=
| OSError          (* socket.sendall / socket.recv on a broken link *)
| ValueError       (* time.sleep(negative), np.array on a non-number *)
| AttributeError.  (* .append on something that is not a list *)

(** Effects, in the order in which they happen. *)
Inductive Event : Type :=
| EvTime (t : Q)                    (* time.time() returned t *)
| EvStop (b : bool)                 (* self.stoptrigger was read as b *)
| EvSend (data : bytes)             (* socket.sendall(data) *)
| EvRecv (bufsize : nat) (data : bytes) (* socket.recv(bufsize) returned data *)
| EvSleep (d : Q)                   (* time.sleep(d) *)
| EvNewList                         (* self.datapoints = [] *)
| EvAppend (s : Sample)             (* self.datapoints.append(s) *)
| EvArray (rows : list Row).        (* self.datapoints = np.array(...) *)

(** What the outside world does, indexed by the number of primitive
    operations the program has executed before. *)
Record Env : Type := {
  clock : nat -> Q;                 (* what time.time() shows *)
  stop_writer : nat -> option bool; (* the external actor sets the flag *)
  arrive : nat -> bytes;            (* bytes that reach the socket *)
  link_down : nat -> bool           (* the socket operation fails *)
}.

(** The state of the object and of its connection. *)
Record World : Type := {
  tick : nat;                  (* primitive operations executed so far *)
  stoptrigger : bool;          (* self.stoptrigger *)
  inbuf : bytes;               (* received by the socket, not yet read *)
  datapoints : Datapoints;     (* self.datapoints *)
  log : list Event             (* history of effects, oldest first *)
}.

(** ** The monad *)

Inductive Outcome (A : Type) : Type :=
| Ret (a : A)
| Raise (e : PyExn)
| OutOfFuel.

Arguments Raise {A} e.
Arguments OutOfFuel {A}.

Definition M (A : Type) : Type := World -> Outcome A * World.

Definition ret {A} (a : A) : M A := fun w => (Ret a, w).

Definition bind {A B} (m : M A) (f : A -> M B) : M B :=
  fun w =>
    match m w with
    | (Ret a, w') => f a w'
    | (Raise e, w') => (Raise e, w')
    | (OutOfFuel, w') => (OutOfFuel, w')
    end.

Definition raise {A} (e : PyExn) : M A := fun w => (Raise e, w).

Definition out_of_fuel {A} : M A := fun w => (OutOfFuel, w).

Declare Scope py_scope.
Delimit Scope py_scope with py.
Notation "x <- m ;; k" := (bind m (fun x => k))
  (at level 61, m at next level, right associativity) : py_scope.
Notation "m ;; k" := (bind m (fun _ => k))
  (at level 61, right associativity) : py_scope.
Notation "' pat <- m ;; k" := (bind m (fun x => match x with pat => k end))
  (at level 61, pat pattern, m at next level, right associativity) : py_scope.

Definition Qltb (x y : Q) : bool := negb (Qle_bool y x).

(** The events a call has added to the history. *)
Definition trace_since (w w' : World) : list Event :=
  skipn (List.length (log w)) (log w').

Module AgilentB2902A.
Section Instrument.

Local Open Scope py_scope.

Variable E : Env.

(** The type of the voltage arguments and Python's [format] on it (the
    f-strings [f":sour:volt {turn_on_voltage}"]). *)
Variable Volt : Type.
Variable format_volt : Volt -> string.

(** numpy's conversion of a reply to a float; [None] when numpy raises
    [ValueError]. *)
Variable float_of_bytes : bytes -> option Q.

(** *** Primitives *)

(** Every primitive takes one step of the outside world: the external
    actor may rewrite the flag, and the operation counter moves on. *)
Definition advance (w : World) : World :=
  {| tick := S (tick w);
     stoptrigger := match stop_writer E (tick w) with
                    | Some b => b
                    | None => stoptrigger w
                    end;
     inbuf := inbuf w;
     datapoints := datapoints w;
     log := log w |}.

Definition emit (e : Event) (w : World) : World :=
  {| tick := tick w; stoptrigger := stoptrigger w; inbuf := inbuf w;
     datapoints := datapoints w; log := log w ++ [e] |}.

Definition with_inbuf (b : bytes) (w : World) : World :=
  {| tick := tick w; stoptrigger := stoptrigger w; inbuf := b;
     datapoints := datapoints w; log := log w |}.

Definition with_datapoints (d : Datapoints) (w : World) : World :=
  {| tick := tick w; stoptrigger := stoptrigger w; inbuf := inbuf w;
     datapoints := d; log := log w |}.

(** [time.time()] *)
Definition time_time : M Q :=
  fun w => let t := clock E (tick w) in (Ret t, emit (EvTime t) (advance w)).

(** [time.sleep(secs)]: raises [ValueError] on a negative length. *)
Definition time_sleep (secs : Q) : M unit :=
  fun w =>
    if Qltb secs 0 then (Raise ValueError, advance w)
    else (Ret tt, emit (EvSleep secs) (advance w)).

(** reading [self.stoptrigger] *)
Definition get_stoptrigger : M bool :=
  fun w => let w1 := advance w in
           (Ret (stoptrigger w1), emit (EvStop (stoptrigger w1)) w1).

(** [self.socket.sendall(data)] *)
Definition socket_sendall (data : bytes) : M unit :=
  fun w =>
    if link_down E (tick w) then (Raise OSError, advance w)
    else (Ret tt, emit (EvSend data) (advance w)).

(** [self.socket.recv(bufsize)]: at most [bufsize] of the bytes that are
    there; what is left stays in the buffer. *)
Definition socket_recv (bufsize : nat) : M bytes :=
  fun w =>
    if link_down E (tick w) then (Raise OSError, advance w)
    else
      let avail := inbuf w ++ arrive E (tick w) in
      let data := firstn bufsize avail in
      (Ret data,
       emit (EvRecv bufsize data) (with_inbuf (skipn bufsize avail) (advance w))).

(** [self.datapoints = []] *)
Definition datapoints_new : M unit :=
  fun w => (Ret tt, emit EvNewList (with_datapoints (PyList []) (advance w))).

(** [self.datapoints.append(s)] *)
Definition datapoints_append (s : Sample) : M unit :=
  fun w =>
    match datapoints w with
    | PyList l =>
        (Ret tt, emit (EvAppend s) (with_datapoints (PyList (l ++ [s])) (advance w)))
    | NdArray _ => (Raise AttributeError, advance w)
    end.

(** One tuple as a row of floats. *)
Definition row_of_sample (s : Sample) : option Row :=
  match s with
  | (t, current, voltage) =>
      match float_of_bytes current, float_of_bytes voltage with
      | Some c, Some v => Some (t, c, v)
      | _, _ => None
      end
  end.

Fixpoint rows_of_samples (l : list Sample) : option (list Row) :=
  match l with
  | [] => Some []
  | s :: l' =>
      match row_of_sample s, rows_of_samples l' with
      | Some r, Some rs => Some (r :: rs)
      | _, _ => None
      end
  end.

(** [self.datapoints = np.array(self.datapoints, dtype=float)] *)
Definition datapoints_to_array : M (list Row) :=
  fun w =>
    match datapoints w with
    | PyList l =>
        match rows_of_samples l with
        | Some rows =>
            (Ret rows,
             emit (EvArray rows) (with_datapoints (NdArray rows) (advance w)))
        | None => (Raise ValueError, advance w)
        end
    | NdArray rows =>
        (Ret rows,
         emit (EvArray rows) (with_datapoints (NdArray rows) (advance w)))
    end.

(** *** The methods *)

Definition write (command : string) : M unit :=
  socket_sendall (encode (command ++ newline)%string).

Definition query (command : string) (response_length : nat) : M bytes :=
  write command ;;
  data <- socket_recv response_length ;;
  ret data.

Definition beep_up : M unit :=
  write ":SYST:BEEP:STAT ON"%string ;;
  write ":SYST:BEEP 800, 0.1"%string ;;
  write ":SYST:BEEP 1000, 0.1"%string ;;
  write ":SYST:BEEP 1200, 0.1"%string ;;
  write ":SYST:BEEP 1600, 0.4"%string.

Definition beep_dn : M unit :=
  write ":SYST:BEEP:STAT ON"%string ;;
  write ":SYST:BEEP 1600, 0.1"%string ;;
  write ":SYST:BEEP 1200, 0.1"%string ;;
  write ":SYST:BEEP 1000, 0.1"%string ;;
  write ":SYST:BEEP 800, 0.4"%string.

Definition measure : M (bytes * bytes) :=
  current <- query ":meas:curr? (@1)"%string 256 ;;
  voltage <- query ":meas:volt? (@1)"%string 256 ;;
  ret (current, voltage).

Section Run.

Variable turn_on_time : Q.
Variable turn_on_voltage : Volt.
Variable turn_off_time_meas : Q.
Variable turn_off_voltage : Volt.
Variable meas_interval : Q.

Definition switch_on_command : string :=
  (":sour:volt " ++ format_volt turn_on_voltage)%string.
Definition switch_off_command : string :=
  (":sour:volt " ++ format_volt turn_off_voltage)%string.

(** [while not self.stoptrigger: ...]; the result is the final value
    of the local variable [switched]. *)
Fixpoint sampling_loop (fuel : nat) (t0 : Q) (switched : bool) : M bool :=
  match fuel with
  | O => out_of_fuel
  | S fuel' =>
      stop <- get_stoptrigger ;;
      if stop then ret switched
      else
        t_global <- time_time ;;
        let t := t_global - t0 in
        switched' <-
          (if negb switched && Qle_bool turn_on_time t
           then write switch_on_command ;; beep_up ;; ret true
           else ret switched) ;;
        '(current, voltage) <- measure ;;
        datapoints_append (t_global, current, voltage) ;;
        time_sleep meas_interval ;;
        sampling_loop fuel' t0 switched'
  end.

(** [while t < t1 + turn_off_time_meas: ...] *)
Fixpoint post_off_loop (fuel : nat) (t0 t1 t : Q) : M unit :=
  match fuel with
  | O => out_of_fuel
  | S fuel' =>
      if Qltb t (t1 + turn_off_time_meas)
      then
        t_global <- time_time ;;
        let t := t_global - t0 in
        '(current, voltage) <- measure ;;
        datapoints_append (t_global, current, voltage) ;;
        time_sleep meas_interval ;;
        post_off_loop fuel' t0 t1 t
      else ret tt
  end.

Definition run_measurement (fuel : nat) : M (list Row) :=
  t0 <- time_time ;;
  datapoints_new ;;
  _ <- sampling_loop fuel t0 false ;;
  write switch_off_command ;;
  beep_dn ;;
  t_global <- time_time ;;
  let t := t_global - t0 in
  let t1 := t in
  post_off_loop fuel t0 t1 t ;;
  datapoints_to_array.

End Run.
End Instrument.
End AgilentB2902A.

Import AgilentB2902A.

(** ** The object and its connection

    [__init__], [connect] and [close] create, replace and close the
    socket behind [self.socket]; [reset] and [setup] send the commands
    that configure the instrument.  The attributes [stoptrigger] and
    [datapoints] live in the [World]; the other attributes and the state
    of the socket are added here.  A method that talks to the
    instrument sees the state of the socket as the state of the link: on
    a socket that is closed, or not connected, every operation fails. *)

(** Python's [format(x, "0.3f")] of a float with the exact value [x]:
    the nearest multiple of 1/1000, ties to the even one, written with
    three decimals; a negative number keeps its sign also when it is
    rounded to zero.  (Infinities and NaN have no exact value, and a
    negative zero is not told from zero: they are outside this model.) *)
Definition round_half_even (q : Q) : Z :=
  let n := Qnum q in
  let d := Z.pos (Qden q) in
  match (2 * (n mod d) ?= d)%Z with
  | Lt => (n / d)%Z
  | Gt => (n / d + 1)%Z
  | Eq => if Z.even (n / d) then (n / d)%Z else (n / d + 1)%Z
  end.

Definition digit (n : Z) : ascii := ascii_of_nat (48 + Z.to_nat n).

Definition format_0_3f (x : Q) : string :=
  let m := round_half_even ((if Qltb x 0 then - x else x) * 1000) in
  ((if Qltb x 0 then "-" else "")
     ++ NilZero.string_of_int (Z.to_int (m / 1000))
     ++ "."
     ++ String (digit (m / 100 mod 10))
          (String (digit (m / 10 mod 10))
             (String (digit (m mod 10)) EmptyString)))%string.

(** Python's [x or y] on an optional argument: [None], the empty string
    and zero count as false. *)
Definition or_str (x : option string) (y : string) : string :=
  match x with
  | Some s => if String.eqb s "" then y else s
  | None => y
  end.

Definition or_int (x : option Z) (y : Z) : Z :=
  match x with
  | Some z => if Z.eqb z 0 then y else z
  | None => y
  end.

Module Instrument.

(** The socket object behind [self.socket]. *)
Inductive Socket : Type :=
| Unconnected                               (* socket.socket(...) *)
| Connected (address : string) (port : Z)   (* .connect((address, port)) *)
| Closed.                                   (* .close() *)

(** The object: its attributes ([None]: not bound yet) and the world. *)
Record Self : Type := {
  address : string;          (* self.address *)
  port : Z;                  (* self.port *)
  socket : option Socket;    (* self.socket *)
  timeout : option Z;        (* self.timeout *)
  world : World              (* self.stoptrigger, self.datapoints, ... *)
}.

Definition with_world (w : World) (o : Self) : Self :=
  {| address := address o; port := port o; socket := socket o;
     timeout := timeout o; world := w |}.

Definition with_socket (s : Socket) (o : Self) : Self :=
  {| address := address o; port := port o; socket := Some s;
     timeout := timeout o; world := world o |}.

Definition with_timeout (t : Z) (o : Self) : Self :=
  {| address := address o; port := port o; socket := socket o;
     timeout := Some t; world := world o |}.

Definition with_stoptrigger (b : bool) (w : World) : World :=
  {| tick := tick w; stoptrigger := b; inbuf := inbuf w;
     datapoints := datapoints w; log := log w |}.

(** Computations on the object. *)
Definition Obj (A : Type) : Type := Self -> Outcome A * Self.

Definition obind {A B} (m : Obj A) (f : A -> Obj B) : Obj B :=
  fun o =>
    match m o with
    | (Ret a, o') => f a o'
    | (Raise e, o') => (Raise e, o')
    | (OutOfFuel, o') => (OutOfFuel, o')
    end.

(** A call whose result is dropped. *)
Definition ignore {A} (m : Obj A) : Obj unit :=
  fun o =>
    match m o with
    | (Ret _, o') => (Ret tt, o')
    | (Raise e, o') => (Raise e, o')
    | (OutOfFuel, o') => (OutOfFuel, o')
    end.

Section Configuration.

Variable E : Env.

Variable Volt : Type.
Variable format_volt : Volt -> string.

(** [datetime.datetime.now()] and [strftime]. *)
Variable DateTime : Type.
Variable now : nat -> DateTime.
Variable strftime : DateTime -> string -> string.

Definition datetime_now : M DateTime :=
  fun w => (Ret (now (tick w)), advance E w).

Definition reset : M unit := write E "*RST".

Definition setup (voltage : Volt) (measurement_time : Q)
  (auto_sensitivity : bool) (curr_range : Q) : M unit :=
  (reset ;;
   now <- datetime_now ;;
   let date := strftime now "%Y,%m,%d" in
   let time := strftime now "%H,%M,%S" in
   write E (":SYST:DATE " ++ date) ;;
   write E (":SYST:TIME " ++ time) ;;
   write E ":SOUR:FUNC VOLT" ;;
   write E (":SOUR:VOLT " ++ format_volt voltage) ;;
   write E ":SENS:FUNC 'CURR'" ;;
   write E ":SENS:VOLT:PROT 10" ;;
   write E ":SENS:CURR:PROT 0.1" ;;
   write E (":SENS:CURR:APER " ++ format_0_3f measurement_time) ;;
   write E ":OUTP ON")%py%string.

End Configuration.

Section Methods.

Variable E : Env.

(** The environment with a link on which every operation fails. *)
Definition dead : Env :=
  {| clock := clock E; stop_writer := stop_writer E; arrive := arrive E;
     link_down := fun _ => true |}.

(** The environment as a socket in the state [s] gives it. *)
Definition link_of (s : Socket) : Env :=
  match s with
  | Connected _ _ => E
  | _ => dead
  end.

(** A method that reaches the instrument through [self.socket], called
    on the object.  Without the attribute, the first operation on the
    socket raises [AttributeError] instead. *)
Definition call {A} (m : Env -> M A) : Obj A :=
  fun o =>
    match socket o with
    | Some s =>
        let (r, w') := m (link_of s) (world o) in (r, with_world w' o)
    | None =>
        match m dead (world o) with
        | (Raise OSError, w') => (Raise AttributeError, with_world w' o)
        | (r, w') => (r, with_world w' o)
        end
    end.

(** [self.socket = socket.socket(socket.AF_INET, socket.SOCK_STREAM)]:
    a new socket, on which nothing has been received. *)
Definition socket_socket : Obj unit :=
  fun o =>
    let w := world o in
    if link_down E (tick w)
    then (Raise OSError, with_world (advance E w) o)
    else (Ret tt,
          with_socket Unconnected
            (with_world (with_inbuf [] (advance E w)) o)).

(** [self.socket.connect((address, port))].  The failures of the
    connection itself are all [OSError]s; arguments that the socket
    module refuses before it tries (a port outside 0..65535, a host name
    that is not well formed) are outside this model. *)
Definition socket_connect (a : string) (p : Z) : Obj unit :=
  fun o =>
    let w := world o in
    match socket o with
    | Some Unconnected =>
        if link_down E (tick w)
        then (Raise OSError, with_world (advance E w) o)
        else (Ret tt, with_socket (Connected a p) (with_world (advance E w) o))
    | Some _ => (Raise OSError, with_world (advance E w) o)
    | None => (Raise AttributeError, with_world (advance E w) o)
    end.

Definition connect (address' : option string) (port' : option Z) : Obj unit :=
  fun o =>
    let address' := or_str address' (address o) in
    let port' := or_int port' (port o) in
    obind socket_socket
      (fun _ =>
         obind (socket_connect address' port')
           (fun _ o' => (Ret tt, with_timeout 5000 o'))) o.

Definition close : Obj unit :=
  fun o =>
    match socket o with
    | Some _ =>
        (Ret tt, with_socket Closed (with_world (advance E (world o)) o))
    | None => (Raise AttributeError, with_world (advance E (world o)) o)
    end.

(** The constructor, started in a world [w]: what it returns beside the
    outcome is the object as far as it has been built. *)
Definition __init__ (address0 : string) (port0 : Z) (w : World)
  : Outcome unit * Self :=
  obind (connect (Some address0) None)
    (fun _ => call (fun E' => beep_up E'))
    {| address := address0; port := port0; socket := None;
       timeout := None;
       world := with_stoptrigger false (advance E w) |}.

Section Calls.

Variable Volt : Type.
Variable format_volt : Volt -> string.
Variable DateTime : Type.
Variable now : nat -> DateTime.
Variable strftime : DateTime -> string -> string.

(** The calls that can be made on the object once it is built. *)
Inductive Call : Type :=
| Connect (address' : option string) (port' : option Z)
| Write (command : string)
| Query (command : string) (response_length : nat)
| Close
| BeepUp
| BeepDn
| Reset
| Setup (voltage : Volt) (measurement_time : Q)
    (auto_sensitivity : bool) (curr_range : Q)
| Measure
| RunMeasurement (turn_on_time : Q) (turn_on_voltage : Volt)
    (turn_off_time_meas : Q) (turn_off_voltage : Volt)
    (meas_interval : Q) (fuel : nat).

Variable float_of_bytes : bytes -> option Q.

Definition perform (c : Call) : Obj unit :=
  match c with
  | Connect a p => connect a p
  | Write command => call (fun E' => write E' command)
  | Query command n => ignore (call (fun E' => query E' command n))
  | Close => close
  | BeepUp => call (fun E' => beep_up E')
  | BeepDn => call (fun E' => beep_dn E')
  | Reset => call (fun E' => reset E')
  | Setup v t a c => call (fun E' => setup E' format_volt now strftime v t a c)
  | Measure => ignore (call (fun E' => measure E'))
  | RunMeasurement t_on v_on t_off v_off dt fuel =>
      ignore (call (fun E' =>
                      run_measurement E' format_volt float_of_bytes
                        t_on v_on t_off v_off dt fuel))
  end.

(** The object after a series of calls, whatever their outcomes (the
    caller may catch an exception and go on). *)
Definition session (cs : list Call) (o : Self) : Self :=
  fold_left (fun o c => snd (perform c o)) cs o.

End Calls.
End Methods.
End Instrument.

(** ** What every primitive respects

    Facts that do not depend on the program: they hold for each primitive
    and are closed under sequencing, hence hold of every method. *)

(** The last value the external actor wrote during the [n] operations that
    start at operation [k], if it wrote at all. *)
Fixpoint last_write (E : Env) (k n : nat) : option bool :=
  match n with
  | O => None
  | S n' =>
      match stop_writer E (k + n') with
      | Some b => Some b
      | None => last_write E k n'
      end
  end.

(** The clock readings recorded in a history. *)
Fixpoint readings (l : list Event) : list Q :=
  match l with
  | [] => []
  | EvTime t :: l' => t :: readings l'
  | _ :: l' => readings l'
  end.

(** The effect of a history on [self.datapoints]. *)
Fixpoint replay (l : list Event) (d : Datapoints) : Datapoints :=
  match l with
  | [] => d
  | EvNewList :: l' => replay l' (PyList [])
  | EvAppend s :: l' =>
      replay l' (match d with PyList smp => PyList (smp ++ [s]) | _ => d end)
  | EvArray rows :: l' => replay l' (NdArray rows)
  | _ :: l' => replay l' d
  end.

(** Operation numbers that increase, all of them in [[lo, hi)]. *)
Fixpoint ascending (lo hi : nat) (ks : list nat) : Prop :=
  match ks with
  | [] => (lo <= hi)%nat
  | k :: ks' => (lo <= k)%nat /\ ascending (S k) hi ks'
  end.

Lemma last_write_app E k n m :
  last_write E k (n + m) =
  match last_write E (k + n) m with
  | Some b => Some b
  | None => last_write E k n
  end.
Proof.
  induction m as [|m IH].
  - rewrite Nat.add_0_r. reflexivity.
  - rewrite Nat.add_succ_r. simpl. rewrite Nat.add_assoc.
    destruct (stop_writer E (k + n + m)); [reflexivity | exact IH].
Qed.

Lemma readings_app l1 l2 : readings (l1 ++ l2) = readings l1 ++ readings l2.
Proof.
  induction l1 as [|e l1 IH]; [reflexivity|].
  destruct e; simpl; rewrite IH; reflexivity.
Qed.

Lemma replay_app l1 l2 d : replay (l1 ++ l2) d = replay l2 (replay l1 d).
Proof.
  revert d. induction l1 as [|e l1 IH]; intros d; [reflexivity|].
  destruct e; simpl; apply IH.
Qed.

Lemma ascending_le lo hi ks : ascending lo hi ks -> (lo <= hi)%nat.
Proof.
  revert lo. induction ks as [|k ks IH]; simpl; intros lo H; [exact H|].
  destruct H as [H1 H2]. apply IH in H2. lia.
Qed.

Lemma ascending_weaken lo lo' hi hi' ks :
  (lo' <= lo)%nat -> (hi <= hi')%nat ->
  ascending lo hi ks -> ascending lo' hi' ks.
Proof.
  revert lo lo'. induction ks as [|k ks IH]; simpl; intros lo lo' Hlo Hhi H.
  - lia.
  - destruct H as [H1 H2]. split; [lia|]. eapply IH; eauto.
Qed.

Lemma ascending_app lo mid hi ks1 ks2 :
  ascending lo mid ks1 -> ascending mid hi ks2 ->
  ascending lo hi (ks1 ++ ks2).
Proof.
  revert lo. induction ks1 as [|k ks1 IH]; simpl; intros lo H1 H2.
  - eapply ascending_weaken; [exact H1 | apply Nat.le_refl | exact H2].
  - destruct H1 as [Hk H1]. split; [exact Hk|]. apply IH; assumption.
Qed.

(** Every conversion to an array recorded in a history converts the list
    that the history has built up to that point. *)
Fixpoint faithful (fob : bytes -> option Q) (d : Datapoints) (l : list Event)
  : Prop :=
  match l with
  | [] => True
  | e :: l' =>
      match e, d with
      | EvArray rows, PyList smp =>
          AgilentB2902A.rows_of_samples fob smp = Some rows
      | EvArray rows, NdArray rows' => rows' = rows
      | _, _ => True
      end /\ faithful fob (replay [e] d) l'
  end.

Lemma faithful_app fob d l1 l2 :
  faithful fob d (l1 ++ l2) <->
  faithful fob d l1 /\ faithful fob (replay l1 d) l2.
Proof.
  revert d. induction l1 as [|e l1 IH]; intros d.
  - simpl. tauto.
  - assert (R : replay (e :: l1) d = replay l1 (replay [e] d)).
    { change (e :: l1) with ([e] ++ l1). apply replay_app. }
    rewrite R. change ((e :: l1) ++ l2) with (e :: l1 ++ l2).
    cbn [faithful]. rewrite IH. tauto.
Qed.

(** A sleep that has been recorded was of a length that [time.sleep]
    accepts. *)
Definition slept (e : Event) : Prop :=
  match e with EvSleep d => 0 <= d | _ => True end.

Section Generic.

Variable E : Env.
Variable float_of_bytes : bytes -> option Q.

#[local] Hint Constructors Forall : core.

(** How the world after a computation relates to the world before. *)
Record Step (w w' : World) : Prop := {
  step_tick : (tick w <= tick w')%nat;
  step_flag :
    stoptrigger w' =
    match last_write E (tick w) (tick w' - tick w) with
    | Some b => b
    | None => stoptrigger w
    end;
  step_log : exists l ks,
    log w' = log w ++ l /\
    datapoints w' = replay l (datapoints w) /\
    readings l = map (clock E) ks /\
    ascending (tick w) (tick w') ks /\
    faithful float_of_bytes (datapoints w) l /\
    Forall slept l
}.

Lemma Step_refl w : Step w w.
Proof.
  split.
  - apply Nat.le_refl.
  - rewrite Nat.sub_diag. reflexivity.
  - exists [], []. rewrite app_nil_r. simpl. auto 7.
Qed.

Lemma Step_trans w1 w2 w3 : Step w1 w2 -> Step w2 w3 -> Step w1 w3.
Proof.
  intros [T1 F1 (l1 & ks1 & L1 & D1 & R1 & A1 & Y1 & Z1)]
         [T2 F2 (l2 & ks2 & L2 & D2 & R2 & A2 & Y2 & Z2)].
  split.
  - lia.
  - replace (tick w3 - tick w1)%nat
      with ((tick w2 - tick w1) + (tick w3 - tick w2))%nat by lia.
    rewrite last_write_app.
    replace (tick w1 + (tick w2 - tick w1))%nat with (tick w2) by lia.
    rewrite F2, F1. destruct (last_write E (tick w2) _); reflexivity.
  - exists (l1 ++ l2), (ks1 ++ ks2). repeat split.
    + rewrite L2, L1, app_assoc. reflexivity.
    + rewrite replay_app, <- D1. exact D2.
    + rewrite readings_app, map_app, R1, R2. reflexivity.
    + eapply ascending_app; eassumption.
    + apply faithful_app. rewrite <- D1. auto.
    + apply Forall_app. auto.
Qed.

Lemma Step_advance w : Step w (advance E w).
Proof.
  split.
  - simpl. lia.
  - unfold advance at 1 2. cbn [tick stoptrigger].
    replace (S (tick w) - tick w)%nat with 1%nat by lia.
    cbn [last_write]. rewrite Nat.add_0_r.
    destruct (stop_writer E (tick w)); reflexivity.
  - exists [], []. rewrite app_nil_r. simpl. repeat split; auto; lia.
Qed.

(** A computation all of whose runs are steps. *)
Definition Steps {A} (m : M A) : Prop := forall w, Step w (snd (m w)).

Lemma Steps_ret A (a : A) : Steps (ret a).
Proof. intros w. apply Step_refl. Qed.

Lemma Steps_out_of_fuel A : Steps (@out_of_fuel A).
Proof. intros w. apply Step_refl. Qed.

Lemma Steps_bind A B (m : M A) (f : A -> M B) :
  Steps m -> (forall a, Steps (f a)) -> Steps (bind m f).
Proof.
  intros Hm Hf w. unfold bind. specialize (Hm w).
  destruct (m w) as [[a|e|] w1]; simpl in *; try exact Hm.
  eapply Step_trans; [exact Hm | apply Hf].
Qed.

(** One primitive operation. *)
Lemma Step_prim w w' l ks :
  tick w' = S (tick w) ->
  stoptrigger w' = stoptrigger (advance E w) ->
  log w' = log w ++ l ->
  datapoints w' = replay l (datapoints w) ->
  readings l = map (clock E) ks ->
  ascending (tick w) (S (tick w)) ks ->
  faithful float_of_bytes (datapoints w) l ->
  Forall slept l ->
  Step w w'.
Proof.
  intros Ht Hf Hl Hd Hr Ha Hy Hz.
  destruct (Step_advance w) as [T F _]. split.
  - lia.
  - rewrite Ht, Hf. exact F.
  - exists l, ks. rewrite Ht. auto 7.
Qed.

Lemma Steps_time_time : Steps (time_time E).
Proof.
  intros w. unfold time_time. simpl.
  apply Step_prim with (l := [EvTime (clock E (tick w))]) (ks := [tick w]);
    simpl; auto; try solve [repeat constructor].
Qed.

Lemma Steps_time_sleep secs : Steps (time_sleep E secs).
Proof.
  intros w. unfold time_sleep, Qltb.
  destruct (Qle_bool 0 secs) eqn:C; simpl.
  - apply Qle_bool_iff in C.
    apply Step_prim with (l := [EvSleep secs]) (ks := []); simpl; auto.
  - apply Step_advance.
Qed.

Lemma Steps_get_stoptrigger : Steps (get_stoptrigger E).
Proof.
  intros w. unfold get_stoptrigger. simpl.
  eapply Step_prim with (l := [EvStop _]) (ks := []); simpl; auto; try solve [repeat constructor].
Qed.

Lemma Steps_socket_sendall data : Steps (socket_sendall E data).
Proof.
  intros w. unfold socket_sendall. destruct (link_down E (tick w)); simpl.
  - apply Step_advance.
  - apply Step_prim with (l := [EvSend data]) (ks := []); simpl; auto; try solve [repeat constructor].
Qed.

Lemma Steps_socket_recv bufsize : Steps (socket_recv E bufsize).
Proof.
  intros w. unfold socket_recv. destruct (link_down E (tick w)); simpl.
  - apply Step_advance.
  - eapply Step_prim with (l := [EvRecv bufsize _]) (ks := []); simpl; auto; try solve [repeat constructor].
Qed.

Lemma Steps_datapoints_new : Steps (datapoints_new E).
Proof.
  intros w. unfold datapoints_new. simpl.
  apply Step_prim with (l := [EvNewList]) (ks := []); simpl; auto; try solve [repeat constructor].
Qed.

Lemma Steps_datapoints_append s : Steps (datapoints_append E s).
Proof.
  intros w. unfold datapoints_append.
  destruct (datapoints w) as [smp|rows] eqn:D; simpl.
  - apply Step_prim with (l := [EvAppend s]) (ks := []); simpl; auto; try solve [repeat constructor].
    rewrite D. reflexivity.
  - apply Step_advance.
Qed.

Lemma Steps_datapoints_to_array :
  Steps (datapoints_to_array E float_of_bytes).
Proof.
  intros w. unfold datapoints_to_array.
  destruct (datapoints w) as [smp|rows] eqn:D; simpl.
  - destruct (rows_of_samples float_of_bytes smp) as [rows|] eqn:R; simpl.
    + apply Step_prim with (l := [EvArray rows]) (ks := []); simpl; auto; try solve [repeat constructor].
      rewrite D. auto.
    + apply Step_advance.
  - apply Step_prim with (l := [EvArray rows]) (ks := []); simpl; auto; try solve [repeat constructor].
    rewrite D. auto.
Qed.

Lemma Steps_write command : Steps (write E command).
Proof. apply Steps_socket_sendall. Qed.

Lemma Steps_query command n : Steps (query E command n).
Proof.
  unfold query. apply Steps_bind; [apply Steps_write|]. intros _.
  apply Steps_bind; [apply Steps_socket_recv|]. intros d. apply Steps_ret.
Qed.

Lemma Steps_beep_up : Steps (beep_up E).
Proof.
  unfold beep_up.
  repeat (apply Steps_bind; [apply Steps_write | intros _]).
  apply Steps_write.
Qed.

Lemma Steps_beep_dn : Steps (beep_dn E).
Proof.
  unfold beep_dn.
  repeat (apply Steps_bind; [apply Steps_write | intros _]).
  apply Steps_write.
Qed.

Lemma Steps_measure : Steps (measure E).
Proof.
  unfold measure.
  apply Steps_bind; [apply Steps_query | intros c].
  apply Steps_bind; [apply Steps_query | intros v].
  apply Steps_ret.
Qed.

Section GenericRun.

Variable Volt : Type.
Variable format_volt : Volt -> string.
Variable turn_on_time : Q.
Variable turn_on_voltage : Volt.
Variable turn_off_time_meas : Q.
Variable turn_off_voltage : Volt.
Variable meas_interval : Q.

Lemma Steps_sampling_loop fuel t0 switched :
  Steps (sampling_loop E format_volt turn_on_time turn_on_voltage
           meas_interval fuel t0 switched).
Proof.
  revert switched. induction fuel as [|fuel IH]; intros switched.
  - apply Steps_out_of_fuel.
  - cbn [sampling_loop].
    apply Steps_bind; [apply Steps_get_stoptrigger | intros stop].
    destruct stop; [apply Steps_ret|].
    apply Steps_bind; [apply Steps_time_time | intros t_global].
    apply Steps_bind.
    + destruct (negb switched && _).
      * apply Steps_bind; [apply Steps_write | intros _].
        apply Steps_bind; [apply Steps_beep_up | intros _].
        apply Steps_ret.
      * apply Steps_ret.
    + intros switched'.
      apply Steps_bind; [apply Steps_measure | intros [c v]].
      apply Steps_bind; [apply Steps_datapoints_append | intros _].
      apply Steps_bind; [apply Steps_time_sleep | intros _].
      apply IH.
Qed.

Lemma Steps_post_off_loop fuel t0 t1 t :
  Steps (post_off_loop E turn_off_time_meas meas_interval fuel t0 t1 t).
Proof.
  revert t. induction fuel as [|fuel IH]; intros t.
  - apply Steps_out_of_fuel.
  - cbn [post_off_loop]. destruct (Qltb t _); [|apply Steps_ret].
    apply Steps_bind; [apply Steps_time_time | intros t_global].
    apply Steps_bind; [apply Steps_measure | intros [c v]].
    apply Steps_bind; [apply Steps_datapoints_append | intros _].
    apply Steps_bind; [apply Steps_time_sleep | intros _].
    apply IH.
Qed.

Lemma Steps_run_measurement fuel :
  Steps (run_measurement E format_volt float_of_bytes turn_on_time
           turn_on_voltage turn_off_time_meas turn_off_voltage
           meas_interval fuel).
Proof.
  unfold run_measurement.
  apply Steps_bind; [apply Steps_time_time | intros t0].
  apply Steps_bind; [apply Steps_datapoints_new | intros _].
  apply Steps_bind; [apply Steps_sampling_loop | intros _].
  apply Steps_bind; [apply Steps_write | intros _].
  apply Steps_bind; [apply Steps_beep_dn | intros _].
  apply Steps_bind; [apply Steps_time_time | intros t_global].
  apply Steps_bind; [apply Steps_post_off_loop | intros _].
  apply Steps_datapoints_to_array.
Qed.

End GenericRun.

End Generic.

(** ** The shape of a history

    [Shape m S]: whenever [m] returns [a], the events it has added to the
    history are related to [a] by [S]; whenever it is cut short (an
    exception, or the fuel of the model is used up) the events added so far
    are the beginning of a list that [S] accepts.  Properties of complete
    histories that are inherited by their beginnings therefore hold of
    every run. *)

Definition Shape {A} (m : M A) (S : A -> list Event -> Prop) : Prop :=
  (forall w, exists l,
      log (snd (m w)) = log w ++ l /\
      match fst (m w) with
      | Ret a => S a l
      | _ => exists a l', S a (l ++ l')
      end) /\
  (exists a l, S a l).

Lemma Shape_ret A (a : A) : Shape (ret a) (fun a' l => a' = a /\ l = []).
Proof.
  split.
  - intros w. exists []. simpl. rewrite app_nil_r. auto.
  - exists a, []. auto.
Qed.

Lemma Shape_out_of_fuel A (S : A -> list Event -> Prop) :
  (exists a l, S a l) -> Shape out_of_fuel S.
Proof.
  intros H. split; [|exact H].
  intros w. exists []. simpl. rewrite app_nil_r. auto.
Qed.

Lemma Shape_bind A B (m : M A) (f : A -> M B) S1 S2 :
  Shape m S1 -> (forall a, Shape (f a) (S2 a)) ->
  Shape (bind m f)
        (fun b l => exists a l1 l2, l = l1 ++ l2 /\ S1 a l1 /\ S2 a b l2).
Proof.
  intros [Hm [a0 [l0 H0]]] Hf. split.
  - intros w. unfold bind. destruct (Hm w) as [l1 [L1 R1]].
    destruct (m w) as [[a|e|] w1]; simpl in *.
    + destruct (Hf a) as [Hfa [b0 [k0 K0]]].
      destruct (Hfa w1) as [l2 [L2 R2]].
      exists (l1 ++ l2). split.
      { rewrite L2, L1, app_assoc. reflexivity. }
      destruct (fst (f a w1)) as [b|e|].
      * exists a, l1, l2. auto.
      * destruct R2 as [b [l' R2]]. exists b, l'.
        exists a, l1, (l2 ++ l'). rewrite app_assoc. auto.
      * destruct R2 as [b [l' R2]]. exists b, l'.
        exists a, l1, (l2 ++ l'). rewrite app_assoc. auto.
    + exists l1. split; [exact L1|]. destruct R1 as [a [l' R1]].
      destruct (Hf a) as [_ [b [l2 K]]].
      exists b, (l' ++ l2), a, (l1 ++ l'), l2. rewrite app_assoc. auto.
    + exists l1. split; [exact L1|]. destruct R1 as [a [l' R1]].
      destruct (Hf a) as [_ [b [l2 K]]].
      exists b, (l' ++ l2), a, (l1 ++ l'), l2. rewrite app_assoc. auto.
  - destruct (Hf a0) as [_ [b [l2 K]]].
    exists b, (l0 ++ l2), a0, l0, l2. auto.
Qed.

Lemma Shape_conseq A (m : M A) (S S' : A -> list Event -> Prop) :
  Shape m S -> (forall a l, S a l -> S' a l) -> Shape m S'.
Proof.
  intros [Hm [a0 [l0 H0]]] HS. split.
  - intros w. destruct (Hm w) as [l [L R]]. exists l. split; [exact L|].
    destruct (fst (m w)) as [a|e|].
    + auto.
    + destruct R as [a [l' R]]. eauto.
    + destruct R as [a [l' R]]. eauto.
  - eauto.
Qed.

Lemma Shape_if A (b : bool) (m1 m2 : M A) S1 S2 :
  Shape m1 S1 -> Shape m2 S2 ->
  Shape (if b then m1 else m2) (if b then S1 else S2).
Proof. destruct b; auto. Qed.

(** The event of [self.write(command)]. *)
Definition wire (command : string) : Event :=
  EvSend (encode (command ++ newline)%string).

Definition beep_up_events : list Event :=
  [wire ":SYST:BEEP:STAT ON"; wire ":SYST:BEEP 800, 0.1";
   wire ":SYST:BEEP 1000, 0.1"; wire ":SYST:BEEP 1200, 0.1";
   wire ":SYST:BEEP 1600, 0.4"].

Definition beep_dn_events : list Event :=
  [wire ":SYST:BEEP:STAT ON"; wire ":SYST:BEEP 1600, 0.1";
   wire ":SYST:BEEP 1200, 0.1"; wire ":SYST:BEEP 1000, 0.1";
   wire ":SYST:BEEP 800, 0.4"].

Definition measure_events (current voltage : bytes) : list Event :=
  [wire ":meas:curr? (@1)"; EvRecv 256 current;
   wire ":meas:volt? (@1)"; EvRecv 256 voltage].

Section Shapes.

Variable E : Env.

Ltac prim_shape a :=
  split;
  [ intros w; eexists; split; simpl; reflexivity
  | exists a; eexists; reflexivity ].

Lemma Shape_time_time :
  Shape (time_time E) (fun t l => l = [EvTime t]).
Proof. unfold time_time. prim_shape 0. Qed.

Lemma Shape_get_stoptrigger :
  Shape (get_stoptrigger E) (fun b l => l = [EvStop b]).
Proof. unfold get_stoptrigger. prim_shape true. Qed.

Lemma Shape_datapoints_new :
  Shape (datapoints_new E) (fun _ l => l = [EvNewList]).
Proof. unfold datapoints_new. prim_shape tt. Qed.

Ltac prim_cut w :=
  exists []; simpl; rewrite app_nil_r; split; [reflexivity|];
  do 2 eexists; simpl; reflexivity.

Lemma Shape_time_sleep secs :
  Shape (time_sleep E secs) (fun _ l => l = [EvSleep secs]).
Proof.
  split; [|exists tt; eexists; reflexivity].
  intros w. unfold time_sleep. destruct (Qltb secs 0).
  - prim_cut w.
  - eexists; split; simpl; reflexivity.
Qed.

Lemma Shape_socket_sendall data :
  Shape (socket_sendall E data) (fun _ l => l = [EvSend data]).
Proof.
  split; [|exists tt; eexists; reflexivity].
  intros w. unfold socket_sendall. destruct (link_down E (tick w)).
  - prim_cut w.
  - eexists; split; simpl; reflexivity.
Qed.

Lemma Shape_socket_recv bufsize :
  Shape (socket_recv E bufsize) (fun d l => l = [EvRecv bufsize d]).
Proof.
  split; [|exists []; eexists; reflexivity].
  intros w. unfold socket_recv. destruct (link_down E (tick w)).
  - exists []; simpl; rewrite app_nil_r; split; [reflexivity|].
    exists []. eexists; simpl; reflexivity.
  - eexists; split; simpl; reflexivity.
Qed.

Lemma Shape_datapoints_append s :
  Shape (datapoints_append E s) (fun _ l => l = [EvAppend s]).
Proof.
  split; [|exists tt; eexists; reflexivity].
  intros w. unfold datapoints_append. destruct (datapoints w).
  - eexists; split; simpl; reflexivity.
  - prim_cut w.
Qed.

Lemma Shape_datapoints_to_array fob :
  Shape (datapoints_to_array E fob) (fun rows l => l = [EvArray rows]).
Proof.
  split; [|exists []; eexists; reflexivity].
  intros w. unfold datapoints_to_array.
  destruct (datapoints w) as [smp|rows].
  - destruct (rows_of_samples fob smp).
    + eexists; split; simpl; reflexivity.
    + exists []; simpl; rewrite app_nil_r; split; [reflexivity|].
      exists []. eexists; simpl; reflexivity.
  - eexists; split; simpl; reflexivity.
Qed.

Lemma Shape_write command :
  Shape (write E command) (fun _ l => l = [wire command]).
Proof. apply Shape_socket_sendall. Qed.

(** Taking apart what [Shape_bind] and [Shape_ret] produce. *)
Ltac unpack :=
  cbv beta in *;
  repeat match goal with
    | H : exists _, _ |- _ => destruct H
    | H : _ /\ _ |- _ => destruct H
    end; subst; simpl; repeat rewrite <- app_assoc; simpl.

Lemma Shape_query command n :
  Shape (query E command n) (fun d l => l = [wire command; EvRecv n d]).
Proof.
  unfold query. eapply Shape_conseq.
  - eapply Shape_bind; [apply Shape_write | intros ?].
    eapply Shape_bind; [apply Shape_socket_recv | intros d].
    apply Shape_ret.
  - intros d l H. unpack. reflexivity.
Qed.

Lemma Shape_beep_up : Shape (beep_up E) (fun _ l => l = beep_up_events).
Proof.
  unfold beep_up. eapply Shape_conseq.
  - do 4 (eapply Shape_bind; [apply Shape_write | intros ?]).
    apply Shape_write.
  - intros d l H. unpack. reflexivity.
Qed.

Lemma Shape_beep_dn : Shape (beep_dn E) (fun _ l => l = beep_dn_events).
Proof.
  unfold beep_dn. eapply Shape_conseq.
  - do 4 (eapply Shape_bind; [apply Shape_write | intros ?]).
    apply Shape_write.
  - intros d l H. unpack. reflexivity.
Qed.

Lemma Shape_measure :
  Shape (measure E) (fun cv l => l = measure_events (fst cv) (snd cv)).
Proof.
  unfold measure. eapply Shape_conseq.
  - eapply Shape_bind; [apply Shape_query | intros c].
    eapply Shape_bind; [apply Shape_query | intros v].
    apply Shape_ret.
  - intros d l H. unpack. reflexivity.
Qed.

End Shapes.

(** ** The histories of [run_measurement] *)

(** What one pass through the body of either loop has seen: the clock
    reading and the two replies of the instrument. *)
Record Iteration : Type := {
  it_time : Q;
  it_current : bytes;
  it_voltage : bytes
}.

Definition it_sample (it : Iteration) : Sample :=
  (it_time it, it_current it, it_voltage it).

Lemma Shape_pair A B C (cv : A * B) (k : A -> B -> M C) S :
  Shape (k (fst cv) (snd cv)) S ->
  Shape (match cv with (c, v) => k c v end) S.
Proof. destruct cv. auto. Qed.

Section RunShape.

Variable E : Env.
Variable Volt : Type.
Variable format_volt : Volt -> string.
Variable float_of_bytes : bytes -> option Q.
Variable turn_on_time : Q.
Variable turn_on_voltage : Volt.
Variable turn_off_time_meas : Q.
Variable turn_off_voltage : Volt.
Variable meas_interval : Q.

Let on_command := switch_on_command format_volt turn_on_voltage.
Let off_command := switch_off_command format_volt turn_off_voltage.

(** The test [not switched and t >= turn_on_time]. *)
Definition fires (t0 : Q) (switched : bool) (it : Iteration) : bool :=
  negb switched && Qle_bool turn_on_time (it_time it - t0).

(** [measure], [append], [sleep]: the end of the body of both loops. *)
Definition sample_events (it : Iteration) : list Event :=
  measure_events (it_current it) (it_voltage it)
    ++ [EvAppend (it_sample it); EvSleep meas_interval].

(** One pass through the first loop, from the test of the flag on. *)
Definition iteration_events (t0 : Q) (switched : bool) (it : Iteration)
  : list Event :=
  EvStop false :: EvTime (it_time it)
    :: (if fires t0 switched it then wire on_command :: beep_up_events
        else [])
    ++ sample_events it.

(** The first loop, up to and including the test that ends it. *)
Fixpoint sampling_events (t0 : Q) (switched : bool) (its : list Iteration)
  : list Event :=
  match its with
  | [] => [EvStop true]
  | it :: its' =>
      iteration_events t0 switched it
        ++ sampling_events t0 (switched || fires t0 switched it) its'
  end.

(** One pass through the second loop. *)
Definition post_iteration_events (it : Iteration) : list Event :=
  EvTime (it_time it) :: sample_events it.

(** The tests of the second loop: it goes on as long as
    [t < t1 + turn_off_time_meas] and ends when this fails. *)
Fixpoint post_off_tests (t0 t1 t : Q) (pits : list Iteration) : Prop :=
  match pits with
  | [] => Qltb t (t1 + turn_off_time_meas) = false
  | it :: pits' =>
      Qltb t (t1 + turn_off_time_meas) = true /\
      post_off_tests t0 t1 (it_time it - t0) pits'
  end.

(** The history of a call that returns [rows]. *)
Definition run_events (t0 : Q) (its : list Iteration) (tg1 : Q)
  (pits : list Iteration) (rows : list Row) : list Event :=
  EvTime t0 :: EvNewList
    :: sampling_events t0 false its
    ++ wire off_command :: beep_dn_events
    ++ EvTime tg1 :: flat_map post_iteration_events pits
    ++ [EvArray rows].

Definition Complete (rows : list Row) (l : list Event) : Prop :=
  exists t0 its tg1 pits,
    l = run_events t0 its tg1 pits rows /\
    post_off_tests t0 (tg1 - t0) (tg1 - t0) pits.

Ltac unpack :=
  cbv beta in *;
  repeat match goal with
    | H : exists _, _ |- _ => destruct H
    | H : _ /\ _ |- _ => destruct H
    end; subst; simpl; repeat rewrite <- app_assoc; simpl.

Lemma Shape_sampling_loop fuel t0 switched :
  Shape (sampling_loop E format_volt turn_on_time turn_on_voltage
           meas_interval fuel t0 switched)
        (fun _ l => exists its, l = sampling_events t0 switched its).
Proof.
  revert switched. induction fuel as [|fuel IH]; intros switched.
  - apply Shape_out_of_fuel. exists true, [EvStop true], []. reflexivity.
  - cbn [sampling_loop]. eapply Shape_conseq.
    + eapply Shape_bind; [apply Shape_get_stoptrigger | intros stop].
      eapply Shape_if; [apply Shape_ret|].
      eapply Shape_bind; [apply Shape_time_time | intros t_global].
      eapply Shape_bind.
      * eapply Shape_if; [|apply Shape_ret].
        eapply Shape_bind; [apply Shape_write | intros ?].
        eapply Shape_bind; [apply Shape_beep_up | intros ?].
        apply Shape_ret.
      * intros switched'. eapply Shape_bind; [apply Shape_measure|].
        intros cv. apply Shape_pair.
        eapply Shape_bind; [apply Shape_datapoints_append | intros ?].
        eapply Shape_bind; [apply Shape_time_sleep | intros ?].
        apply IH.
    + intros sw' l H. cbv beta in H.
      destruct H as (stop & l1 & l2 & -> & -> & H).
      destruct stop.
      { destruct H as [_ ->]. exists []. reflexivity. }
      destruct H as (tg & l1 & l2' & -> & -> & H).
      destruct H as (sw1 & l1 & l2 & -> & H1 & H).
      destruct H as (cv & l3 & l4 & -> & -> & H).
      destruct H as (? & l5 & l6 & -> & -> & H).
      destruct H as (? & l7 & l8 & -> & -> & its & ->).
      set (it := {| it_time := tg; it_current := fst cv;
                    it_voltage := snd cv |}).
      change (negb switched && Qle_bool turn_on_time (tg - t0))
        with (fires t0 switched it) in H1.
      exists (it :: its). cbn [sampling_events].
      unfold iteration_events, sample_events. cbn [it_time it_current it_voltage it_sample].
      destruct (fires t0 switched it).
      * unpack. rewrite orb_true_r. reflexivity.
      * unpack. rewrite orb_false_r. reflexivity.
Qed.

Lemma post_off_tests_exist t0 t1 t :
  exists pits, post_off_tests t0 t1 t pits.
Proof.
  destruct (Qltb t (t1 + turn_off_time_meas)) eqn:C.
  - exists [{| it_time := t0 + (t1 + turn_off_time_meas);
               it_current := []; it_voltage := [] |}].
    simpl. split; [exact C|]. unfold Qltb.
    apply negb_false_iff, Qle_bool_iff. lra.
  - exists []. exact C.
Qed.

Lemma Shape_post_off_loop fuel t0 t1 t :
  Shape (post_off_loop E turn_off_time_meas meas_interval fuel t0 t1 t)
        (fun _ l => exists pits,
             l = flat_map post_iteration_events pits /\
             post_off_tests t0 t1 t pits).
Proof.
  revert t. induction fuel as [|fuel IH]; intros t.
  - apply Shape_out_of_fuel.
    destruct (post_off_tests_exist t0 t1 t) as [pits H].
    exists tt. eauto.
  - cbn [post_off_loop].
    destruct (Qltb t (t1 + turn_off_time_meas)) eqn:C.
    + eapply Shape_conseq.
      * eapply Shape_bind; [apply Shape_time_time | intros t_global].
        eapply Shape_bind; [apply Shape_measure|].
        intros cv. apply Shape_pair.
        eapply Shape_bind; [apply Shape_datapoints_append | intros ?].
        eapply Shape_bind; [apply Shape_time_sleep | intros ?].
        apply IH.
      * intros u l H. cbv beta in H.
        destruct H as (tg & l1 & l2 & -> & -> & H).
        destruct H as (cv & l3 & l4 & -> & -> & H).
        destruct H as (? & l5 & l6 & -> & -> & H).
        destruct H as (? & l7 & l8 & -> & -> & pits & -> & T).
        exists ({| it_time := tg; it_current := fst cv;
                   it_voltage := snd cv |} :: pits).
        split; [|split; assumption].
        cbn [flat_map]. unfold post_iteration_events at 1, sample_events.
        unpack. reflexivity.
    + eapply Shape_conseq; [apply Shape_ret|].
      intros u l [_ ->]. exists []. split; [reflexivity | exact C].
Qed.

Lemma Shape_run_measurement fuel :
  Shape (run_measurement E format_volt float_of_bytes turn_on_time
           turn_on_voltage turn_off_time_meas turn_off_voltage
           meas_interval fuel)
        Complete.
Proof.
  unfold run_measurement. eapply Shape_conseq.
  - eapply Shape_bind; [apply Shape_time_time | intros t0].
    eapply Shape_bind; [apply Shape_datapoints_new | intros ?].
    eapply Shape_bind; [apply Shape_sampling_loop | intros ?].
    eapply Shape_bind; [apply Shape_write | intros ?].
    eapply Shape_bind; [apply Shape_beep_dn | intros ?].
    eapply Shape_bind; [apply Shape_time_time | intros t_global].
    eapply Shape_bind; [apply Shape_post_off_loop | intros ?].
    apply Shape_datapoints_to_array.
  - intros rows l H. cbv beta in H.
    destruct H as (t0 & l1 & l2 & -> & -> & H).
    destruct H as (? & l3 & l4 & -> & -> & H).
    destruct H as (? & l5 & l6 & -> & [its ->] & H).
    destruct H as (? & l7 & l8 & -> & -> & H).
    destruct H as (? & l9 & l10 & -> & -> & H).
    destruct H as (tg1 & l11 & l12 & -> & -> & H).
    destruct H as (? & l13 & l14 & -> & (pits & -> & T) & ->).
    exists t0, its, tg1, pits. split; [|exact T].
    unfold run_events. simpl. repeat rewrite <- app_assoc. reflexivity.
Qed.

End RunShape.

(** ** Histories as lists *)

Lemma trace_since_app w w' l : log w' = log w ++ l -> trace_since w w' = l.
Proof.
  intros H. unfold trace_since. rewrite H, skipn_app, skipn_all, Nat.sub_diag.
  reflexivity.
Qed.

Lemma Q_eq_dec (x y : Q) : {x = y} + {x <> y}.
Proof. decide equality; [apply Pos.eq_dec | apply Z.eq_dec]. Defined.

Lemma byte_eq_dec (x y : byte) : {x = y} + {x <> y}.
Proof.
  destruct (Byte.eqb x y) eqn:H.
  - left. apply Byte.byte_dec_bl. exact H.
  - right. intros ->. rewrite (Byte.byte_dec_lb eq_refl) in H. discriminate.
Defined.

Lemma Event_eq_dec (x y : Event) : {x = y} + {x <> y}.
Proof.
  pose proof Q_eq_dec. pose proof byte_eq_dec.
  pose proof Nat.eq_dec. pose proof Bool.bool_dec.
  repeat decide equality.
Defined.

(** How many times an event occurs. *)
Definition occurrences (e : Event) (l : list Event) : nat :=
  count_occ Event_eq_dec l e.

(** A write of a [":sour:volt ..."] command. *)
Fixpoint bytes_eqb (a b : bytes) : bool :=
  match a, b with
  | [], [] => true
  | x :: a', y :: b' => Byte.eqb x y && bytes_eqb a' b'
  | _, _ => false
  end.

Definition sour_volt (e : Event) : bool :=
  match e with
  | EvSend d => bytes_eqb (firstn 11 d) (encode ":sour:volt ")
  | _ => false
  end.

(** The events before the flag is first read as true. *)
Fixpoint before_stop (l : list Event) : list Event :=
  match l with
  | [] => []
  | EvStop true :: _ => []
  | e :: l' => e :: before_stop l'
  end.

(** The flag is first read as true, and the events after that. *)
Fixpoint from_stop (l : list Event) : list Event :=
  match l with
  | [] => []
  | EvStop true :: l' => EvStop true :: l'
  | _ :: l' => from_stop l'
  end.

(** The samples appended to [self.datapoints]. *)
Fixpoint appended (l : list Event) : list Sample :=
  match l with
  | [] => []
  | EvAppend s :: l' => s :: appended l'
  | _ :: l' => appended l'
  end.

Lemma before_from_stop l : l = before_stop l ++ from_stop l.
Proof.
  induction l as [|e l IH]; [reflexivity|].
  destruct e as [| [|] | | | | | |]; simpl; try rewrite <- IH; reflexivity.
Qed.

Lemma before_stop_no_stop l : ~ In (EvStop true) (before_stop l).
Proof.
  induction l as [|e l IH]; [auto|].
  destruct e as [| [|] | | | | | |]; simpl; intros H;
    try (destruct H as [H|H]; [discriminate | auto]).
  exact H.
Qed.

Lemma before_stop_app_clean l1 l2 :
  ~ In (EvStop true) l1 -> before_stop (l1 ++ l2) = l1 ++ before_stop l2.
Proof.
  induction l1 as [|e l1 IH]; intros H; [reflexivity|].
  simpl in H. destruct e as [| [|] | | | | | |]; simpl;
    try (rewrite IH; [reflexivity | tauto]).
  exfalso. apply H. left. reflexivity.
Qed.

Lemma from_stop_app_clean l1 l2 :
  ~ In (EvStop true) l1 -> from_stop (l1 ++ l2) = from_stop l2.
Proof.
  induction l1 as [|e l1 IH]; intros H; [reflexivity|].
  simpl in H. destruct e as [| [|] | | | | | |]; simpl;
    try (rewrite IH; [reflexivity | tauto]).
  exfalso. apply H. left. reflexivity.
Qed.

(** The part of a beginning that lies before the first true reading of the
    flag is the beginning of that part of the whole. *)
Lemma before_stop_prefix l l' :
  exists r, before_stop (l ++ l') = before_stop l ++ r.
Proof.
  induction l as [|e l [r IH]]; simpl.
  - eauto.
  - destruct e as [| [|] | | | | | |]; simpl; try rewrite IH; eauto.
Qed.

Lemma appended_app l1 l2 : appended (l1 ++ l2) = appended l1 ++ appended l2.
Proof.
  induction l1 as [|e l1 IH]; [reflexivity|].
  destruct e; simpl; rewrite IH; reflexivity.
Qed.

Lemma encode_app (a b : string) : encode (a ++ b)%string = encode a ++ encode b.
Proof.
  unfold encode, list_byte_of_string.
  induction a as [|c a IH]; [reflexivity|].
  cbn [append list_ascii_of_string map app]. rewrite IH. reflexivity.
Qed.

(** ** The complete histories, taken apart *)

Lemma occurrences_app e l1 l2 :
  occurrences e (l1 ++ l2) = (occurrences e l1 + occurrences e l2)%nat.
Proof. apply count_occ_app. Qed.

Lemma occurrences_absent e l : ~ In e l -> occurrences e l = 0%nat.
Proof. apply count_occ_not_In. Qed.

(** An event that occurs in neither part of a list around one occurrence
    cuts the list in one way only. *)
Lemma unique_cut (x : Event) p1 q1 p2 q2 :
  ~ In x p1 -> ~ In x q1 ->
  p1 ++ x :: q1 = p2 ++ x :: q2 -> p1 = p2 /\ q1 = q2.
Proof.
  revert p2. induction p1 as [|a p1 IH]; intros p2 Hp Hq H.
  - destruct p2 as [|b p2]; simpl in H.
    + inversion H. auto.
    + inversion H; subst. exfalso. apply Hq. apply in_elt.
  - destruct p2 as [|b p2]; simpl in H.
    + inversion H; subst. exfalso. apply Hp. left. reflexivity.
    + inversion H; subst. destruct (IH p2) as [-> ->]; auto.
      intros Hin. apply Hp. right. exact Hin.
Qed.

Lemma sour_volt_wire (s : string) :
  sour_volt (wire (":sour:volt " ++ s)) = true.
Proof. unfold wire. rewrite !encode_app. reflexivity. Qed.

(** A beginning that does not contain [x] ends before the first [x]. *)
Lemma before_first (x : Event) p q a b :
  ~ In x p -> p ++ q = a ++ x :: b -> exists m, a = p ++ m.
Proof.
  revert a. induction p as [|e p IH]; intros a Hp H.
  - exists a. reflexivity.
  - destruct a as [|e' a]; simpl in H.
    + inversion H; subst. exfalso. apply Hp. left. reflexivity.
    + inversion H; subst. destruct (IH a) as [m ->]; [|assumption|].
      * intros Hin. apply Hp. right. exact Hin.
      * exists m. reflexivity.
Qed.

Lemma from_stop_prefix l l' :
  exists r, from_stop (l ++ l') = from_stop l ++ r.
Proof.
  induction l as [|e l [r IH]]; simpl.
  - eauto.
  - destruct e as [| [|] | | | | | |]; simpl; eauto.
Qed.

Lemma appended_In s l : In s (appended l) <-> In (EvAppend s) l.
Proof.
  induction l as [|e l IH]; simpl; [tauto|].
  destruct e; simpl; rewrite IH; split; intros H;
    try (right; exact H); try (destruct H as [H|H]; [discriminate|exact H]).
  - destruct H as [->|H]; auto.
  - destruct H as [H|H]; [inversion H|]; auto.
Qed.

(** No event of a kind [f] in a list. *)
Definition none (f : Event -> bool) (l : list Event) : Prop :=
  Forall (fun e => f e = false) l.

Lemma none_absent f e l : none f l -> f e = true -> ~ In e l.
Proof.
  intros H He Hin. unfold none in H. rewrite Forall_forall in H.
  apply H in Hin. congruence.
Qed.

Lemma none_app f l1 l2 : none f l1 -> none f l2 -> none f (l1 ++ l2).
Proof. intros. apply Forall_app. auto. Qed.

Lemma none_flat_map A f (g : A -> list Event) l :
  (forall a, none f (g a)) -> none f (flat_map g l).
Proof.
  intros H. apply Forall_flat_map, Forall_forall. intros a _. apply H.
Qed.

(** A reading of the flag. *)
Definition is_stop (e : Event) : bool :=
  match e with EvStop _ => true | _ => false end.

(** A reading of the flag as true. *)
Definition is_stop_true (e : Event) : bool :=
  match e with EvStop true => true | _ => false end.

(** A binding of [self.datapoints]: to a new list or to an array. *)
Definition is_binding (e : Event) : bool :=
  match e with EvNewList | EvArray _ => true | _ => false end.

(** Any operation on [self.datapoints]. *)
Definition is_datapoints_event (e : Event) : bool :=
  match e with EvNewList | EvAppend _ | EvArray _ => true | _ => false end.

Definition is_append_or_sleep (e : Event) : bool :=
  match e with EvAppend _ | EvSleep _ => true | _ => false end.

Lemma filter_no_binding l :
  none is_binding l ->
  filter is_datapoints_event l = map EvAppend (appended l).
Proof.
  induction 1 as [|e l He _ IH]; [reflexivity|].
  destruct e; simpl in *; try discriminate; rewrite IH; reflexivity.
Qed.

Lemma replay_no_binding l smp :
  none is_binding l -> replay l (PyList smp) = PyList (smp ++ appended l).
Proof.
  intros H. revert smp. induction H as [|e l He _ IH]; intros smp.
  - simpl. rewrite app_nil_r. reflexivity.
  - destruct e; simpl in *; try discriminate; rewrite IH; try reflexivity.
    rewrite <- app_assoc. reflexivity.
Qed.

(** Every sample appended carries the clock reading made last before it
    ([cur] is the reading made last before the list begins). *)
Fixpoint stamped (cur : Q) (l : list Event) : Prop :=
  match l with
  | [] => True
  | EvTime t :: l' => stamped t l'
  | EvAppend s :: l' => timestamp s = cur /\ stamped cur l'
  | _ :: l' => stamped cur l'
  end.

(** The same for events that read the clock before they append. *)
Definition Stamped (l : list Event) : Prop := forall cur, stamped cur l.

Lemma stamped_app cur l1 l2 :
  stamped cur l1 -> Stamped l2 -> stamped cur (l1 ++ l2).
Proof.
  intros H1 H2. revert cur H1.
  induction l1 as [|e l1 IH]; intros cur H1; [apply H2|].
  destruct e; simpl in *; try (apply IH; exact H1).
  destruct H1 as [H H1]. split; [exact H | apply IH; exact H1].
Qed.

Lemma Stamped_app l1 l2 : Stamped l1 -> Stamped l2 -> Stamped (l1 ++ l2).
Proof. intros H1 H2 cur. apply stamped_app; [apply H1 | exact H2]. Qed.

Lemma Stamped_flat_map A (g : A -> list Event) l :
  (forall a, Stamped (g a)) -> Stamped (flat_map g l).
Proof.
  intros H. induction l as [|a l IH]; [intros cur; exact I|].
  cbn [flat_map]. apply Stamped_app; [apply H | exact IH].
Qed.

Lemma stamped_prefix cur l l' : stamped cur (l ++ l') -> stamped cur l.
Proof.
  revert cur. induction l as [|e l IH]; intros cur H; [exact I|].
  destruct e; simpl in *; try (apply IH; exact H).
  destruct H as [H H']. split; [exact H | apply IH; exact H'].
Qed.

(** Samples that carry the latest clock reading are in order when the
    clock readings are. *)
Lemma stamped_sorted l cur :
  stamped cur l ->
  StronglySorted Qle (cur :: readings l) ->
  StronglySorted Qle (map timestamp (appended l)) /\
  Forall (Qle cur) (map timestamp (appended l)).
Proof.
  revert cur. induction l as [|e l IH]; intros cur H S.
  - simpl. split; constructor.
  - destruct e; simpl in *; try (apply IH; assumption).
    + inversion S as [|? ? S' F]; subst.
      destruct (IH t H S') as [I1 I2]. split; [exact I1|].
      inversion F as [|? ? Hct _]; subst.
      eapply Forall_impl; [|exact I2]. intros q Hq.
      eapply Qle_trans; eassumption.
    + destruct H as [Hs H]. destruct (IH cur H S) as [I1 I2].
      rewrite Hs. split; constructor; auto. apply Qle_refl.
Qed.

Lemma ascending_lower lo hi ks :
  ascending lo hi ks -> Forall (fun k => (lo <= k)%nat) ks.
Proof.
  revert lo. induction ks as [|k ks IH]; intros lo H; [constructor|].
  destruct H as [H1 H2]. constructor; [exact H1|].
  apply IH in H2. eapply Forall_impl; [|exact H2]. intros; simpl in *; lia.
Qed.

(** Readings of a clock that does not go back, at increasing operation
    numbers, are in order. *)
Lemma ascending_sorted (E : Env) lo hi ks :
  (forall i j, (i <= j)%nat -> clock E i <= clock E j) ->
  ascending lo hi ks -> StronglySorted Qle (map (clock E) ks).
Proof.
  intros M. revert lo. induction ks as [|k ks IH]; intros lo H.
  - constructor.
  - destruct H as [H1 H2]. simpl. constructor; [eapply IH; exact H2|].
    apply ascending_lower in H2. apply Forall_map.
    eapply Forall_impl; [|exact H2]. intros j Hj. apply M. simpl in Hj. lia.
Qed.

Section Grammar.

Variable Volt : Type.
Variable format_volt : Volt -> string.
Variable turn_on_time : Q.
Variable turn_on_voltage : Volt.
Variable turn_off_time_meas : Q.
Variable turn_off_voltage : Volt.
Variable meas_interval : Q.

Local Abbreviation on_command :=
  (switch_on_command format_volt turn_on_voltage).
Local Abbreviation off_command :=
  (switch_off_command format_volt turn_off_voltage).
Local Abbreviation sampling :=
  (sampling_events format_volt turn_on_time turn_on_voltage meas_interval).

(** A pass through the first loop in which the voltage is not switched. *)
Definition quiet_iteration (it : Iteration) : list Event :=
  EvStop false :: EvTime (it_time it) :: sample_events meas_interval it.

(** The body of the first loop up to the reading of the flag that ends
    it: passes before the switch-on time, then possibly the pass that
    switches the voltage on, followed by further passes. *)
Inductive Body (t0 : Q) : list Event -> Prop :=
| Body_quiet its :
    Forall (fun it => it_time it - t0 < turn_on_time) its ->
    Body t0 (flat_map quiet_iteration its)
| Body_fired its1 it its2 :
    Forall (fun it => it_time it - t0 < turn_on_time) its1 ->
    turn_on_time <= it_time it - t0 ->
    Body t0 (flat_map quiet_iteration its1
               ++ EvStop false :: EvTime (it_time it)
               :: wire on_command :: beep_up_events
               ++ sample_events meas_interval it
               ++ flat_map quiet_iteration its2).

Lemma sampling_events_switched t0 its :
  sampling t0 true its = flat_map quiet_iteration its ++ [EvStop true].
Proof.
  induction its as [|it its IH]; [reflexivity|].
  cbn [sampling_events flat_map orb]. rewrite IH.
  unfold iteration_events, quiet_iteration, fires. simpl.
  rewrite <- ?app_assoc. reflexivity.
Qed.

Lemma sampling_events_body t0 its :
  exists body, sampling t0 false its = body ++ [EvStop true] /\
               Body t0 body.
Proof.
  induction its as [|it its [body [IH B]]].
  - exists []. split; [reflexivity|]. apply (@Body_quiet t0 []). constructor.
  - cbn [sampling_events]. unfold iteration_events. cbn [orb].
    destruct (fires turn_on_time t0 false it) eqn:F.
    + rewrite sampling_events_switched.
      eexists. split.
      2:{ apply (@Body_fired t0 [] it its); [constructor|].
          unfold fires in F. simpl in F. apply Qle_bool_iff. exact F. }
      simpl. rewrite <- ?app_assoc. reflexivity.
    + rewrite IH. unfold fires in F. simpl in F.
      assert (T : it_time it - t0 < turn_on_time).
      { apply Qnot_le_lt. intros C. apply Qle_bool_iff in C. congruence. }
      destruct B as [its' H | its1 it' its2 H1 H2].
      * exists (flat_map quiet_iteration (it :: its')). split.
        -- simpl. rewrite <- ?app_assoc. reflexivity.
        -- apply Body_quiet. constructor; assumption.
      * eexists. split.
        2:{ apply (@Body_fired t0 (it :: its1) it' its2); [|exact H2].
            constructor; assumption. }
        simpl. rewrite <- ?app_assoc. reflexivity.
Qed.

Lemma sour_volt_quiet it : none sour_volt (quiet_iteration it).
Proof. repeat constructor. Qed.

Lemma stop_true_quiet it : none is_stop_true (quiet_iteration it).
Proof. repeat constructor. Qed.

Lemma Body_no_stop_true t0 body : Body t0 body -> none is_stop_true body.
Proof.
  intros [its H | its1 it its2 H1 H2].
  - apply none_flat_map, stop_true_quiet.
  - apply none_app; [apply none_flat_map, stop_true_quiet|].
    repeat (apply Forall_cons; [reflexivity|]).
    apply none_flat_map, stop_true_quiet.
Qed.

(** What follows the switch-off command in a complete history. *)
Definition after_switch_off (tg1 : Q) (pits : list Iteration)
  (rows : list Row) : list Event :=
  beep_dn_events
    ++ EvTime tg1 :: flat_map (post_iteration_events meas_interval) pits
    ++ [EvArray rows].

Lemma sour_volt_after tg1 pits rows :
  none sour_volt (after_switch_off tg1 pits rows).
Proof.
  unfold after_switch_off. apply none_app; [repeat constructor|].
  apply Forall_cons; [reflexivity|].
  apply none_app; [|repeat constructor].
  apply none_flat_map. intros it. repeat constructor.
Qed.

Lemma stop_after tg1 pits rows :
  none is_stop (after_switch_off tg1 pits rows).
Proof.
  unfold after_switch_off. apply none_app; [repeat constructor|].
  apply Forall_cons; [reflexivity|].
  apply none_app; [|repeat constructor].
  apply none_flat_map. intros it. repeat constructor.
Qed.

(** Every complete history is: the first reading of the clock, the new
    list, the body of the first loop, the reading of the flag as true,
    the switch-off command and what follows it. *)
Lemma complete_cut rows l :
  Complete format_volt turn_on_time turn_on_voltage turn_off_time_meas
    turn_off_voltage meas_interval rows l ->
  exists t0 body tg1 pits,
    l = EvTime t0 :: EvNewList :: body
          ++ EvStop true :: wire off_command
          :: after_switch_off tg1 pits rows /\
    Body t0 body /\
    post_off_tests turn_off_time_meas t0 (tg1 - t0) (tg1 - t0) pits.
Proof.
  intros (t0 & its & tg1 & pits & -> & T).
  destruct (sampling_events_body t0 its) as [body [HS HB]].
  exists t0, body, tg1, pits. split; [|split; assumption].
  unfold run_events. rewrite HS. rewrite <- app_assoc. reflexivity.
Qed.

Lemma appended_quiet its :
  appended (flat_map quiet_iteration its) = map it_sample its.
Proof.
  induction its as [|it its IH]; [reflexivity|].
  cbn [flat_map]. rewrite appended_app, IH. reflexivity.
Qed.

Lemma early_samples t0 its s :
  Forall (fun it => it_time it - t0 < turn_on_time) its ->
  In (EvAppend s) (flat_map quiet_iteration its) ->
  timestamp s - t0 < turn_on_time.
Proof.
  intros H Hin. apply appended_In in Hin. rewrite appended_quiet in Hin.
  apply in_map_iff in Hin. destruct Hin as [it [<- Hit]].
  rewrite Forall_forall in H. apply (H it Hit).
Qed.

(** The body of the first loop either holds no [":sour:volt"] command and
    only samples taken before the switch-on time, or is cut by the
    switch-on command in the way [run_measurement] is written: before
    it, quiet passes with early samples and then the reading of the flag
    and of the clock; after it, the beeps and the measurement of the
    same pass. *)
Lemma Body_cut t0 body :
  Body t0 body ->
  (none sour_volt body /\
   forall s, In (EvAppend s) body -> timestamp s - t0 < turn_on_time) \/
  (exists pre tg c v post,
      body = (pre ++ [EvStop false; EvTime tg])
               ++ wire on_command
               :: beep_up_events ++ measure_events c v
               ++ EvAppend (tg, c, v) :: post /\
      none sour_volt pre /\ none sour_volt post /\
      turn_on_time <= tg - t0 /\
      forall s, In (EvAppend s) pre -> timestamp s - t0 < turn_on_time).
Proof.
  intros [its H | its1 it its2 H1 H2].
  - left. split; [apply none_flat_map, sour_volt_quiet|].
    intros s. apply early_samples. exact H.
  - right.
    exists (flat_map quiet_iteration its1), (it_time it), (it_current it),
      (it_voltage it),
      (EvSleep meas_interval :: flat_map quiet_iteration its2).
    split; [|split; [|split; [|split]]].
    + rewrite <- app_assoc. reflexivity.
    + apply none_flat_map, sour_volt_quiet.
    + apply Forall_cons; [reflexivity|]. apply none_flat_map, sour_volt_quiet.
    + exact H2.
    + intros s. apply early_samples. exact H1.
Qed.

Lemma last_cons (A : Type) (a d : A) l : last (a :: l) d = last l a.
Proof.
  revert a d. induction l as [|b l IH]; intros a d; [reflexivity|].
  change (last (a :: b :: l) d) with (last (b :: l) d).
  rewrite (IH b d), (IH b a). reflexivity.
Qed.

Lemma readings_post pits rows :
  readings (flat_map (post_iteration_events meas_interval) pits
              ++ [EvArray rows]) = map it_time pits.
Proof.
  induction pits as [|it pits IH]; [reflexivity|].
  cbn [flat_map map]. rewrite <- app_assoc, readings_app, IH. reflexivity.
Qed.

(** The second loop ends on a clock reading that is at least
    [turn_off_time_meas] after the reference time. *)
Lemma post_off_tests_last t0 t1 tg pits :
  post_off_tests turn_off_time_meas t0 t1 (tg - t0) pits ->
  t1 + turn_off_time_meas <= last (map it_time pits) tg - t0.
Proof.
  revert tg. induction pits as [|it pits IH]; intros tg H; simpl in H.
  - unfold Qltb in H. apply negb_false_iff, Qle_bool_iff in H. exact H.
  - destruct H as [_ H]. apply IH in H. cbn [map]. rewrite last_cons.
    exact H.
Qed.

(** One pass of a loop as seen on [self.datapoints] and the clock: one
    sample appended, then the sleep that ends the pass. *)
Definition pass (s : Sample) : list Event :=
  [EvAppend s; EvSleep meas_interval].

(** Events without a binding of [self.datapoints], in which appends and
    sleeps alternate. *)
Definition Tidy (l : list Event) : Prop :=
  none is_binding l /\
  filter is_append_or_sleep l = flat_map pass (appended l).

Lemma Tidy_app l1 l2 : Tidy l1 -> Tidy l2 -> Tidy (l1 ++ l2).
Proof.
  intros [N1 F1] [N2 F2]. split; [apply none_app; assumption|].
  rewrite filter_app, appended_app, flat_map_app, F1, F2. reflexivity.
Qed.

Lemma Tidy_flat_map A (g : A -> list Event) l :
  (forall a, Tidy (g a)) -> Tidy (flat_map g l).
Proof.
  intros H. induction l as [|a l IH].
  - split; [constructor | reflexivity].
  - cbn [flat_map]. apply Tidy_app; [apply H | exact IH].
Qed.

Lemma Tidy_quiet it : Tidy (quiet_iteration it).
Proof. split; [repeat constructor | reflexivity]. Qed.

Lemma Tidy_post it : Tidy (post_iteration_events meas_interval it).
Proof. split; [repeat constructor | reflexivity]. Qed.

Lemma Tidy_body t0 body : Body t0 body -> Tidy body.
Proof.
  intros [its H | its1 it its2 H1 H2].
  - apply Tidy_flat_map, Tidy_quiet.
  - apply Tidy_app; [apply Tidy_flat_map, Tidy_quiet|].
    change (Tidy ((EvStop false :: EvTime (it_time it)
                     :: wire on_command :: beep_up_events
                     ++ sample_events meas_interval it)
                    ++ flat_map quiet_iteration its2)).
    apply Tidy_app; [|apply Tidy_flat_map, Tidy_quiet].
    split; [repeat constructor | reflexivity].
Qed.

(** A complete history between the new list and the conversion. *)
Lemma Tidy_middle t0 body tg1 pits :
  Body t0 body ->
  Tidy (body ++ EvStop true :: wire off_command
          :: beep_dn_events ++ EvTime tg1
          :: flat_map (post_iteration_events meas_interval) pits).
Proof.
  intros B. apply Tidy_app; [eapply Tidy_body; exact B|].
  change (Tidy ((EvStop true :: wire off_command
                   :: beep_dn_events ++ [EvTime tg1])
                  ++ flat_map (post_iteration_events meas_interval) pits)).
  apply Tidy_app; [|apply Tidy_flat_map, Tidy_post].
  split; [repeat constructor | reflexivity].
Qed.

Lemma Stamped_body t0 body : Body t0 body -> Stamped body.
Proof.
  intros [its H | its1 it its2 H1 H2].
  - apply Stamped_flat_map. intros it cur. simpl. auto.
  - apply Stamped_app; [apply Stamped_flat_map; intros x cur; simpl; auto|].
    change (Stamped ((EvStop false :: EvTime (it_time it)
                        :: wire on_command :: beep_up_events
                        ++ sample_events meas_interval it)
                       ++ flat_map quiet_iteration its2)).
    apply Stamped_app; [intros cur; simpl; auto|].
    apply Stamped_flat_map. intros x cur. simpl. auto.
Qed.

Lemma Stamped_after tg1 pits rows :
  Stamped (after_switch_off tg1 pits rows).
Proof.
  unfold after_switch_off.
  change (Stamped ((beep_dn_events ++ [EvTime tg1])
                     ++ flat_map (post_iteration_events meas_interval) pits
                     ++ [EvArray rows])).
  apply Stamped_app; [intros cur; simpl; auto|].
  apply Stamped_app; [|intros cur; simpl; auto].
  apply Stamped_flat_map. intros x cur. simpl. auto.
Qed.

(** A sleep of the length [meas_interval], or another event. *)
Definition of_interval (e : Event) : Prop :=
  match e with EvSleep d => d = meas_interval | _ => True end.

Lemma of_interval_body t0 body : Body t0 body -> Forall of_interval body.
Proof.
  assert (Q : forall its, Forall of_interval (flat_map quiet_iteration its)).
  { intros its. apply Forall_flat_map, Forall_forall. intros it _.
    repeat constructor. }
  intros [its H | its1 it its2 H1 H2]; [apply Q|].
  apply Forall_app. split; [apply Q|].
  repeat (apply Forall_cons; [exact I|]).
  apply Forall_cons; [reflexivity|]. apply Q.
Qed.

Lemma of_interval_after tg1 pits rows :
  Forall of_interval (after_switch_off tg1 pits rows).
Proof.
  unfold after_switch_off. apply Forall_app. split; [repeat constructor|].
  apply Forall_cons; [exact I|]. apply Forall_app.
  split; [|repeat constructor].
  apply Forall_flat_map, Forall_forall. intros it _. repeat constructor.
Qed.

End Grammar.

(** ** Where exceptions come from

    [Fails m X]: whenever [m] raises [e], the exception, the world it
    leaves and the events added so far are related by [X]. *)

Definition Fails {A} (m : M A) (X : PyExn -> World -> list Event -> Prop)
  : Prop :=
  forall w e,
    fst (m w) = Raise e ->
    exists l, log (snd (m w)) = log w ++ l /\ X e (snd (m w)) l.

Lemma Fails_never A (m : M A) X :
  (forall w e, fst (m w) <> Raise e) -> Fails m X.
Proof. intros H w e He. exfalso. exact (H w e He). Qed.

Lemma Fails_conseq A (m : M A) (X X' : PyExn -> World -> list Event -> Prop) :
  Fails m X -> (forall e w l, X e w l -> X' e w l) -> Fails m X'.
Proof.
  intros H HX w e He. destruct (H w e He) as [l [L R]]. eauto.
Qed.

Lemma Fails_bind A B (m : M A) (f : A -> M B) S1 X1 X2
  (X : PyExn -> World -> list Event -> Prop) :
  Fails m X1 -> Shape m S1 -> (forall a, Fails (f a) (X2 a)) ->
  (forall e w l, X1 e w l -> X e w l) ->
  (forall a e w l1 l2, S1 a l1 -> X2 a e w l2 -> X e w (l1 ++ l2)) ->
  Fails (bind m f) X.
Proof.
  intros Hm [Sm _] Hf H1 H2 w e. unfold bind.
  specialize (Hm w). specialize (Sm w).
  destruct (m w) as [[a|e'|] w1]; simpl in *.
  - intros He. destruct Sm as [l1 [L1 R1]].
    destruct (Hf a w1 e He) as [l2 [L2 R2]].
    exists (l1 ++ l2). split; [rewrite L2, L1, app_assoc; reflexivity|].
    eapply H2; eassumption.
  - intros [= <-]. destruct (Hm e' eq_refl) as [l [L R]]. eauto.
  - discriminate.
Qed.

Lemma Fails_if A (b : bool) (m1 m2 : M A) X :
  Fails m1 X -> Fails m2 X -> Fails (if b then m1 else m2) X.
Proof. destruct b; auto. Qed.

Lemma Fails_pair A B C (cv : A * B) (k : A -> B -> M C) X :
  Fails (k (fst cv) (snd cv)) X ->
  Fails (match cv with (c, v) => k c v end) X.
Proof. destruct cv. auto. Qed.

(** The only exception of the link is [OSError]. *)
Definition link_failure (e : PyExn) (w : World) (l : list Event) : Prop :=
  e = OSError.

(** A step of a method that can only fail on the link. *)
Ltac link_bind F S :=
  eapply Fails_bind with (X2 := fun _ => link_failure);
  [ apply F | apply S | intros ? | auto | intros ? ? ? ? ? _ H; exact H ].

Section Failures.

Variable E : Env.

Lemma Fails_time_time X : Fails (time_time E) X.
Proof. apply Fails_never. discriminate. Qed.

Lemma Fails_get_stoptrigger X : Fails (get_stoptrigger E) X.
Proof. apply Fails_never. discriminate. Qed.

Lemma Fails_datapoints_new X : Fails (datapoints_new E) X.
Proof. apply Fails_never. discriminate. Qed.

Lemma Fails_ret A (a : A) X : Fails (ret a) X.
Proof. apply Fails_never. discriminate. Qed.

Lemma Fails_out_of_fuel A X : Fails (@out_of_fuel A) X.
Proof. apply Fails_never. discriminate. Qed.

Lemma Fails_time_sleep secs :
  Fails (time_sleep E secs)
        (fun e _ l => e = ValueError /\ l = [] /\ secs < 0).
Proof.
  intros w e. unfold time_sleep, Qltb.
  destruct (Qle_bool 0 secs) eqn:Q; simpl; [discriminate|].
  intros [= <-]. exists []. rewrite app_nil_r.
  split; [reflexivity|]. split; [reflexivity|]. split; [reflexivity|].
  apply Qnot_le_lt. intros C. apply Qle_bool_iff in C. congruence.
Qed.

Lemma Fails_socket_sendall data :
  Fails (socket_sendall E data) link_failure.
Proof.
  intros w e. unfold socket_sendall.
  destruct (link_down E (tick w)); simpl; [|discriminate].
  intros [= <-]. exists []. rewrite app_nil_r. split; reflexivity.
Qed.

Lemma Fails_socket_recv bufsize :
  Fails (socket_recv E bufsize) link_failure.
Proof.
  intros w e. unfold socket_recv.
  destruct (link_down E (tick w)); simpl; [|discriminate].
  intros [= <-]. exists []. rewrite app_nil_r. split; reflexivity.
Qed.

Lemma Fails_datapoints_append s :
  Fails (datapoints_append E s)
        (fun e w' l =>
           e = AttributeError /\ l = [] /\
           exists rows, datapoints w' = NdArray rows).
Proof.
  intros w e. unfold datapoints_append.
  destruct (datapoints w) as [smp|rows] eqn:D; simpl; [discriminate|].
  intros [= <-]. exists []. rewrite app_nil_r.
  split; [reflexivity|]. split; [reflexivity|]. split; [reflexivity|].
  exists rows. exact D.
Qed.

Lemma Fails_datapoints_to_array fob :
  Fails (datapoints_to_array E fob)
        (fun e w' l =>
           e = ValueError /\ l = [] /\
           exists smp, datapoints w' = PyList smp /\
                       rows_of_samples fob smp = None).
Proof.
  intros w e. unfold datapoints_to_array.
  destruct (datapoints w) as [smp|rows] eqn:D; simpl; [|discriminate].
  destruct (rows_of_samples fob smp) eqn:R; simpl; [discriminate|].
  intros [= <-]. exists []. rewrite app_nil_r.
  split; [reflexivity|]. split; [reflexivity|]. split; [reflexivity|].
  exists smp. auto.
Qed.

Lemma Fails_write command : Fails (write E command) link_failure.
Proof. apply Fails_socket_sendall. Qed.

Lemma Fails_query command n : Fails (query E command n) link_failure.
Proof.
  unfold query. link_bind Fails_write Shape_write.
  link_bind Fails_socket_recv Shape_socket_recv. apply Fails_ret.
Qed.

Lemma Fails_beep_up : Fails (beep_up E) link_failure.
Proof.
  unfold beep_up. do 4 link_bind Fails_write Shape_write.
  apply Fails_write.
Qed.

Lemma Fails_beep_dn : Fails (beep_dn E) link_failure.
Proof.
  unfold beep_dn. do 4 link_bind Fails_write Shape_write.
  apply Fails_write.
Qed.

Lemma Fails_measure : Fails (measure E) link_failure.
Proof.
  unfold measure. link_bind Fails_query Shape_query.
  link_bind Fails_query Shape_query. apply Fails_ret.
Qed.

End Failures.

Section RunFailures.

Variable E : Env.
Variable Volt : Type.
Variable format_volt : Volt -> string.
Variable float_of_bytes : bytes -> option Q.
Variable turn_on_time : Q.
Variable turn_on_voltage : Volt.
Variable turn_off_time_meas : Q.
Variable turn_off_voltage : Volt.
Variable meas_interval : Q.

(** How a loop of [run_measurement] can fail: on the link; at
    [time.sleep], which refuses a negative [meas_interval] right after
    the measurement of a pass has been appended; at [append], after the
    measurement of a pass, if [self.datapoints] were an array. *)
Definition Failure (e : PyExn) (w' : World) (l : list Event) : Prop :=
  e = OSError \/
  (e = ValueError /\ meas_interval < 0 /\
   exists pre c v s, l = pre ++ measure_events c v ++ [EvAppend s]) \/
  (e = AttributeError /\ (exists rows, datapoints w' = NdArray rows) /\
   exists pre c v, l = pre ++ measure_events c v).

Lemma Failure_prefix e w' l0 l : Failure e w' l -> Failure e w' (l0 ++ l).
Proof.
  intros [H | [(H1 & H2 & pre & c & v & s & ->)
              | (H1 & H2 & pre & c & v & ->)]].
  - left. exact H.
  - right. left. split; [exact H1|]. split; [exact H2|].
    exists (l0 ++ pre), c, v, s. rewrite app_assoc. reflexivity.
  - right. right. split; [exact H1|]. split; [exact H2|].
    exists (l0 ++ pre), c, v. rewrite app_assoc. reflexivity.
Qed.

(** The end of a pass of either loop: measure, append, sleep, go on. *)
Lemma Fails_pass A (K : M A) t_global :
  Fails K Failure ->
  Fails (bind (measure E)
           (fun cv =>
              match cv with
              | (current, voltage) =>
                  bind (datapoints_append E (t_global, current, voltage))
                    (fun _ => bind (time_sleep E meas_interval)
                                (fun _ => K))
              end))
        Failure.
Proof.
  intros HK.
  eapply Fails_bind with
    (X2 := fun (cv : bytes * bytes) e w l =>
             (e = AttributeError /\ l = [] /\
              exists rows, datapoints w = NdArray rows) \/
             (e = ValueError /\ meas_interval < 0 /\
              exists s, l = [EvAppend s]) \/
             Failure e w l).
  - apply Fails_measure.
  - apply Shape_measure.
  - intros cv. apply Fails_pair.
    eapply Fails_bind with
      (X2 := fun (_ : unit) e w l =>
               (e = ValueError /\ l = [] /\ meas_interval < 0) \/
               Failure e w l).
    + apply Fails_datapoints_append.
    + apply Shape_datapoints_append.
    + intros _. eapply Fails_bind with (X2 := fun _ => Failure).
      * apply Fails_time_sleep.
      * apply Shape_time_sleep.
      * intros _. exact HK.
      * intros e w l H. left. exact H.
      * intros a e w l1 l2 _ H. right. apply Failure_prefix. exact H.
    + intros e w l H. left. exact H.
    + intros a e w l1 l2 -> [(-> & -> & H) | H].
      * right. left. split; [reflexivity|]. split; [exact H|].
        eexists. reflexivity.
      * right. right. apply Failure_prefix. exact H.
  - intros e w l H. left. exact H.
  - intros cv e w l1 l2 -> [(-> & -> & H) | [(-> & H & s & ->) | H]].
    + right. right. split; [reflexivity|]. split; [exact H|].
      exists [], (fst cv), (snd cv). rewrite app_nil_r. reflexivity.
    + right. left. split; [reflexivity|]. split; [exact H|].
      exists [], (fst cv), (snd cv), s. reflexivity.
    + apply Failure_prefix. exact H.
Qed.

Lemma Fails_sampling_loop fuel t0 switched :
  Fails (sampling_loop E format_volt turn_on_time turn_on_voltage
           meas_interval fuel t0 switched)
        Failure.
Proof.
  revert switched. induction fuel as [|fuel IH]; intros switched.
  - apply Fails_out_of_fuel.
  - cbn [sampling_loop].
    eapply Fails_bind with (X2 := fun _ => Failure);
      [ apply Fails_get_stoptrigger with (X := Failure)
      | apply Shape_get_stoptrigger | intros stop | auto
      | intros ? ? ? ? ? _ H; apply Failure_prefix; exact H ].
    apply Fails_if; [apply Fails_ret|].
    eapply Fails_bind with (X2 := fun _ => Failure);
      [ apply Fails_time_time with (X := Failure)
      | apply Shape_time_time | intros t_global | auto
      | intros ? ? ? ? ? _ H; apply Failure_prefix; exact H ].
    eapply Fails_bind with (X1 := link_failure) (X2 := fun _ => Failure).
    + apply Fails_if; [|apply Fails_ret].
      link_bind Fails_write Shape_write.
      link_bind Fails_beep_up Shape_beep_up. apply Fails_ret.
    + eapply Shape_if; [|apply Shape_ret].
      eapply Shape_bind; [apply Shape_write | intros ?].
      eapply Shape_bind; [apply Shape_beep_up | intros ?].
      apply Shape_ret.
    + intros switched'. apply Fails_pass. apply IH.
    + intros e w l H. left. exact H.
    + intros ? ? ? ? ? _ H. apply Failure_prefix. exact H.
Qed.

Lemma Fails_post_off_loop fuel t0 t1 t :
  Fails (post_off_loop E turn_off_time_meas meas_interval fuel t0 t1 t)
        Failure.
Proof.
  revert t. induction fuel as [|fuel IH]; intros t.
  - apply Fails_out_of_fuel.
  - cbn [post_off_loop]. apply Fails_if; [|apply Fails_ret].
    eapply Fails_bind with (X2 := fun _ => Failure);
      [ apply Fails_time_time with (X := Failure)
      | apply Shape_time_time | intros t_global | auto
      | intros ? ? ? ? ? _ H; apply Failure_prefix; exact H ].
    apply Fails_pass. apply IH.
Qed.

(** The conversion of the list to an array fails. *)
Definition conversion_fails (e : PyExn) (w' : World) : Prop :=
  e = ValueError /\
  exists smp, datapoints w' = PyList smp /\
              rows_of_samples float_of_bytes smp = None.

(** How [run_measurement] can fail: as its loops do, or at the
    conversion, which comes after the switch-off command. *)
Definition RunFailure (e : PyExn) (w' : World) (l : list Event) : Prop :=
  Failure e w' l \/
  (conversion_fails e w' /\
   In (wire (switch_off_command format_volt turn_off_voltage)) l).

Lemma RunFailure_prefix e w' l0 l :
  RunFailure e w' l -> RunFailure e w' (l0 ++ l).
Proof.
  intros [H | [H I]].
  - left. apply Failure_prefix. exact H.
  - right. split; [exact H|]. apply in_or_app. right. exact I.
Qed.

Lemma Fails_run_measurement fuel :
  Fails (run_measurement E format_volt float_of_bytes turn_on_time
           turn_on_voltage turn_off_time_meas turn_off_voltage
           meas_interval fuel)
        RunFailure.
Proof.
  unfold run_measurement.
  eapply Fails_bind with (X2 := fun _ => RunFailure);
    [ apply Fails_time_time with (X := RunFailure)
    | apply Shape_time_time | intros t0 | auto
    | intros ? ? ? ? ? _ H; apply RunFailure_prefix; exact H ].
  eapply Fails_bind with (X2 := fun _ => RunFailure);
    [ apply Fails_datapoints_new with (X := RunFailure)
    | apply Shape_datapoints_new | intros ? | auto
    | intros ? ? ? ? ? _ H; apply RunFailure_prefix; exact H ].
  eapply Fails_bind with (X2 := fun _ => RunFailure);
    [ apply Fails_sampling_loop
    | apply Shape_sampling_loop | intros ?
    | intros ? ? ? H; left; exact H
    | intros ? ? ? ? ? _ H; apply RunFailure_prefix; exact H ].
  eapply Fails_bind with
    (X2 := fun (_ : unit) e w l => Failure e w l \/ conversion_fails e w).
  - apply Fails_write.
  - apply Shape_write.
  - intros _.
    eapply Fails_bind with
      (X2 := fun (_ : unit) e w l => Failure e w l \/ conversion_fails e w);
      [ apply Fails_beep_dn | apply Shape_beep_dn | intros _
      | intros ? ? ? H; left; left; exact H
      | intros ? ? ? ? ? _ [H | H];
        [left; apply Failure_prefix; exact H | right; exact H] ].
    eapply Fails_bind with
      (X2 := fun (_ : Q) e w l => Failure e w l \/ conversion_fails e w);
      [ apply Fails_time_time with (X := Failure)
      | apply Shape_time_time | intros t_global
      | intros ? ? ? H; left; exact H
      | intros ? ? ? ? ? _ [H | H];
        [left; apply Failure_prefix; exact H | right; exact H] ].
    eapply Fails_bind with
      (X2 := fun (_ : unit) e w (l : list Event) => conversion_fails e w);
      [ apply Fails_post_off_loop | apply Shape_post_off_loop | intros _
      | intros ? ? ? H; left; exact H
      | intros ? ? ? ? ? _ H; right; exact H ].
    eapply Fails_conseq; [apply Fails_datapoints_to_array|].
    intros e w l (H1 & _ & H2). split; assumption.
  - intros e w l H. left. left. exact H.
  - intros ? e w l1 l2 -> [H | H].
    + left. apply Failure_prefix. exact H.
    + right. split; [exact H|]. left. reflexivity.
Qed.

End RunFailures.

(** ** The Command Link *)

Section Link.

Variable E : Env.


End Link.

(** ** The acquisition loop *)

Section Claims.

Variable E : Env.
Variable Volt : Type.
Variable format_volt : Volt -> string.
Variable float_of_bytes : bytes -> option Q.
Variable turn_on_time : Q.
Variable turn_on_voltage : Volt.
Variable turn_off_time_meas : Q.
Variable turn_off_voltage : Volt.
Variable meas_interval : Q.

Let run := run_measurement E format_volt float_of_bytes turn_on_time
             turn_on_voltage turn_off_time_meas turn_off_voltage
             meas_interval.
Let on_command := switch_on_command format_volt turn_on_voltage.
Let off_command := switch_off_command format_volt turn_off_voltage.
Let Whole := Complete format_volt turn_on_time turn_on_voltage
               turn_off_time_meas turn_off_voltage meas_interval.

(** The history of any run is the beginning of a complete history, and
    is one when the call returns. *)
Lemma run_history fuel w :
  match fst (run fuel w) with
  | Ret rows => Whole rows (trace_since w (snd (run fuel w)))
  | _ => exists rows l', Whole rows (trace_since w (snd (run fuel w)) ++ l')
  end.
Proof.
  destruct (Shape_run_measurement E format_volt float_of_bytes turn_on_time
              turn_on_voltage turn_off_time_meas turn_off_voltage
              meas_interval fuel) as [H _].
  destruct (H w) as [l [L R]]. fold run in L, R.
  rewrite (trace_since_app _ _ _ L). exact R.
Qed.

Lemma run_step fuel w : Step E float_of_bytes w (snd (run fuel w)).
Proof. apply Steps_run_measurement. Qed.

(** Every run begins by reading the clock and binding the new list. *)
Lemma run_starts fuel w :
  exists l,
    trace_since w (snd (run fuel w)) =
    EvTime (clock E (tick w)) :: EvNewList :: l.
Proof.
  set (t0 := clock E (tick w)).
  set (w2 := snd (datapoints_new E (snd (time_time E w)))).
  set (rest :=
         bind (sampling_loop E format_volt turn_on_time turn_on_voltage
                 meas_interval fuel t0 false)
           (fun _ =>
              bind (write E off_command)
                (fun _ =>
                   bind (beep_dn E)
                     (fun _ =>
                        bind (time_time E)
                          (fun t_global =>
                             bind (post_off_loop E turn_off_time_meas
                                     meas_interval fuel t0
                                     (t_global - t0) (t_global - t0))
                               (fun _ =>
                                  datapoints_to_array E float_of_bytes)))))).
  assert (R : run fuel w = rest w2) by reflexivity.
  assert (S : Steps E float_of_bytes rest).
  { unfold rest.
    apply Steps_bind; [apply Steps_sampling_loop | intros _].
    apply Steps_bind; [apply Steps_write | intros _].
    apply Steps_bind; [apply Steps_beep_dn | intros _].
    apply Steps_bind; [apply Steps_time_time | intros t_global].
    apply Steps_bind; [apply Steps_post_off_loop | intros _].
    apply Steps_datapoints_to_array. }
  destruct (S w2) as [_ _ (l & ks & L & _)].
  exists l. rewrite R. apply trace_since_app. rewrite L.
  unfold w2. simpl. rewrite <- !app_assoc. reflexivity.
Qed.

(** The history of any run, completed if the run was cut short, taken
    apart. *)
Lemma run_cut fuel w :
  exists rows body tg1 pits l',
    trace_since w (snd (run fuel w)) ++ l' =
      EvTime (clock E (tick w)) :: EvNewList :: body
        ++ EvStop true :: wire off_command
        :: after_switch_off meas_interval tg1 pits rows /\
    Body format_volt turn_on_time turn_on_voltage meas_interval
      (clock E (tick w)) body /\
    post_off_tests turn_off_time_meas (clock E (tick w))
      (tg1 - clock E (tick w)) (tg1 - clock E (tick w)) pits /\
    (forall rows', fst (run fuel w) = Ret rows' -> l' = [] /\ rows' = rows).
Proof.
  pose proof (run_history fuel w) as H.
  destruct (run_starts fuel w) as [l0 L0].
  assert (C : exists rows l',
             Whole rows (trace_since w (snd (run fuel w)) ++ l') /\
             (forall rows', fst (run fuel w) = Ret rows' ->
                            l' = [] /\ rows' = rows)).
  { destruct (fst (run fuel w)) as [rows|e|].
    - exists rows, []. rewrite app_nil_r. split; [exact H|].
      intros rows' [= <-]. auto.
    - destruct H as (rows & l' & H). exists rows, l'. split; [exact H|].
      discriminate.
    - destruct H as (rows & l' & H). exists rows, l'. split; [exact H|].
      discriminate. }
  destruct C as (rows & l' & C & R).
  apply complete_cut in C. destruct C as (t0 & body & tg1 & pits & C & B & T).
  rewrite L0 in C. simpl in C. injection C as C0 C. subst t0.
  exists rows, body, tg1, pits, l'. rewrite L0. simpl. rewrite C.
  split; [reflexivity|]. split; [exact B|]. split; [exact T | exact R].
Qed.

(** The part of a run before the flag is read as true is the beginning
    of: the first reading of the clock, the new list, a body. *)
Lemma run_before_stop fuel w :
  exists body r,
    EvTime (clock E (tick w)) :: EvNewList :: body =
      before_stop (trace_since w (snd (run fuel w))) ++ r /\
    Body format_volt turn_on_time turn_on_voltage meas_interval
      (clock E (tick w)) body /\
    (forall rows, fst (run fuel w) = Ret rows -> r = []).
Proof.
  destruct (run_cut fuel w) as (rows & body & tg1 & pits & l' & C & B & _ & R).
  destruct (before_stop_prefix (trace_since w (snd (run fuel w))) l')
    as [r Hr].
  assert (N : ~ In (EvStop true)
                (EvTime (clock E (tick w)) :: EvNewList :: body)).
  { apply none_absent with (f := is_stop_true); [|reflexivity].
    repeat (apply Forall_cons; [reflexivity|]).
    eapply Body_no_stop_true. exact B. }
  rewrite C in Hr.
  change (EvTime (clock E (tick w)) :: EvNewList :: body ++ ?x)
    with ((EvTime (clock E (tick w)) :: EvNewList :: body) ++ x) in Hr.
  rewrite (before_stop_app_clean _ _ N) in Hr. simpl in Hr.
  rewrite app_nil_r in Hr.
  exists body, r. split; [exact Hr|]. split; [exact B|].
  intros rows' HR. destruct (R rows' HR) as [-> _].
  rewrite app_nil_r in C. rewrite C in Hr.
  change (EvTime (clock E (tick w)) :: EvNewList :: body ++ ?x)
    with ((EvTime (clock E (tick w)) :: EvNewList :: body) ++ x) in Hr.
  rewrite (before_stop_app_clean _ _ N) in Hr. simpl in Hr.
  rewrite app_nil_r in Hr.
  simpl in Hr. injection Hr as Hr.
  rewrite <- (app_nil_r body) in Hr at 1.
  apply app_inv_head in Hr. symmetry. exact Hr.
Qed.

(** The part of a run from the reading of the flag as true on is the
    beginning of: that reading, the switch-off command, what follows. *)
Lemma run_from_stop fuel w :
  exists rows tg1 pits r,
    EvStop true :: wire off_command
      :: after_switch_off meas_interval tg1 pits rows =
    from_stop (trace_since w (snd (run fuel w))) ++ r /\
    post_off_tests turn_off_time_meas (clock E (tick w))
      (tg1 - clock E (tick w)) (tg1 - clock E (tick w)) pits /\
    (forall rows', fst (run fuel w) = Ret rows' ->
       rows' = rows /\
       trace_since w (snd (run fuel w)) =
         before_stop (trace_since w (snd (run fuel w)))
           ++ EvStop true :: wire off_command
           :: after_switch_off meas_interval tg1 pits rows).
Proof.
  destruct (run_cut fuel w) as (rows & body & tg1 & pits & l' & C & B & T & R).
  exists rows, tg1, pits.
  assert (N : ~ In (EvStop true)
                (EvTime (clock E (tick w)) :: EvNewList :: body)).
  { apply none_absent with (f := is_stop_true); [|reflexivity].
    repeat (apply Forall_cons; [reflexivity|]).
    eapply Body_no_stop_true. exact B. }
  change (EvTime (clock E (tick w)) :: EvNewList :: body ++ ?x)
    with ((EvTime (clock E (tick w)) :: EvNewList :: body) ++ x) in C.
  destruct (from_stop_prefix (trace_since w (snd (run fuel w))) l')
    as [r Hr].
  rewrite C, (from_stop_app_clean _ _ N) in Hr. simpl in Hr.
  exists r. split; [exact Hr|]. split; [exact T|].
  intros rows' HR. destruct (R rows' HR) as [-> ->]. split; [reflexivity|].
  rewrite app_nil_r in C. rewrite C at 1.
  rewrite C, (before_stop_app_clean _ _ N). simpl. rewrite app_nil_r.
  reflexivity.
Qed.

Lemma sour_volt_on : sour_volt (wire on_command) = true.
Proof. apply sour_volt_wire. Qed.

Lemma sour_volt_off : sour_volt (wire off_command) = true.
Proof. apply sour_volt_wire. Qed.

Lemma occurrences_cut (x : Event) a b :
  ~ In x a -> ~ In x b -> occurrences x (a ++ x :: b) = 1%nat.
Proof.
  intros Ha Hb. rewrite occurrences_app. unfold occurrences at 2.
  rewrite count_occ_cons_eq by reflexivity.
  fold (occurrences x b).
  rewrite (occurrences_absent _ _ Ha), (occurrences_absent _ _ Hb).
  reflexivity.
Qed.


Lemma append_in_head (s : Sample) t0 pre tg :
  In (EvAppend s) (EvTime t0 :: EvNewList :: pre ++ [EvStop false; EvTime tg]) ->
  In (EvAppend s) pre.
Proof.
  intros [H | [H | H]]; try discriminate.
  apply in_app_or in H. destruct H as [H | [H | [H | []]]];
    [exact H | discriminate | discriminate].
Qed.


(** Before the flag is read as true, the only [":sour:volt"] command a
    run writes is the switch-on command. *)
Lemma sour_volt_before_stop fuel w e :
  In e (before_stop (trace_since w (snd (run fuel w)))) ->
  sour_volt e = true -> e = wire on_command.
Proof.
  intros Hin He.
  destruct (run_before_stop fuel w) as (body & r & H & B & _).
  assert (I : In e (EvTime (clock E (tick w)) :: EvNewList :: body)).
  { rewrite H. apply in_or_app. left. exact Hin. }
  destruct I as [<- | [<- | I]]; [discriminate | discriminate |].
  apply Body_cut in B.
  destruct B as [[N _] | (pre & tg & c & v & post & -> & N1 & N2 & _)].
  - exfalso. revert I. apply none_absent with (f := sour_volt); assumption.
  - apply in_app_or in I. destruct I as [I | [<- | I]]; [|reflexivity|].
    + exfalso. revert I. apply none_absent with (f := sour_volt); [|exact He].
      apply none_app; [exact N1 | repeat constructor].
    + exfalso. revert I. apply none_absent with (f := sour_volt); [|exact He].
      repeat (apply Forall_cons; [reflexivity|]). exact N2.
Qed.

(** C3.  When the call returns, its history is: the first loop, in which
    the flag is never read as true; the reading of the flag as true;
    immediately after it the switch-off command; and the rest.  From
    that reading on the switch-off command occurs exactly once.  In the
    first loop the only [":sour:volt"] command that can occur is the
    switch-on command, so the switch-off command is written exactly once
    in the whole run whenever the two commands differ, and also when the
    switch-on command was never written. *)
Theorem switch_off_exactly_once fuel w rows :
  fst (run fuel w) = Ret rows ->
  let tr := trace_since w (snd (run fuel w)) in
  exists pre post,
    tr = pre ++ EvStop true :: wire off_command :: post /\
    ~ In (EvStop true) pre /\
    occurrences (wire off_command)
      (EvStop true :: wire off_command :: post) = 1%nat /\
    (forall e, In e pre -> sour_volt e = true -> e = wire on_command) /\
    (wire on_command <> wire off_command \/ ~ In (wire on_command) pre ->
     occurrences (wire off_command) tr = 1%nat).
Proof.
  intros HR tr.
  destruct (run_from_stop fuel w) as (rows' & tg1 & pits & r & _ & _ & R).
  destruct (R rows HR) as [_ C]. fold tr in C.
  exists (before_stop tr), (after_switch_off meas_interval tg1 pits rows').
  assert (O : occurrences (wire off_command)
                (EvStop true :: wire off_command
                   :: after_switch_off meas_interval tg1 pits rows')
              = 1%nat).
  { apply (@occurrences_cut (wire off_command) [EvStop true]).
    - intros [H | []]. discriminate.
    - apply none_absent with (f := sour_volt); [|apply sour_volt_off].
      apply sour_volt_after. }
  split; [exact C|]. split; [apply before_stop_no_stop|].
  split; [exact O|]. split.
  - intros e. apply sour_volt_before_stop.
  - intros D. rewrite C at 1. rewrite occurrences_app, O.
    rewrite occurrences_absent; [reflexivity|].
    intros I. pose proof (sour_volt_before_stop _ _ _ I sour_volt_off) as Q.
    destruct D as [D | D].
    + apply D. symmetry. exact Q.
    + apply D. rewrite <- Q. exact I.
Qed.


Lemma run_replay fuel w :
  datapoints (snd (run fuel w)) =
    replay (trace_since w (snd (run fuel w))) (datapoints w) /\
  faithful float_of_bytes (datapoints w) (trace_since w (snd (run fuel w))).
Proof.
  destruct (run_step fuel w) as [_ _ (l & ks & L & D & _ & _ & Y & _)].
  rewrite (trace_since_app _ _ _ L). auto.
Qed.

Lemma run_slept fuel w : Forall slept (trace_since w (snd (run fuel w))).
Proof.
  destruct (run_step fuel w) as [_ _ (l & ks & L & _ & _ & _ & _ & Z)].
  rewrite (trace_since_app _ _ _ L). exact Z.
Qed.

(** Between the new list and the conversion, if the run gets that far,
    [self.datapoints] is not bound again. *)
Lemma run_middle fuel w :
  exists mid tail,
    trace_since w (snd (run fuel w)) =
      EvTime (clock E (tick w)) :: EvNewList :: mid ++ tail /\
    none is_binding mid /\
    (tail = [] \/ exists rows, tail = [EvArray rows]) /\
    (forall rows, fst (run fuel w) = Ret rows ->
       tail = [EvArray rows] /\ Tidy meas_interval mid).
Proof.
  destruct (run_starts fuel w) as [l0 L0].
  destruct (run_cut fuel w) as (rows & body & tg1 & pits & l' & C & B & _ & R).
  pose proof (Tidy_middle turn_off_voltage tg1 pits B) as T.
  set (MID := body ++ EvStop true :: wire off_command
                :: beep_dn_events ++ EvTime tg1
                :: flat_map (post_iteration_events meas_interval) pits)
    in *.
  assert (T' : Tidy meas_interval MID) by exact T. clear T.
  assert (C' : l0 ++ l' = MID ++ [EvArray rows]).
  { rewrite L0 in C. simpl in C. injection C as C. rewrite C.
    unfold MID, after_switch_off. simpl.
    rewrite <- ?app_assoc. simpl. rewrite <- ?app_assoc. reflexivity. }
  rewrite L0. induction l' as [|x l'' _] using rev_ind.
  - rewrite app_nil_r in C'. subst l0.
    exists MID, [EvArray rows]. split; [reflexivity|].
    split; [apply T'|]. split; [right; eauto|].
    intros rows' HR. destruct (R rows' HR) as [_ ->]. auto.
  - rewrite app_assoc in C'. apply app_inj_tail in C'.
    destruct C' as [C' _].
    exists l0, []. rewrite app_nil_r. split; [reflexivity|]. split.
    + destruct T' as [T _]. rewrite <- C' in T.
      apply Forall_app in T. apply T.
    + split; [left; reflexivity|].
      intros rows' HR. destruct (R rows' HR) as [HN _].
      exfalso. symmetry in HN. revert HN. apply app_cons_not_nil.
Qed.

Lemma rows_of_samples_length smp rows :
  rows_of_samples float_of_bytes smp = Some rows ->
  List.length rows = List.length smp.
Proof.
  revert rows. induction smp as [|s smp IH]; intros rows H; simpl in H.
  - injection H as <-. reflexivity.
  - destruct (row_of_sample float_of_bytes s); [|discriminate].
    destruct (rows_of_samples float_of_bytes smp); [|discriminate].
    injection H as <-. simpl. rewrite (IH l eq_refl). reflexivity.
Qed.

(** The history of a call that returns. *)
Lemma run_ret fuel w rows :
  fst (run fuel w) = Ret rows ->
  exists mid,
    trace_since w (snd (run fuel w)) =
      EvTime (clock E (tick w)) :: EvNewList :: mid ++ [EvArray rows] /\
    Tidy meas_interval mid /\
    appended (trace_since w (snd (run fuel w))) = appended mid /\
    rows_of_samples float_of_bytes (appended mid) = Some rows /\
    datapoints (snd (run fuel w)) = NdArray rows.
Proof.
  intros HR. destruct (run_middle fuel w) as (mid & tail & H & N & _ & R).
  destruct (R rows HR) as [-> T]. exists mid.
  destruct (run_replay fuel w) as [D Y]. rewrite H in D, Y.
  split; [exact H|]. split; [exact T|]. split; [|split].
  - rewrite H. simpl. rewrite appended_app. simpl. apply app_nil_r.
  - cbn [faithful replay] in Y. destruct Y as (_ & _ & Y).
    assert (Z : faithful float_of_bytes
                  (replay [EvTime (clock E (tick w)); EvNewList] (datapoints w))
                  (mid ++ [EvArray rows])).
    { destruct (datapoints w); exact Y. }
    apply faithful_app in Z. destruct Z as [_ Z].
    assert (P : replay mid
                  (replay [EvTime (clock E (tick w)); EvNewList] (datapoints w))
                = PyList (appended mid)).
    { simpl. apply (replay_no_binding [] N). }
    rewrite P in Z. simpl in Z. apply Z.
  - rewrite D. simpl. rewrite replay_app. reflexivity.
Qed.



Lemma rows_of_samples_times smp rows :
  rows_of_samples float_of_bytes smp = Some rows ->
  map row_time rows = map timestamp smp.
Proof.
  revert rows. induction smp as [|s smp IH]; intros rows H; simpl in H.
  - injection H as <-. reflexivity.
  - destruct s as [[t c] v]. unfold row_of_sample in H.
    destruct (float_of_bytes c); [|discriminate].
    destruct (float_of_bytes v); [|discriminate].
    destruct (rows_of_samples float_of_bytes smp); [|discriminate].
    injection H as <-. simpl. rewrite (IH l eq_refl). reflexivity.
Qed.

(** C6.  If the clock read by the call does not go back, then, however
    the run ends, the timestamps of the samples appended are in order:
    each is less than or equal to the next.  So are those of the list
    [self.datapoints] holds when the run is cut short, and those of the
    rows of the array when the call returns. *)
Theorem timestamps_non_decreasing fuel w :
  (forall i j, (i <= j)%nat -> clock E i <= clock E j) ->
  let r := run fuel w in
  Sorted Qle (map timestamp (appended (trace_since w (snd r)))) /\
  (forall smp, datapoints (snd r) = PyList smp ->
               Sorted Qle (map timestamp smp)) /\
  (forall rows, fst r = Ret rows -> Sorted Qle (map row_time rows)).
Proof.
  intros M r.
  assert (S : StronglySorted Qle
                (map timestamp (appended (trace_since w (snd r))))).
  { destruct (run_starts fuel w) as [l0 L0]. fold r in L0.
    destruct (run_step fuel w) as [_ _ (l & ks & L & _ & R & A & _)].
    fold r in L. rewrite (trace_since_app _ _ _ L) in L0. subst l.
    destruct (run_cut fuel w) as (rows & body & tg1 & pits & l' & C & B & _).
    fold r in C. rewrite (trace_since_app _ _ _ L) in *.
    simpl in C. injection C as C.
    assert (Y : stamped (clock E (tick w)) l0).
    { apply stamped_prefix with (l' := l'). rewrite C.
      apply stamped_app; [eapply Stamped_body; exact B|].
      intros cur.
      change (stamped cur (after_switch_off meas_interval tg1 pits rows)).
      apply Stamped_after. }
    cbn [appended]. apply (stamped_sorted _ Y).
    change (StronglySorted Qle
              (readings (EvTime (clock E (tick w)) :: EvNewList :: l0))).
    rewrite R. eapply ascending_sorted; eassumption. }
  split; [apply StronglySorted_Sorted; exact S|]. split.
  - intros smp D. apply StronglySorted_Sorted.
    destruct (run_middle fuel w) as (mid & tail & H & N & T & _).
    destruct (run_replay fuel w) as [P _]. fold r in H, P.
    rewrite H in S, P. rewrite D in P. simpl in P, S.
    rewrite replay_app, (replay_no_binding [] N) in P.
    rewrite appended_app in S.
    destruct T as [-> | [rows ->]]; simpl in P, S; [|discriminate].
    rewrite app_nil_r in S. injection P as ->. exact S.
  - intros rows HR. apply StronglySorted_Sorted.
    destruct (run_ret fuel w HR) as (mid & _ & _ & A & Y & _).
    fold r in A. rewrite (rows_of_samples_times _ Y), <- A. exact S.
Qed.

(** When a run leaves [self.datapoints] a list, the list holds the
    samples appended, in order. *)
Lemma run_list fuel w smp :
  datapoints (snd (run fuel w)) = PyList smp ->
  smp = appended (trace_since w (snd (run fuel w))).
Proof.
  intros D.
  destruct (run_middle fuel w) as (mid & tail & H & N & T & _).
  destruct (run_replay fuel w) as [P _].
  rewrite H in P. rewrite D in P. rewrite H. simpl in P.
  rewrite replay_app, (replay_no_binding [] N) in P.
  cbn [appended]. rewrite appended_app.
  destruct T as [-> | [rows ->]]; simpl in P; [|discriminate].
  simpl. rewrite app_nil_r. injection P as ->. reflexivity.
Qed.

(** Every sleep of a run is of the length [meas_interval]. *)
Lemma run_sleeps fuel w :
  Forall (of_interval meas_interval) (trace_since w (snd (run fuel w))).
Proof.
  destruct (run_cut fuel w) as (rows & body & tg1 & pits & l' & C & B & _).
  assert (F : Forall (of_interval meas_interval)
                (trace_since w (snd (run fuel w)) ++ l')).
  { rewrite C. repeat (apply Forall_cons; [exact I|]).
    apply Forall_app. split; [eapply of_interval_body; exact B|].
    do 2 (apply Forall_cons; [exact I|]). apply of_interval_after. }
  apply Forall_app in F. apply F.
Qed.


(** C8.  The call leaves [self.stoptrigger] to the external actor: its
    value after the call is the last value that actor wrote while the
    call was running, and the value it had before the call when nothing
    was written.  This holds however the call ends. *)
Theorem stoptrigger_only_read fuel w :
  stoptrigger (snd (run fuel w)) =
  match last_write E (tick w) (tick (snd (run fuel w)) - tick w) with
  | Some b => b
  | None => stoptrigger w
  end.
Proof. apply run_step. Qed.

End Claims.

(** ** Runs on a bench

    A clock that advances by 10 ms with every primitive operation, an
    instrument that answers [1.5] to every query over a link that holds,
    and an operator who sets the flag when the call has made a given number
    of operations. *)

(** Python's [format] of an [int]. *)
Definition format_int (z : Z) : string := NilZero.string_of_int (Z.to_int z).

Definition steady_clock (k : nat) : Q := Z.of_nat k # 100.

Definition bench (stop_at : nat) : Env :=
  {| clock := steady_clock;
     stop_writer := fun k => if Nat.eqb k stop_at then Some true else None;
     arrive := fun _ => encode "1.5";
     link_down := fun _ => false |}.

(** numpy's conversion, on the replies of this instrument. *)
Definition float_of_reply (b : bytes) : option Q :=
  if bytes_eqb b (encode "1.5") then Some (3 # 2) else None.

(** The object before the call, with the flag not set, and with the flag
    already set. *)
Definition idle : World :=
  {| tick := 0; stoptrigger := false; inbuf := []; datapoints := PyList [];
     log := [] |}.

Definition stopped : World :=
  {| tick := 0; stoptrigger := true; inbuf := []; datapoints := PyList [];
     log := [] |}.

(** [run_measurement(0.5, 5, 0.2, 0, 0.01)], stopped after one second. *)
Abbreviation full_run :=
  (run_measurement (bench 100) format_int float_of_reply
     (1 # 2) 5%Z (1 # 5) 0%Z (1 # 100) 100 idle).

Definition full_rows : list Row :=
  Eval vm_compute in
    match fst full_run with Ret rows => rows | _ => [] end.

(** The same call, stopped after 0.12 s, before the switch-on time. *)
Abbreviation early_run :=
  (run_measurement (bench 12) format_int float_of_reply
     (1 # 2) 5%Z (1 # 5) 0%Z (1 # 100) 100 idle).

(** [run_measurement(0.5, 5, 0, 0, 0.01)] with the flag already set. *)
Abbreviation empty_run :=
  (run_measurement (bench 100) format_int float_of_reply
     (1 # 2) 5%Z 0 0%Z (1 # 100) 100 stopped).

(** [run_measurement(0.5, 5, 0.2, 0, 0)], stopped after 0.12 s. *)
Abbreviation zero_interval_run :=
  (run_measurement (bench 12) format_int float_of_reply
     (1 # 2) 5%Z (1 # 5) 0%Z 0 100 idle).

(** [run_measurement(0.5, 5, 0.2, 0, -0.01)]. *)
Abbreviation negative_interval_run :=
  (run_measurement (bench 12) format_int float_of_reply
     (1 # 2) 5%Z (1 # 5) 0%Z (-1 # 100) 100 idle).

Lemma steady_clock_monotone i j :
  (i <= j)%nat -> steady_clock i <= steady_clock j.
Proof.
  intros H. unfold steady_clock, Qle. simpl. lia.
Qed.




Lemma full_run_returns : fst full_run = Ret full_rows.
Proof. vm_compute. reflexivity. Qed.


Lemma switch_off_exactly_once_witness :
  fst full_run = Ret full_rows /\
  exists pre post,
    trace_since idle (snd full_run) =
      pre ++ EvStop true :: wire (switch_off_command format_int 0%Z) :: post /\
    ~ In (EvStop true) pre /\
    occurrences (wire (switch_off_command format_int 0%Z))
      (EvStop true :: wire (switch_off_command format_int 0%Z) :: post)
    = 1%nat.
Proof.
  split; [exact full_run_returns|].
  destruct (switch_off_exactly_once (bench 100) format_int float_of_reply
              (1 # 2) 5%Z (1 # 5) 0%Z (1 # 100) 100 idle full_run_returns)
    as (pre & post & H1 & H2 & H3 & _).
  exists pre, post. split; [exact H1|]. split; [exact H2 | exact H3].
Defined.


Lemma timestamps_non_decreasing_witness :
  (forall i j, (i <= j)%nat -> clock (bench 100) i <= clock (bench 100) j) /\
  Sorted Qle (map timestamp (appended (trace_since idle (snd full_run)))) /\
  Sorted Qle (map row_time full_rows).
Proof.
  split; [exact steady_clock_monotone|].
  destruct (timestamps_non_decreasing (bench 100) format_int float_of_reply
              (1 # 2) 5%Z (1 # 5) 0%Z (1 # 100) 100 idle
              steady_clock_monotone)
    as (H1 & _ & H3).
  split; [exact H1|]. apply H3. exact full_run_returns.
Defined.

(** ** Histories and the environment

    The history of a run is what the environment dictates: the [k]-th
    operation of a call reads the clock, the flag and the socket as the
    oracles give them for the operation number it has.  [Outside] is what
    the outside world holds at a point of a run. *)

Record Outside : Type := {
  o_tick : nat;     (* the number of the next operation *)
  o_flag : bool;    (* self.stoptrigger *)
  o_buf : bytes     (* received by the socket, not yet read *)
}.

Definition outside (w : World) : Outside :=
  {| o_tick := tick w; o_flag := stoptrigger w; o_buf := inbuf w |}.

(** The bytes that [recv] has returned, in order. *)
Fixpoint received (l : list Event) : bytes :=
  match l with
  | [] => []
  | EvRecv _ d :: l' => d ++ received l'
  | _ :: l' => received l'
  end.

(** The bytes that reached the socket at the [recv]s of a history whose
    first event is operation [k]. *)
Fixpoint arrivals (E : Env) (k : nat) (l : list Event) : bytes :=
  match l with
  | [] => []
  | EvRecv _ _ :: l' => arrive E k ++ arrivals E (S k) l'
  | _ :: l' => arrivals E (S k) l'
  end.

(** The two raw readings of a sample, as one run of bytes. *)
Definition fields (s : Sample) : bytes := snd (fst s) ++ snd s.

(** The value of the flag that operation [k] finds, in a call that
    started in [w]. *)
Definition flag_seen (E : Env) (w : World) (k : nat) : bool :=
  match last_write E (tick w) (S k - tick w) with
  | Some b => b
  | None => stoptrigger w
  end.

Section Dictation.

Variable E : Env.

Definition next_flag (k : nat) (flag : bool) : bool :=
  match stop_writer E k with Some b => b | None => flag end.

Definition incoming (o : Outside) : bytes := o_buf o ++ arrive E (o_tick o).

(** The outside world after the operation that has left the event [e]. *)
Definition after_event (e : Event) (o : Outside) : Outside :=
  {| o_tick := S (o_tick o);
     o_flag := next_flag (o_tick o) (o_flag o);
     o_buf := match e with
              | EvRecv n _ => skipn n (incoming o)
              | _ => o_buf o
              end |}.

(** The outside world after an operation that has raised. *)
Definition after_failure (o : Outside) : Outside :=
  {| o_tick := S (o_tick o);
     o_flag := next_flag (o_tick o) (o_flag o);
     o_buf := o_buf o |}.

(** The event is the one the environment gives to this operation. *)
Definition told (e : Event) (o : Outside) : Prop :=
  match e with
  | EvTime t => t = clock E (o_tick o)
  | EvStop b => b = next_flag (o_tick o) (o_flag o)
  | EvSend _ => link_down E (o_tick o) = false
  | EvRecv n d =>
      link_down E (o_tick o) = false /\ d = firstn n (incoming o)
  | EvSleep d => 0 <= d
  | _ => True
  end.

Fixpoint after (l : list Event) (o : Outside) : Outside :=
  match l with
  | [] => o
  | e :: l' => after l' (after_event e o)
  end.

Fixpoint dictated (l : list Event) (o : Outside) : Prop :=
  match l with
  | [] => True
  | e :: l' => told e o /\ dictated l' (after_event e o)
  end.

Lemma after_app l1 l2 o : after (l1 ++ l2) o = after l2 (after l1 o).
Proof.
  revert o. induction l1 as [|e l1 IH]; intros o; [reflexivity|].
  simpl. apply IH.
Qed.

Lemma dictated_app l1 l2 o :
  dictated (l1 ++ l2) o <-> dictated l1 o /\ dictated l2 (after l1 o).
Proof.
  revert o. induction l1 as [|e l1 IH]; intros o; simpl.
  - tauto.
  - rewrite IH. tauto.
Qed.

Lemma after_tick l o : o_tick (after l o) = (o_tick o + List.length l)%nat.
Proof.
  revert o. induction l as [|e l IH]; intros o; simpl.
  - lia.
  - rewrite IH. simpl. lia.
Qed.

(** Every call of [m] leaves a history that the environment dictates;
    a call that raises has made one more operation, the one that failed,
    and this was an operation on a link that is down if the exception is
    [OSError]. *)
Definition Dictated {A} (m : M A) : Prop :=
  forall w, exists l,
    log (snd (m w)) = log w ++ l /\
    dictated l (outside w) /\
    match fst (m w) with
    | Raise e =>
        outside (snd (m w)) = after_failure (after l (outside w)) /\
        (e = OSError -> link_down E (o_tick (after l (outside w))) = true)
    | _ => outside (snd (m w)) = after l (outside w)
    end.

Lemma Dictated_ret A (a : A) : Dictated (ret a).
Proof.
  intros w. exists []. simpl. rewrite app_nil_r. auto.
Qed.

Lemma Dictated_out_of_fuel A : Dictated (@out_of_fuel A).
Proof.
  intros w. exists []. simpl. rewrite app_nil_r. auto.
Qed.

Lemma Dictated_bind A B (m : M A) (f : A -> M B) :
  Dictated m -> (forall a, Dictated (f a)) -> Dictated (bind m f).
Proof.
  intros Hm Hf w. unfold bind. destruct (Hm w) as (l1 & L1 & D1 & R1).
  destruct (m w) as [[a|e|] w1]; simpl in *.
  - destruct (Hf a w1) as (l2 & L2 & D2 & R2).
    exists (l1 ++ l2). split; [rewrite L2, L1, app_assoc; reflexivity|].
    rewrite R1 in D2, R2. split; [apply dictated_app; auto|].
    rewrite after_app. exact R2.
  - exists l1. auto.
  - exists l1. auto.
Qed.

Ltac one_event e :=
  exists [e]; simpl; split; [reflexivity|]; auto.

Ltac no_event :=
  exists []; simpl; rewrite app_nil_r; split; [reflexivity|]; auto.

Lemma Dictated_time_time : Dictated (time_time E).
Proof. intros w. one_event (EvTime (clock E (tick w))). Qed.

Lemma Dictated_get_stoptrigger : Dictated (get_stoptrigger E).
Proof. intros w. one_event (EvStop (stoptrigger (advance E w))). Qed.

Lemma Dictated_datapoints_new : Dictated (datapoints_new E).
Proof. intros w. one_event EvNewList. Qed.

Lemma Dictated_time_sleep secs : Dictated (time_sleep E secs).
Proof.
  intros w. unfold time_sleep, Qltb.
  destruct (Qle_bool 0 secs) eqn:C; simpl.
  - apply Qle_bool_iff in C. one_event (EvSleep secs).
  - no_event. repeat split. discriminate.
Qed.

Lemma Dictated_socket_sendall data : Dictated (socket_sendall E data).
Proof.
  intros w. unfold socket_sendall.
  destruct (link_down E (tick w)) eqn:C; simpl.
  - no_event.
  - one_event (EvSend data).
Qed.

Lemma Dictated_socket_recv bufsize : Dictated (socket_recv E bufsize).
Proof.
  intros w. unfold socket_recv.
  destruct (link_down E (tick w)) eqn:C; simpl.
  - no_event.
  - one_event (EvRecv bufsize (firstn bufsize (inbuf w ++ arrive E (tick w)))).
Qed.

Lemma Dictated_datapoints_append s : Dictated (datapoints_append E s).
Proof.
  intros w. unfold datapoints_append. destruct (datapoints w); simpl.
  - one_event (EvAppend s).
  - no_event. repeat split. discriminate.
Qed.

Lemma Dictated_datapoints_to_array fob :
  Dictated (datapoints_to_array E fob).
Proof.
  intros w. unfold datapoints_to_array.
  destruct (datapoints w) as [smp|rows]; simpl.
  - destruct (rows_of_samples fob smp) as [rows|]; simpl.
    + one_event (EvArray rows).
    + no_event. repeat split. discriminate.
  - one_event (EvArray rows).
Qed.

Lemma Dictated_write command : Dictated (write E command).
Proof. apply Dictated_socket_sendall. Qed.

Lemma Dictated_query command n : Dictated (query E command n).
Proof.
  unfold query. apply Dictated_bind; [apply Dictated_write | intros _].
  apply Dictated_bind; [apply Dictated_socket_recv | intros d].
  apply Dictated_ret.
Qed.

Lemma Dictated_beep_up : Dictated (beep_up E).
Proof.
  unfold beep_up.
  do 4 (apply Dictated_bind; [apply Dictated_write | intros _]).
  apply Dictated_write.
Qed.

Lemma Dictated_beep_dn : Dictated (beep_dn E).
Proof.
  unfold beep_dn.
  do 4 (apply Dictated_bind; [apply Dictated_write | intros _]).
  apply Dictated_write.
Qed.

Lemma Dictated_measure : Dictated (measure E).
Proof.
  unfold measure.
  apply Dictated_bind; [apply Dictated_query | intros c].
  apply Dictated_bind; [apply Dictated_query | intros v].
  apply Dictated_ret.
Qed.

Section DictatedRun.

Variable Volt : Type.
Variable format_volt : Volt -> string.
Variable float_of_bytes : bytes -> option Q.
Variable turn_on_time : Q.
Variable turn_on_voltage : Volt.
Variable turn_off_time_meas : Q.
Variable turn_off_voltage : Volt.
Variable meas_interval : Q.

Lemma Dictated_sampling_loop fuel t0 switched :
  Dictated (sampling_loop E format_volt turn_on_time turn_on_voltage
              meas_interval fuel t0 switched).
Proof.
  revert switched. induction fuel as [|fuel IH]; intros switched.
  - apply Dictated_out_of_fuel.
  - cbn [sampling_loop].
    apply Dictated_bind; [apply Dictated_get_stoptrigger | intros stop].
    destruct stop; [apply Dictated_ret|].
    apply Dictated_bind; [apply Dictated_time_time | intros t_global].
    apply Dictated_bind.
    + destruct (negb switched && _).
      * apply Dictated_bind; [apply Dictated_write | intros _].
        apply Dictated_bind; [apply Dictated_beep_up | intros _].
        apply Dictated_ret.
      * apply Dictated_ret.
    + intros switched'.
      apply Dictated_bind; [apply Dictated_measure | intros [c v]].
      apply Dictated_bind; [apply Dictated_datapoints_append | intros _].
      apply Dictated_bind; [apply Dictated_time_sleep | intros _].
      apply IH.
Qed.

Lemma Dictated_post_off_loop fuel t0 t1 t :
  Dictated (post_off_loop E turn_off_time_meas meas_interval fuel t0 t1 t).
Proof.
  revert t. induction fuel as [|fuel IH]; intros t.
  - apply Dictated_out_of_fuel.
  - cbn [post_off_loop]. destruct (Qltb t _); [|apply Dictated_ret].
    apply Dictated_bind; [apply Dictated_time_time | intros t_global].
    apply Dictated_bind; [apply Dictated_measure | intros [c v]].
    apply Dictated_bind; [apply Dictated_datapoints_append | intros _].
    apply Dictated_bind; [apply Dictated_time_sleep | intros _].
    apply IH.
Qed.

Lemma Dictated_run_measurement fuel :
  Dictated (run_measurement E format_volt float_of_bytes turn_on_time
              turn_on_voltage turn_off_time_meas turn_off_voltage
              meas_interval fuel).
Proof.
  unfold run_measurement.
  apply Dictated_bind; [apply Dictated_time_time | intros t0].
  apply Dictated_bind; [apply Dictated_datapoints_new | intros _].
  apply Dictated_bind; [apply Dictated_sampling_loop | intros _].
  apply Dictated_bind; [apply Dictated_write | intros _].
  apply Dictated_bind; [apply Dictated_beep_dn | intros _].
  apply Dictated_bind; [apply Dictated_time_time | intros t_global].
  apply Dictated_bind; [apply Dictated_post_off_loop | intros _].
  apply Dictated_datapoints_to_array.
Qed.

End DictatedRun.

(** *** What a dictated history tells *)

Lemma received_app l1 l2 : received (l1 ++ l2) = received l1 ++ received l2.
Proof.
  induction l1 as [|e l1 IH]; [reflexivity|].
  destruct e; simpl; rewrite ?IH, <- ?app_assoc; reflexivity.
Qed.

(** No byte is lost, doubled or moved. *)
Lemma dictated_stream l o :
  dictated l o ->
  o_buf o ++ arrivals E (o_tick o) l = received l ++ o_buf (after l o).
Proof.
  revert o. induction l as [|e l IH]; intros o D.
  - simpl. apply app_nil_r.
  - destruct D as [T D]. specialize (IH _ D).
    destruct e; simpl in *; try exact IH.
    destruct T as [_ ->]. rewrite <- app_assoc, <- IH.
    rewrite (app_assoc (firstn _ _)), firstn_skipn. unfold incoming.
    rewrite <- app_assoc. reflexivity.
Qed.

(** While the external actor does not write the value [negb b], a flag
    that holds [b] keeps it, and is never read otherwise. *)
Lemma dictated_flag_kept b l o :
  (forall k, (o_tick o <= k)%nat -> stop_writer E k <> Some (negb b)) ->
  o_flag o = b ->
  dictated l o ->
  ~ In (EvStop (negb b)) l /\ o_flag (after l o) = b.
Proof.
  revert o. induction l as [|e l IH]; intros o W F D.
  - simpl. tauto.
  - destruct D as [T D].
    assert (N : next_flag (o_tick o) (o_flag o) = b).
    { unfold next_flag. specialize (W (o_tick o) (Nat.le_refl _)).
      destruct (stop_writer E (o_tick o)) as [c|]; [|exact F].
      destruct c, b; simpl in W; congruence. }
    destruct (IH (after_event e o)) as [I1 I2]; [|exact N|exact D|].
    { intros k Hk. apply W. simpl in Hk. lia. }
    split; [|exact I2].
    intros [H | H]; [|exact (I1 H)].
    subst e. simpl in T. rewrite N in T. destruct b; discriminate.
Qed.

(** Once the flag has been read as [b], it holds [b] as long as the
    external actor does not write the other value. *)
Lemma dictated_flag_read b l o :
  (forall k, (o_tick o <= k)%nat -> stop_writer E k <> Some (negb b)) ->
  dictated l o ->
  In (EvStop b) l ->
  o_flag (after l o) = b.
Proof.
  revert o. induction l as [|e l IH]; intros o W D I; [destruct I|].
  destruct D as [T D].
  assert (W' : forall k, (o_tick (after_event e o) <= k)%nat ->
                         stop_writer E k <> Some (negb b)).
  { intros k Hk. apply W. simpl in Hk. lia. }
  destruct I as [-> | I].
  - simpl in T. simpl.
    destruct (@dictated_flag_kept b l (after_event (EvStop b) o) W')
      as [_ K]; auto.
  - simpl. apply IH; assumption.
Qed.

(** An event of a dictated history was not refused by the link. *)
Lemma dictated_link_up l o :
  (forall k, (o_tick o <= k)%nat -> link_down E k = true) ->
  dictated l o ->
  Forall (fun e => match e with
                   | EvSend _ | EvRecv _ _ => False
                   | _ => True
                   end) l.
Proof.
  revert o. induction l as [|e l IH]; intros o W D; [constructor|].
  destruct D as [T D]. constructor.
  - specialize (W (o_tick o) (Nat.le_refl _)).
    destruct e; simpl in *; try exact I.
    + congruence.
    + destruct T as [T _]. congruence.
  - apply (IH (after_event e o)); [|exact D].
    intros k Hk. apply W. simpl in Hk. lia.
Qed.

End Dictation.

(** ** More on [run_measurement] and [measure] *)

(** A reply is never longer than the size asked for. *)
Lemma dictated_sizes E l o :
  dictated E l o ->
  Forall (fun e => match e with
                   | EvRecv n d => (List.length d <= n)%nat
                   | _ => True
                   end) l.
Proof.
  revert o. induction l as [|e l IH]; intros o D; [constructor|].
  destruct D as [T D]. constructor; [|exact (IH _ D)].
  destruct e; try exact I. destruct T as [_ ->]. apply firstn_le_length.
Qed.

(** Every [recv] of this history asks for 256 bytes. *)
Definition asks_256 (e : Event) : Prop :=
  match e with EvRecv n _ => n = 256%nat | _ => True end.

(** The replies of a history are the raw readings of its samples. *)
Definition Paired (l : list Event) : Prop :=
  received l = flat_map fields (appended l).

(** The clock readings of a history are the timestamps of its samples. *)
Definition Clocked (l : list Event) : Prop :=
  readings l = map timestamp (appended l).

Lemma Paired_app l1 l2 : Paired l1 -> Paired l2 -> Paired (l1 ++ l2).
Proof.
  unfold Paired. intros H1 H2.
  rewrite received_app, appended_app, flat_map_app, H1, H2. reflexivity.
Qed.

Lemma Clocked_app l1 l2 : Clocked l1 -> Clocked l2 -> Clocked (l1 ++ l2).
Proof.
  unfold Clocked. intros H1 H2.
  rewrite readings_app, appended_app, map_app, H1, H2. reflexivity.
Qed.

Lemma Paired_flat_map A (g : A -> list Event) l :
  (forall a, Paired (g a)) -> Paired (flat_map g l).
Proof.
  intros H. induction l as [|a l IH]; [reflexivity|].
  cbn [flat_map]. apply Paired_app; [apply H | exact IH].
Qed.

Lemma Clocked_flat_map A (g : A -> list Event) l :
  (forall a, Clocked (g a)) -> Clocked (flat_map g l).
Proof.
  intros H. induction l as [|a l IH]; [reflexivity|].
  cbn [flat_map]. apply Clocked_app; [apply H | exact IH].
Qed.

Section Passes.

Variable Volt : Type.
Variable format_volt : Volt -> string.
Variable turn_on_time : Q.
Variable turn_on_voltage : Volt.
Variable meas_interval : Q.

Lemma Paired_sample it : Paired (sample_events meas_interval it).
Proof.
  unfold Paired, sample_events, measure_events, wire, fields, it_sample.
  cbn [received appended app flat_map fst snd].
  rewrite !app_nil_r. reflexivity.
Qed.

Lemma Paired_quiet it : Paired (quiet_iteration meas_interval it).
Proof.
  unfold quiet_iteration.
  change (Paired ([EvStop false; EvTime (it_time it)]
                    ++ sample_events meas_interval it)).
  apply Paired_app; [reflexivity | apply Paired_sample].
Qed.

Lemma Paired_post it : Paired (post_iteration_events meas_interval it).
Proof.
  unfold post_iteration_events.
  change (Paired ([EvTime (it_time it)] ++ sample_events meas_interval it)).
  apply Paired_app; [reflexivity | apply Paired_sample].
Qed.

Lemma Clocked_quiet it : Clocked (quiet_iteration meas_interval it).
Proof. reflexivity. Qed.

Lemma Clocked_post it : Clocked (post_iteration_events meas_interval it).
Proof. reflexivity. Qed.

Lemma asks_quiet it : Forall asks_256 (quiet_iteration meas_interval it).
Proof. repeat constructor. Qed.

Lemma asks_post it :
  Forall asks_256 (post_iteration_events meas_interval it).
Proof. repeat constructor. Qed.

Lemma Body_facts t0 body :
  Body format_volt turn_on_time turn_on_voltage meas_interval t0 body ->
  Paired body /\ Clocked body /\ Forall asks_256 body.
Proof.
  intros [its H | its1 it its2 H1 H2].
  - split; [apply Paired_flat_map, Paired_quiet|].
    split; [apply Clocked_flat_map, Clocked_quiet|].
    apply Forall_flat_map, Forall_forall. intros it _. apply asks_quiet.
  - assert (X : forall its,
               Paired (flat_map (quiet_iteration meas_interval) its) /\
               Clocked (flat_map (quiet_iteration meas_interval) its) /\
               Forall asks_256 (flat_map (quiet_iteration meas_interval) its)).
    { intros its. split; [apply Paired_flat_map, Paired_quiet|].
      split; [apply Clocked_flat_map, Clocked_quiet|].
      apply Forall_flat_map, Forall_forall. intros x _. apply asks_quiet. }
    destruct (X its1) as (P1 & C1 & A1). destruct (X its2) as (P2 & C2 & A2).
    change (EvStop false :: EvTime (it_time it)
              :: wire (switch_on_command format_volt turn_on_voltage)
              :: beep_up_events ++ sample_events meas_interval it
              ++ flat_map (quiet_iteration meas_interval) its2)
      with (([EvStop false; EvTime (it_time it);
              wire (switch_on_command format_volt turn_on_voltage)]
               ++ beep_up_events)
              ++ sample_events meas_interval it
              ++ flat_map (quiet_iteration meas_interval) its2).
    split; [|split].
    + apply Paired_app; [exact P1|]. apply Paired_app; [reflexivity|].
      apply Paired_app; [apply Paired_sample | exact P2].
    + apply Clocked_app; [exact C1|].
      change (Clocked ((EvStop false :: EvTime (it_time it)
                          :: wire (switch_on_command format_volt
                                     turn_on_voltage)
                          :: beep_up_events
                          ++ sample_events meas_interval it)
                         ++ flat_map (quiet_iteration meas_interval) its2)).
      apply Clocked_app; [reflexivity | exact C2].
    + apply Forall_app. split; [exact A1|].
      apply Forall_app. split; [repeat constructor|].
      apply Forall_app. split; [repeat constructor | exact A2].
Qed.

Lemma after_facts tg1 pits rows :
  Paired (after_switch_off meas_interval tg1 pits rows) /\
  readings (after_switch_off meas_interval tg1 pits rows)
    = tg1 :: map it_time pits /\
  appended (after_switch_off meas_interval tg1 pits rows)
    = map it_sample pits /\
  Forall asks_256 (after_switch_off meas_interval tg1 pits rows).
Proof.
  unfold after_switch_off.
  assert (A : appended (flat_map (post_iteration_events meas_interval) pits)
              = map it_sample pits).
  { induction pits as [|it pits IH]; [reflexivity|].
    cbn [flat_map map]. rewrite appended_app, IH. reflexivity. }
  split; [|split; [|split]].
  - apply Paired_app; [reflexivity|].
    change (Paired ([EvTime tg1]
                      ++ flat_map (post_iteration_events meas_interval) pits
                      ++ [EvArray rows])).
    apply Paired_app; [reflexivity|].
    apply Paired_app; [apply Paired_flat_map, Paired_post | reflexivity].
  - rewrite readings_app. cbn [beep_dn_events wire readings app].
    rewrite readings_post. reflexivity.
  - rewrite appended_app. cbn [beep_dn_events wire appended app].
    rewrite appended_app, A. simpl. apply app_nil_r.
  - apply Forall_app. split; [repeat constructor|].
    apply Forall_cons; [exact I|]. apply Forall_app.
    split; [|repeat constructor].
    apply Forall_flat_map, Forall_forall. intros it _. apply asks_post.
Qed.

End Passes.

Section MoreRuns.

Variable E : Env.
Variable Volt : Type.
Variable format_volt : Volt -> string.
Variable float_of_bytes : bytes -> option Q.
Variable turn_on_time : Q.
Variable turn_on_voltage : Volt.
Variable turn_off_time_meas : Q.
Variable turn_off_voltage : Volt.
Variable meas_interval : Q.

Local Abbreviation run :=
  (run_measurement E format_volt float_of_bytes turn_on_time
     turn_on_voltage turn_off_time_meas turn_off_voltage meas_interval).
Local Abbreviation on_command :=
  (switch_on_command format_volt turn_on_voltage).
Local Abbreviation off_command :=
  (switch_off_command format_volt turn_off_voltage).
Local Abbreviation Loop_failure := (Failure meas_interval).

(** The history of a run is dictated by the environment. *)
Lemma run_dictation fuel w :
  let r := run fuel w in
  let tr := trace_since w (snd r) in
  dictated E tr (outside w) /\
  match fst r with
  | Raise e =>
      outside (snd r) = after_failure E (after E tr (outside w)) /\
      (e = OSError -> link_down E (tick w + List.length tr) = true)
  | _ => outside (snd r) = after E tr (outside w)
  end.
Proof.
  intros r tr.
  destruct (Dictated_run_measurement E format_volt float_of_bytes
              turn_on_time turn_on_voltage turn_off_time_meas
              turn_off_voltage meas_interval fuel w) as (l & L & D & R).
  fold r in L, R. unfold tr. rewrite (trace_since_app _ _ _ L).
  split; [exact D|]. destruct (fst r); try exact R.
  destruct R as [R1 R2]. split; [exact R1|].
  intros He. specialize (R2 He). rewrite after_tick in R2. exact R2.
Qed.

(** How a run can fail at the conversion: the first loop has ended
    before. *)
Definition Late_failure (e : PyExn) (w' : World) (l : list Event) : Prop :=
  Loop_failure e w' l \/
  (conversion_fails float_of_bytes e w' /\
   In (EvStop true) l /\ In (wire off_command) l).

Lemma Late_failure_prefix e w' l0 l :
  Late_failure e w' l -> Late_failure e w' (l0 ++ l).
Proof.
  intros [H | (H & I1 & I2)].
  - left. apply Failure_prefix. exact H.
  - right. split; [exact H|]. split; apply in_or_app; right; assumption.
Qed.

Lemma Fails_run_late fuel : Fails (run fuel) Late_failure.
Proof.
  unfold run_measurement.
  eapply Fails_bind with (X2 := fun _ => Late_failure);
    [ apply Fails_time_time with (X := Late_failure)
    | apply Shape_time_time | intros t0 | auto
    | intros ? ? ? ? ? _ H; apply Late_failure_prefix; exact H ].
  eapply Fails_bind with (X2 := fun _ => Late_failure);
    [ apply Fails_datapoints_new with (X := Late_failure)
    | apply Shape_datapoints_new | intros ? | auto
    | intros ? ? ? ? ? _ H; apply Late_failure_prefix; exact H ].
  eapply Fails_bind with
    (X2 := fun (_ : bool) e w l =>
             Loop_failure e w l \/
             (conversion_fails float_of_bytes e w /\
              In (wire off_command) l)).
  - apply Fails_sampling_loop.
  - apply Shape_sampling_loop.
  - intros _.
    eapply Fails_bind with
      (X2 := fun (_ : unit) e w l =>
               Loop_failure e w l \/ conversion_fails float_of_bytes e w).
    + apply Fails_write.
    + apply Shape_write.
    + intros _.
      eapply Fails_bind with
        (X2 := fun (_ : unit) e w l =>
                 Loop_failure e w l \/ conversion_fails float_of_bytes e w);
        [ apply Fails_beep_dn | apply Shape_beep_dn | intros _
        | intros ? ? ? H; left; left; exact H
        | intros ? ? ? ? ? _ [H | H];
          [left; apply Failure_prefix; exact H | right; exact H] ].
      eapply Fails_bind with
        (X2 := fun (_ : Q) e w l =>
                 Loop_failure e w l \/ conversion_fails float_of_bytes e w);
        [ apply Fails_time_time with (X := Loop_failure)
        | apply Shape_time_time | intros t_global
        | intros ? ? ? H; left; exact H
        | intros ? ? ? ? ? _ [H | H];
          [left; apply Failure_prefix; exact H | right; exact H] ].
      eapply Fails_bind with
        (X2 := fun (_ : unit) e w (l : list Event) =>
                 conversion_fails float_of_bytes e w);
        [ apply Fails_post_off_loop | apply Shape_post_off_loop | intros _
        | intros ? ? ? H; left; exact H
        | intros ? ? ? ? ? _ H; right; exact H ].
      eapply Fails_conseq; [apply Fails_datapoints_to_array|].
      intros e w l (H1 & _ & H2). split; assumption.
    + intros e w l H. left. left. exact H.
    + intros ? e w l1 l2 -> [H | H].
      * left. apply Failure_prefix. exact H.
      * right. split; [exact H|]. left. reflexivity.
  - intros e w l H. left. exact H.
  - intros ? e w l1 l2 [its ->] [H | [H I]].
    + left. apply Failure_prefix. exact H.
    + right. split; [exact H|]. split.
      * apply in_or_app. left. clear.
        generalize false. induction its as [|it its IH]; intros sw.
        -- left. reflexivity.
        -- cbn [sampling_events]. apply in_or_app. right. apply IH.
      * apply in_or_app. right. exact I.
Qed.

(** The ways in which a run can raise an exception. *)
Lemma run_failures fuel w e :
  fst (run fuel w) = Raise e ->
  let tr := trace_since w (snd (run fuel w)) in
  e = OSError \/
  (e = ValueError /\ meas_interval < 0 /\
   exists pre current voltage s,
     tr = pre ++ measure_events current voltage ++ [EvAppend s]) \/
  (e = ValueError /\
   rows_of_samples float_of_bytes (appended tr) = None /\
   datapoints (snd (run fuel w)) = PyList (appended tr) /\
   In (EvStop true) tr /\ In (wire off_command) tr).
Proof.
  intros He tr.
  pose proof (Fails_run_late fuel) as F.
  unfold Fails in F. destruct (F w e He) as [l [L X]]. clear F.
  pose proof (trace_since_app _ _ _ L) as TL. fold tr in TL. subst l.
  destruct X as [[X | [X | (-> & [rows D] & pre & c & v & T)]]
                | [(-> & smp & D & Y) [I1 I2]]].
  - left. exact X.
  - right. left. exact X.
  - exfalso.
    destruct (run_middle E format_volt float_of_bytes turn_on_time
                turn_on_voltage turn_off_time_meas turn_off_voltage
                meas_interval fuel w) as (mid & tail & H & N & Tl & _).
    destruct (run_replay E format_volt float_of_bytes turn_on_time
                turn_on_voltage turn_off_time_meas turn_off_voltage
                meas_interval fuel w) as [P _].
    fold tr in H, P.
    rewrite H in P. rewrite D in P. simpl in P.
    rewrite replay_app, (replay_no_binding [] N) in P.
    destruct Tl as [-> | [rows' ->]]; simpl in P; [discriminate|].
    rewrite T in H. unfold measure_events in H.
    change (pre ++ [wire ":meas:curr? (@1)"; EvRecv 256 c;
                    wire ":meas:volt? (@1)"; EvRecv 256 v])
      with (pre ++ [wire ":meas:curr? (@1)"; EvRecv 256 c;
                    wire ":meas:volt? (@1)"] ++ [EvRecv 256 v]) in H.
    rewrite app_assoc in H.
    change (EvTime (clock E (tick w)) :: EvNewList :: mid ++ [EvArray rows'])
      with ((EvTime (clock E (tick w)) :: EvNewList :: mid)
              ++ [EvArray rows']) in H.
    apply app_inj_tail in H. destruct H as [_ H]. discriminate.
  - right. right. split; [reflexivity|].
    pose proof (run_list E format_volt float_of_bytes turn_on_time
                  turn_on_voltage turn_off_time_meas turn_off_voltage
                  meas_interval fuel w D) as S.
    fold tr in S. subst smp. auto.
Qed.

(** X1.  The replies of the instrument end up in the samples as they come.
    The bytes that [recv] returns during a run, in order, followed by
    what is left unread on the socket, are the bytes the socket held
    before the run followed by those that reached it at the [recv]s of
    the run, however the run ends: nothing is dropped and nothing is
    read twice.  Every [recv] asks for 256 bytes and returns at most
    that many.  When the call returns, the bytes returned are exactly the
    raw readings of the samples, current then voltage, in the order of
    the samples: a reply that is longer than 256 bytes continues in the
    next reading. *)
Theorem replies_in_order fuel w :
  let r := run fuel w in
  let tr := trace_since w (snd r) in
  inbuf w ++ arrivals E (tick w) tr = received tr ++ inbuf (snd r) /\
  (forall n d, In (EvRecv n d) tr ->
               n = 256%nat /\ (List.length d <= 256)%nat) /\
  (forall rows, fst r = Ret rows ->
                received tr = flat_map fields (appended tr)).
Proof.
  intros r tr.
  destruct (run_dictation fuel w) as [D R]. fold r tr in D, R.
  destruct (run_cut E format_volt float_of_bytes turn_on_time
              turn_on_voltage turn_off_time_meas turn_off_voltage
              meas_interval fuel w)
    as (rows & body & tg1 & pits & l' & C & B & _ & HR).
  fold r tr in C, HR.
  destruct (Body_facts B) as (PB & _ & AB).
  destruct (after_facts meas_interval tg1 pits rows) as (PA & _ & _ & AA).
  split; [|split].
  - pose proof (dictated_stream _ _ _ D) as S. simpl in S.
    rewrite S. f_equal.
    change (inbuf (snd r)) with (o_buf (outside (snd r))).
    destruct (fst r); [rewrite R | destruct R as [-> _] | rewrite R];
      reflexivity.
  - intros n d Hin.
    assert (A : Forall asks_256 (tr ++ l')).
    { rewrite C. do 2 (apply Forall_cons; [exact I|]).
      apply Forall_app. split; [exact AB|].
      do 2 (apply Forall_cons; [exact I|]). exact AA. }
    apply Forall_app in A. destruct A as [A _].
    rewrite Forall_forall in A. specialize (A _ Hin). simpl in A. subst n.
    split; [reflexivity|].
    pose proof (dictated_sizes _ _ _ D) as Z.
    rewrite Forall_forall in Z. exact (Z _ Hin).
  - intros rows' H. destruct (HR rows' H) as [-> ->].
    rewrite app_nil_r in C. rewrite C.
    change (Paired (EvTime (clock E (tick w)) :: EvNewList :: body
                      ++ EvStop true :: wire off_command
                      :: after_switch_off meas_interval tg1 pits rows)).
    change (Paired ([EvTime (clock E (tick w)); EvNewList]
                      ++ body
                      ++ [EvStop true; wire off_command]
                      ++ after_switch_off meas_interval tg1 pits rows)).
    apply Paired_app; [reflexivity|]. apply Paired_app; [exact PB|].
    apply Paired_app; [reflexivity | exact PA].
Qed.

(** X2.  The first column of the array returned holds the clock readings of
    the passes, as [time.time()] gave them: nothing is subtracted from
    them.  The clock is read once in every pass of either loop, and
    twice more: at the start of the call ([t0]) and right after the
    switch-off command and its beeps (the reference of the second loop);
    these two readings are in no row.  The rows of the passes of the
    first loop come first, those of the second loop after them. *)
Theorem rows_hold_clock_readings fuel w rows :
  fst (run fuel w) = Ret rows ->
  let tr := trace_since w (snd (run fuel w)) in
  exists pre post ts1 tg1 ts2,
    tr = pre ++ EvStop true :: wire off_command :: post /\
    ~ In (EvStop true) pre /\
    readings pre = clock E (tick w) :: ts1 /\
    readings post = tg1 :: ts2 /\
    map row_time rows = ts1 ++ ts2 /\
    map timestamp (appended pre) = ts1 /\
    map timestamp (appended post) = ts2.
Proof.
  intros H tr.
  destruct (run_cut E format_volt float_of_bytes turn_on_time
              turn_on_voltage turn_off_time_meas turn_off_voltage
              meas_interval fuel w)
    as (rows' & body & tg1 & pits & l' & C & B & _ & HR).
  destruct (HR rows H) as [-> <-]. rewrite app_nil_r in C. fold tr in C.
  destruct (Body_facts B) as (_ & CB & _).
  destruct (after_facts meas_interval tg1 pits rows) as (_ & RA & AA & _).
  destruct (run_ret E format_volt float_of_bytes turn_on_time
              turn_on_voltage turn_off_time_meas turn_off_voltage
              meas_interval fuel w H) as (mid & _ & _ & A & Y & _).
  fold tr in A.
  exists (EvTime (clock E (tick w)) :: EvNewList :: body),
    (after_switch_off meas_interval tg1 pits rows),
    (readings body), tg1, (map it_time pits).
  split; [exact C|]. split; [|split; [|split; [|split; [|split]]]].
  - apply none_absent with (f := is_stop_true); [|reflexivity].
    do 2 (apply Forall_cons; [reflexivity|]).
    eapply Body_no_stop_true. exact B.
  - reflexivity.
  - exact RA.
  - rewrite (rows_of_samples_times _ _ Y), <- A, C.
    cbn [appended]. rewrite appended_app. cbn [appended wire].
    unfold Clocked in CB.
    rewrite map_app, AA, <- CB, map_map. reflexivity.
  - cbn [appended]. symmetry. exact CB.
  - rewrite AA, map_map. reflexivity.
Qed.



End MoreRuns.

(** ** Running a computation step by step *)

Lemma bind_Ret A B (m : M A) (f : A -> M B) w a w' :
  m w = (Ret a, w') -> bind m f w = f a w'.
Proof. intros H. unfold bind. rewrite H. reflexivity. Qed.

Lemma bind_Raise A B (m : M A) (f : A -> M B) w e w' :
  m w = (Raise e, w') -> bind m f w = (Raise e, w').
Proof. intros H. unfold bind. rewrite H. reflexivity. Qed.

Lemma bind_OutOfFuel A B (m : M A) (f : A -> M B) w w' :
  m w = (OutOfFuel, w') -> bind m f w = (OutOfFuel, w').
Proof. intros H. unfold bind. rewrite H. reflexivity. Qed.

Lemma bind_assoc A B C (m : M A) (f : A -> M B) (g : B -> M C) w :
  bind (bind m f) g w = bind m (fun a => bind (f a) g) w.
Proof. unfold bind. destruct (m w) as [[a|e|] w1]; reflexivity. Qed.

(** An event that is neither a message to or from the instrument nor a
    sample. *)
Definition silent (e : Event) : Prop :=
  match e with
  | EvSend _ | EvRecv _ _ | EvAppend _ => False
  | _ => True
  end.

Section DeadLink.

Variable E : Env.
Variable Volt : Type.
Variable format_volt : Volt -> string.
Variable float_of_bytes : bytes -> option Q.
Variable turn_on_time : Q.
Variable turn_on_voltage : Volt.
Variable turn_off_time_meas : Q.
Variable turn_off_voltage : Volt.
Variable meas_interval : Q.

Local Abbreviation run :=
  (run_measurement E format_volt float_of_bytes turn_on_time
     turn_on_voltage turn_off_time_meas turn_off_voltage meas_interval).

Lemma write_refused command w :
  link_down E (tick w) = true ->
  write E command w = (Raise OSError, advance E w).
Proof.
  intros H. unfold write, socket_sendall. rewrite H. reflexivity.
Qed.

Lemma run_refused fuel w :
  (forall k, (tick w <= k)%nat -> link_down E k = true) ->
  (1 <= fuel)%nat ->
  let r := run fuel w in
  let tr := trace_since w (snd r) in
  fst r = Raise OSError /\
  Forall silent tr /\
  datapoints (snd r) = PyList [].
Proof.
  intros LD Hf r tr. destruct fuel as [|f]; [lia|].
  assert (H3 : link_down E (S (S (S (tick w)))) = true) by (apply LD; lia).
  assert (H4 : link_down E (S (S (S (S (tick w))))) = true)
    by (apply LD; lia).
  assert (R : exists l,
             fst r = Raise OSError /\ log (snd r) = log w ++ l /\
             Forall silent l /\
             datapoints (snd r) = PyList []).
  { unfold r, run_measurement. cbn [sampling_loop].
    erewrite bind_Ret by reflexivity.
    erewrite bind_Ret by reflexivity.
    rewrite bind_assoc.
    erewrite bind_Ret by reflexivity.
    destruct (stoptrigger _).
    - erewrite bind_Ret by reflexivity.
      erewrite bind_Raise by (apply write_refused; exact H3).
      eexists. split; [reflexivity|]. split.
      + simpl. rewrite <- !app_assoc. reflexivity.
      + split; [repeat constructor | reflexivity].
    - rewrite bind_assoc. erewrite bind_Ret by reflexivity.
      rewrite bind_assoc.
      destruct (negb false && _).
      + rewrite bind_assoc.
        erewrite bind_Raise by (apply write_refused; exact H4).
        eexists. split; [reflexivity|]. split.
        * simpl. rewrite <- !app_assoc. reflexivity.
        * split; [repeat constructor | reflexivity].
      + erewrite bind_Ret by reflexivity.
        unfold measure, query. rewrite !bind_assoc.
        erewrite bind_Raise by (apply write_refused; exact H4).
        eexists. split; [reflexivity|]. split.
        * simpl. rewrite <- !app_assoc. reflexivity.
        * split; [repeat constructor | reflexivity]. }
  destruct R as (l & R1 & R2 & R3 & R4).
  split; [exact R1|]. split; [|exact R4].
  unfold tr. rewrite (trace_since_app _ _ _ R2). exact R3.
Qed.

(** X5.  On a link that is down for good, a call of [run_measurement] raises
    [OSError] in its first pass, or at the switch-off command if the
    flag is already set.  Nothing has been sent and no sample has been
    taken by then, but [self.datapoints] has already been bound to a
    new, empty list: the samples of an earlier run are no longer
    there. *)
Theorem run_on_dead_link fuel w :
  (forall k, (tick w <= k)%nat -> link_down E k = true) ->
  (1 <= fuel)%nat ->
  let r := run fuel w in
  let tr := trace_since w (snd r) in
  fst r = Raise OSError /\
  Forall silent tr /\
  datapoints (snd r) = PyList [].
Proof. apply run_refused. Qed.

End DeadLink.

(** A history without operations on [self.datapoints] leaves it as it
    is. *)
Lemma replay_silent l d : none is_datapoints_event l -> replay l d = d.
Proof.
  intros H. revert d. induction H as [|e l He _ IH]; intros d; [reflexivity|].
  destruct e; simpl in *; try discriminate; apply IH.
Qed.

Section Measure.

Variable E : Env.

(** [measure] makes at most four operations. *)
Lemma measure_cost w : (tick (snd (measure E w)) <= 4 + tick w)%nat.
Proof.
  unfold measure, query, write, socket_sendall, socket_recv, bind.
  destruct (link_down E (tick w)); [simpl; lia|].
  cbn [fst snd tick advance emit].
  destruct (link_down E (S (tick w))); [simpl; lia|].
  cbn [fst snd tick advance emit with_inbuf ret].
  destruct (link_down E (S (S (tick w)))); [simpl; lia|].
  cbn [fst snd tick advance emit with_inbuf ret].
  destruct (link_down E (S (S (S (tick w))))); simpl; lia.
Qed.

Lemma measure_finishes w : fst (measure E w) <> OutOfFuel.
Proof.
  unfold measure, query, write, socket_sendall, socket_recv, bind.
  destruct (link_down E (tick w)); [discriminate|].
  cbn [fst snd tick advance emit].
  destruct (link_down E (S (tick w))); [discriminate|].
  cbn [fst snd tick advance emit with_inbuf ret].
  destruct (link_down E (S (S (tick w)))); [discriminate|].
  cbn [fst snd tick advance emit with_inbuf ret].
  destruct (link_down E (S (S (S (tick w))))); discriminate.
Qed.


End Measure.

Section Rerun.

Variable E : Env.
Variable Volt : Type.
Variable format_volt : Volt -> string.
Variable float_of_bytes : bytes -> option Q.

(** The arguments of a first call and of a second one. *)
Variable turn_on_time : Q.
Variable turn_on_voltage : Volt.
Variable turn_off_time_meas : Q.
Variable turn_off_voltage : Volt.
Variable meas_interval : Q.
Variable turn_on_time' : Q.
Variable turn_on_voltage' : Volt.
Variable turn_off_time_meas' : Q.
Variable turn_off_voltage' : Volt.
Variable meas_interval' : Q.

Local Abbreviation first_run :=
  (run_measurement E format_volt float_of_bytes turn_on_time
     turn_on_voltage turn_off_time_meas turn_off_voltage meas_interval).
Local Abbreviation second_run :=
  (run_measurement E format_volt float_of_bytes turn_on_time'
     turn_on_voltage' turn_off_time_meas' turn_off_voltage' meas_interval').

(** X7.  [run_measurement] does not put the flag back.  A call that has
    returned leaves [self.stoptrigger] set, unless the external actor
    clears it; a second call on the same object, made while nobody has
    cleared the flag, therefore never reads it as false and makes no
    pass of its first loop: when it returns, it has read the clock,
    bound the new list, read the flag as true, written its switch-off
    command and sampled in its second loop only. *)
Theorem second_run_skips_first_loop fuel fuel' w rows :
  fst (first_run fuel w) = Ret rows ->
  (forall k, (tick w <= k)%nat -> stop_writer E k <> Some false) ->
  let w1 := snd (first_run fuel w) in
  let tr := trace_since w1 (snd (second_run fuel' w1)) in
  stoptrigger w1 = true /\
  ~ In (EvStop false) tr /\
  (forall rows',
      fst (second_run fuel' w1) = Ret rows' ->
      exists tg1 pits,
        tr = EvTime (clock E (tick w1)) :: EvNewList :: EvStop true
               :: wire (switch_off_command format_volt turn_off_voltage')
               :: after_switch_off meas_interval' tg1 pits rows').
Proof.
  intros H W w1 tr.
  assert (T : (tick w <= tick w1)%nat).
  { apply (Steps_run_measurement E float_of_bytes format_volt turn_on_time
             turn_on_voltage turn_off_time_meas turn_off_voltage
             meas_interval fuel w). }
  assert (F : stoptrigger w1 = true).
  { destruct (run_dictation E format_volt float_of_bytes turn_on_time
                turn_on_voltage turn_off_time_meas turn_off_voltage
                meas_interval fuel w) as [D R].
    rewrite H in R.
    change (stoptrigger w1) with (o_flag (outside w1)). unfold w1.
    rewrite R. apply dictated_flag_read; [exact W | exact D|].
    destruct (run_from_stop E format_volt float_of_bytes turn_on_time
                turn_on_voltage turn_off_time_meas turn_off_voltage
                meas_interval fuel w) as (rows' & tg1 & pits & r' & _ & _ & X).
    destruct (X rows H) as [_ C]. rewrite C.
    apply in_or_app. right. left. reflexivity. }
  assert (N : ~ In (EvStop false) tr).
  { destruct (run_dictation E format_volt float_of_bytes turn_on_time'
                turn_on_voltage' turn_off_time_meas' turn_off_voltage'
                meas_interval' fuel' w1) as [D _].
    destruct (@dictated_flag_kept E true tr (outside w1)) as [K _];
      [|exact F|exact D|exact K].
    intros k Hk. apply W. simpl in Hk. lia. }
  split; [exact F|]. split; [exact N|].
  intros rows' H'.
  destruct (run_cut E format_volt float_of_bytes turn_on_time'
              turn_on_voltage' turn_off_time_meas' turn_off_voltage'
              meas_interval' fuel' w1)
    as (rows2 & body & tg1 & pits & l' & C & B & _ & HR).
  destruct (HR rows' H') as [-> <-]. rewrite app_nil_r in C. fold tr in C.
  exists tg1, pits. rewrite C.
  assert (Z : body = []).
  { destruct B as [its _ | its1 it its2 _ _].
    - destruct its as [|it its]; [reflexivity|].
      exfalso. apply N. rewrite C. right. right. left. reflexivity.
    - exfalso. apply N. rewrite C. right. right.
      apply in_or_app. left. apply in_or_app. right. left. reflexivity. }
  rewrite Z. reflexivity.
Qed.

End Rerun.

(** ** Fuel

    The fuel of the two loops stands for the time the call is left to
    run.  A computation [Finishes] if it never runs out of it; [m']
    [Extends m] if it does what [m] does wherever [m] does not run out
    of fuel. *)

Definition Finishes {A} (m : M A) : Prop :=
  forall w, fst (m w) <> OutOfFuel.

Definition Extends {A} (m m' : M A) : Prop :=
  forall w, fst (m w) <> OutOfFuel -> m' w = m w.

Lemma Finishes_ret A (a : A) : Finishes (ret a).
Proof. intros w. discriminate. Qed.

Lemma Finishes_bind A B (m : M A) (f : A -> M B) :
  Finishes m -> (forall a, Finishes (f a)) -> Finishes (bind m f).
Proof.
  intros Hm Hf w. unfold bind. specialize (Hm w).
  destruct (m w) as [[a|e|] w1]; simpl in *.
  - apply Hf.
  - discriminate.
  - exfalso. apply Hm. reflexivity.
Qed.

Lemma ends_bind A B (m : M A) (f : A -> M B) w :
  fst (m w) <> OutOfFuel ->
  (forall a w1, m w = (Ret a, w1) -> fst (f a w1) <> OutOfFuel) ->
  fst (bind m f w) <> OutOfFuel.
Proof.
  intros Hm Hf. unfold bind.
  destruct (m w) as [[a|e|] w1]; simpl in *.
  - apply Hf. reflexivity.
  - discriminate.
  - exfalso. apply Hm. reflexivity.
Qed.

Lemma Extends_refl A (m : M A) : Extends m m.
Proof. intros w _. reflexivity. Qed.

Lemma Extends_bind A B (m m' : M A) (f f' : A -> M B) :
  Extends m m' -> (forall a, Extends (f a) (f' a)) ->
  Extends (bind m f) (bind m' f').
Proof.
  intros Hm Hf w H. unfold bind in *.
  assert (N : fst (m w) <> OutOfFuel).
  { intros C. apply H. destruct (m w) as [[a|e|] w1]; simpl in *;
      try discriminate. reflexivity. }
  rewrite (Hm w N). destruct (m w) as [[a|e|] w1]; try reflexivity.
  apply Hf. exact H.
Qed.

Section Fuel.

Variable E : Env.

Lemma Finishes_time_time : Finishes (time_time E).
Proof. intros w. discriminate. Qed.

Lemma Finishes_datapoints_new : Finishes (datapoints_new E).
Proof. intros w. discriminate. Qed.

Lemma Finishes_time_sleep secs : Finishes (time_sleep E secs).
Proof. intros w. unfold time_sleep. destruct (Qltb secs 0); discriminate. Qed.

Lemma Finishes_socket_sendall data : Finishes (socket_sendall E data).
Proof.
  intros w. unfold socket_sendall. destruct (link_down E (tick w));
    discriminate.
Qed.

Lemma Finishes_socket_recv n : Finishes (socket_recv E n).
Proof.
  intros w. unfold socket_recv. destruct (link_down E (tick w));
    discriminate.
Qed.

Lemma Finishes_datapoints_append s : Finishes (datapoints_append E s).
Proof.
  intros w. unfold datapoints_append. destruct (datapoints w); discriminate.
Qed.

Lemma Finishes_datapoints_to_array fob :
  Finishes (datapoints_to_array E fob).
Proof.
  intros w. unfold datapoints_to_array.
  destruct (datapoints w) as [smp|rows]; [|discriminate].
  destruct (rows_of_samples fob smp); discriminate.
Qed.

Lemma Finishes_write command : Finishes (write E command).
Proof. apply Finishes_socket_sendall. Qed.

Lemma Finishes_query command n : Finishes (query E command n).
Proof.
  unfold query. apply Finishes_bind; [apply Finishes_write | intros _].
  apply Finishes_bind; [apply Finishes_socket_recv | intros d].
  apply Finishes_ret.
Qed.

Lemma Finishes_beep_up : Finishes (beep_up E).
Proof.
  unfold beep_up.
  do 4 (apply Finishes_bind; [apply Finishes_write | intros _]).
  apply Finishes_write.
Qed.

Lemma Finishes_beep_dn : Finishes (beep_dn E).
Proof.
  unfold beep_dn.
  do 4 (apply Finishes_bind; [apply Finishes_write | intros _]).
  apply Finishes_write.
Qed.

Lemma Finishes_measure : Finishes (measure E).
Proof.
  unfold measure.
  apply Finishes_bind; [apply Finishes_query | intros c].
  apply Finishes_bind; [apply Finishes_query | intros v].
  apply Finishes_ret.
Qed.

Variable Volt : Type.
Variable format_volt : Volt -> string.
Variable float_of_bytes : bytes -> option Q.
Variable turn_on_time : Q.
Variable turn_on_voltage : Volt.
Variable turn_off_time_meas : Q.
Variable turn_off_voltage : Volt.
Variable meas_interval : Q.

Local Abbreviation run :=
  (run_measurement E format_volt float_of_bytes turn_on_time
     turn_on_voltage turn_off_time_meas turn_off_voltage meas_interval).
Local Abbreviation sampling :=
  (sampling_loop E format_volt turn_on_time turn_on_voltage meas_interval).
Local Abbreviation post_off :=
  (post_off_loop E turn_off_time_meas meas_interval).
Local Abbreviation off_command :=
  (switch_off_command format_volt turn_off_voltage).
Local Abbreviation Stepped := (Step E float_of_bytes).

(** More fuel does not change a run that has ended. *)
Lemma sampling_loop_fuel fuel fuel' t0 switched :
  (fuel <= fuel')%nat ->
  Extends (sampling fuel t0 switched) (sampling fuel' t0 switched).
Proof.
  revert fuel' switched. induction fuel as [|f IH]; intros fuel' sw Hf.
  - intros w H. exfalso. apply H. reflexivity.
  - destruct fuel' as [|f']; [lia|]. cbn [sampling_loop].
    apply Extends_bind; [apply Extends_refl | intros stop].
    destruct stop; [apply Extends_refl|].
    apply Extends_bind; [apply Extends_refl | intros t_global].
    apply Extends_bind; [apply Extends_refl | intros sw'].
    apply Extends_bind; [apply Extends_refl | intros [c v]].
    apply Extends_bind; [apply Extends_refl | intros _].
    apply Extends_bind; [apply Extends_refl | intros _].
    apply IH. lia.
Qed.

Lemma post_off_loop_fuel fuel fuel' t0 t1 t :
  (fuel <= fuel')%nat ->
  Extends (post_off fuel t0 t1 t) (post_off fuel' t0 t1 t).
Proof.
  revert fuel' t. induction fuel as [|f IH]; intros fuel' t Hf.
  - intros w H. exfalso. apply H. reflexivity.
  - destruct fuel' as [|f']; [lia|]. cbn [post_off_loop].
    destruct (Qltb t _); [|apply Extends_refl].
    apply Extends_bind; [apply Extends_refl | intros t_global].
    apply Extends_bind; [apply Extends_refl | intros [c v]].
    apply Extends_bind; [apply Extends_refl | intros _].
    apply Extends_bind; [apply Extends_refl | intros _].
    apply IH. lia.
Qed.

Lemma run_measurement_fuel fuel fuel' :
  (fuel <= fuel')%nat -> Extends (run fuel) (run fuel').
Proof.
  intros Hf. unfold run_measurement.
  apply Extends_bind; [apply Extends_refl | intros t0].
  apply Extends_bind; [apply Extends_refl | intros _].
  apply Extends_bind; [apply sampling_loop_fuel; exact Hf | intros _].
  apply Extends_bind; [apply Extends_refl | intros _].
  apply Extends_bind; [apply Extends_refl | intros _].
  apply Extends_bind; [apply Extends_refl | intros t_global].
  apply Extends_bind; [apply post_off_loop_fuel; exact Hf | intros _].
  apply Extends_refl.
Qed.

(** What a reading of the flag gives. *)
Lemma flag_read w0 w :
  Stepped w0 w -> stoptrigger (advance E w) = flag_seen E w0 (tick w).
Proof.
  intros S.
  destruct (Step_trans S (Step_advance E float_of_bytes w)) as [_ F _].
  exact F.
Qed.

(** The end of a pass of either loop, up to the next pass. *)
Lemma pass_ends A (K : M A) t_global w0 w (T : nat) :
  Stepped w0 w -> (T <= tick w)%nat ->
  (forall w', Stepped w0 w' -> (T <= tick w')%nat ->
              fst (K w') <> OutOfFuel) ->
  fst (bind (measure E)
         (fun cv =>
            match cv with
            | (current, voltage) =>
                bind (datapoints_append E (t_global, current, voltage))
                  (fun _ => bind (time_sleep E meas_interval) (fun _ => K))
            end) w) <> OutOfFuel.
Proof.
  intros S0 T0 HK.
  apply ends_bind; [apply Finishes_measure | intros [c v] w1 R1].
  pose proof (Steps_measure E float_of_bytes w) as S1.
  rewrite R1 in S1. simpl in S1.
  apply ends_bind; [apply Finishes_datapoints_append | intros [] w2 R2].
  pose proof (Steps_datapoints_append E float_of_bytes (t_global, c, v) w1)
    as S2.
  rewrite R2 in S2. simpl in S2.
  apply ends_bind; [apply Finishes_time_sleep | intros [] w3 R3].
  pose proof (Steps_time_sleep E float_of_bytes meas_interval w2) as S3.
  rewrite R3 in S3. simpl in S3.
  apply HK.
  - eapply Step_trans; [|exact S3]. eapply Step_trans; [|exact S2].
    eapply Step_trans; [exact S0 | exact S1].
  - destruct S1 as [X1 _ _]. destruct S2 as [X2 _ _].
    destruct S3 as [X3 _ _]. lia.
Qed.

(** The first loop ends once the flag is set for good. *)
Lemma sampling_loop_ends N w0 :
  (forall k, (N <= k)%nat -> flag_seen E w0 k = true) ->
  forall fuel w t0 switched,
    Stepped w0 w -> (1 <= fuel)%nat -> (N < tick w + fuel)%nat ->
    fst (sampling fuel t0 switched w) <> OutOfFuel.
Proof.
  intros HN. induction fuel as [|f IH]; intros w t0 sw S0 F1 FN; [lia|].
  cbn [sampling_loop]. erewrite bind_Ret by reflexivity.
  pose proof (flag_read S0) as Fl.
  pose proof (Steps_get_stoptrigger E float_of_bytes w) as S1.
  unfold get_stoptrigger in S1. cbn [snd] in S1.
  destruct (stoptrigger (advance E w)); [discriminate|].
  assert (TN : (tick w < N)%nat).
  { destruct (le_lt_dec N (tick w)) as [C|C]; [|exact C].
    rewrite (HN _ C) in Fl. discriminate. }
  set (w1 := emit (EvStop false) (advance E w)) in *.
  assert (S01 : Stepped w0 w1) by (eapply Step_trans; eassumption).
  assert (T1 : (S (tick w) <= tick w1)%nat) by (simpl; lia).
  erewrite bind_Ret by reflexivity.
  set (w2 := emit _ (advance E w1)).
  assert (S02 : Stepped w0 w2).
  { eapply Step_trans; [exact S01|].
    apply (Steps_time_time E float_of_bytes w1). }
  assert (T2 : (S (tick w) <= tick w2)%nat) by (simpl; lia).
  apply ends_bind.
  - destruct (negb sw && _); [|discriminate].
    apply Finishes_bind; [apply Finishes_write | intros _].
    apply Finishes_bind; [apply Finishes_beep_up | intros _].
    apply Finishes_ret.
  - intros sw' w3 R3.
    assert (S23 : Stepped w2 w3).
    { destruct (negb sw && _).
      - change w3 with (snd (Ret sw', w3)). rewrite <- R3.
        apply Steps_bind; [apply Steps_write | intros _].
        apply Steps_bind; [apply Steps_beep_up | intros _].
        apply Steps_ret.
      - injection R3 as _ <-. apply Step_refl. }
    apply pass_ends with (w0 := w0) (T := S (tick w)).
    + eapply Step_trans; eassumption.
    + destruct S23 as [X _ _]. lia.
    + intros w' S' T'. apply IH; [exact S' | lia | lia].
Qed.

(** The second loop ends once the clock has passed its bound. *)
Lemma post_off_loop_ends K t0 t1 w0 :
  (forall k, (K <= k)%nat -> t1 + turn_off_time_meas <= clock E k - t0) ->
  forall fuel w t,
    Stepped w0 w -> (1 <= fuel)%nat ->
    (Qltb t (t1 + turn_off_time_meas) = true ->
     (2 <= fuel)%nat /\ (K + 2 <= tick w + fuel)%nat) ->
    fst (post_off fuel t0 t1 t w) <> OutOfFuel.
Proof.
  intros HK. induction fuel as [|f IH]; intros w t S0 F1 F2; [lia|].
  cbn [post_off_loop].
  destruct (Qltb t (t1 + turn_off_time_meas)) eqn:T; [|discriminate].
  destruct (F2 eq_refl) as [G2 GK].
  erewrite bind_Ret by reflexivity.
  set (w1 := emit _ (advance E w)).
  assert (S01 : Stepped w0 w1).
  { eapply Step_trans; [exact S0|].
    apply (Steps_time_time E float_of_bytes w). }
  apply pass_ends with (w0 := w0) (T := S (tick w)).
  - exact S01.
  - simpl. lia.
  - intros w' S' T'. apply IH; [exact S' | lia|].
    intros T2.
    assert (TK : (tick w < K)%nat).
    { destruct (le_lt_dec K (tick w)) as [C|C]; [|exact C].
      specialize (HK _ C). apply Qle_bool_iff in HK.
      unfold Qltb in T2. rewrite HK in T2. discriminate. }
    lia.
Qed.


End Fuel.

(** ** Commands sent one after the other *)

Import Instrument.

(** The computation [write c1 ;; ... ;; write cn]. *)
Fixpoint write_all (E : Env) (cs : list string) : M unit :=
  match cs with
  | [] => ret tt
  | c :: cs' =>
      match cs' with
      | [] => write E c
      | _ :: _ => bind (write E c) (fun _ => write_all E cs')
      end
  end.

(** The commands are written in order up to the first one that the link
    refuses, and all of them if it refuses none. *)
Lemma write_all_outcome E cs w :
  cs <> [] ->
  exists n,
    (n <= List.length cs)%nat /\
    log (snd (write_all E cs w)) = log w ++ map wire (firstn n cs) /\
    inbuf (snd (write_all E cs w)) = inbuf w /\
    datapoints (snd (write_all E cs w)) = datapoints w /\
    (forall i, (i < n)%nat -> link_down E (tick w + i) = false) /\
    match fst (write_all E cs w) with
    | Ret _ =>
        n = List.length cs /\
        tick (snd (write_all E cs w)) = (tick w + n)%nat
    | Raise e =>
        e = OSError /\ (n < List.length cs)%nat /\
        link_down E (tick w + n) = true /\
        tick (snd (write_all E cs w)) = S (tick w + n)
    | OutOfFuel => False
    end.
Proof.
  revert w. induction cs as [|c cs IH]; intros w H; [congruence|].
  destruct (link_down E (tick w)) eqn:L.
  - assert (Wc : write E c w = (Raise OSError, advance E w)).
    { unfold write, socket_sendall. rewrite L. reflexivity. }
    assert (R : write_all E (c :: cs) w = (Raise OSError, advance E w)).
    { destruct cs; [exact Wc|].
      change (write_all E (c :: s :: cs))
        with (bind (write E c) (fun _ => write_all E (s :: cs))).
      apply bind_Raise. exact Wc. }
    rewrite R. exists 0%nat. cbn [firstn map fst snd].
    rewrite app_nil_r, Nat.add_0_r.
    split; [simpl; lia|]. split; [reflexivity|]. split; [reflexivity|].
    split; [reflexivity|]. split; [intros i Hi; lia|].
    split; [reflexivity|]. split; [simpl; lia|]. split; [exact L|].
    reflexivity.
  - assert (Wc : write E c w = (Ret tt, emit (wire c) (advance E w))).
    { unfold write, socket_sendall. rewrite L. reflexivity. }
    destruct cs as [|c' cs].
    + cbn [write_all]. rewrite Wc. exists 1%nat. cbn [firstn map fst snd].
      split; [simpl; lia|]. split; [reflexivity|]. split; [reflexivity|].
      split; [reflexivity|]. split.
      * intros i Hi. replace i with 0%nat by lia. rewrite Nat.add_0_r.
        exact L.
      * split; [reflexivity|]. simpl. lia.
    + change (write_all E (c :: c' :: cs))
        with (bind (write E c) (fun _ => write_all E (c' :: cs))).
      erewrite bind_Ret by exact Wc.
      set (w1 := emit (wire c) (advance E w)).
      destruct (IH w1) as (n & N & W1 & W2 & W3 & U & R); [discriminate|].
      exists (S n). split; [cbn [List.length] in *; lia|]. split.
      { rewrite W1. unfold w1. simpl. rewrite <- app_assoc. reflexivity. }
      split; [rewrite W2; reflexivity|]. split; [rewrite W3; reflexivity|].
      split.
      { intros i Hi. destruct i as [|i].
        - rewrite Nat.add_0_r. exact L.
        - specialize (U i). simpl in U.
          replace (tick w + S i)%nat with (S (tick w + i)) by lia.
          apply U. lia. }
      change (tick w1) with (S (tick w)) in R.
      destruct (fst (write_all E (c' :: cs) w1)).
      * destruct R as [R1 R2]. cbn [List.length] in *.
        split; [lia|]. rewrite R2. lia.
      * destruct R as (R1 & R2 & R3 & R4). cbn [List.length] in *.
        split; [exact R1|]. split; [lia|].
        replace (tick w + S n)%nat with (S (tick w) + n)%nat by lia.
        split; [exact R3|]. rewrite R4. reflexivity.
      * exact R.
Qed.

(** Different commands leave different events. *)
Lemma wire_inj c c' : wire c = wire c' -> c = c'.
Proof.
  unfold wire. intros H. injection H as H.
  rewrite !encode_app in H. apply app_inv_tail in H.
  apply (f_equal string_of_list_byte) in H. unfold encode in H.
  rewrite !string_of_list_byte_of_string in H. exact H.
Qed.

Lemma beep_up_all E : beep_up E = write_all E
  [":SYST:BEEP:STAT ON"; ":SYST:BEEP 800, 0.1"; ":SYST:BEEP 1000, 0.1";
   ":SYST:BEEP 1200, 0.1"; ":SYST:BEEP 1600, 0.4"]%string.
Proof. reflexivity. Qed.

Section SetupFacts.

Variable E : Env.
Variable Volt : Type.
Variable format_volt : Volt -> string.
Variable DateTime : Type.
Variable now : nat -> DateTime.
Variable strftime : DateTime -> string -> string.

Local Abbreviation setup := (Instrument.setup E format_volt now strftime).

(** The commands of [setup], given the texts of its four fields. *)
Definition setup_commands (date time voltage aperture : string)
  : list string :=
  ["*RST"; ":SYST:DATE " ++ date; ":SYST:TIME " ++ time;
   ":SOUR:FUNC VOLT"; ":SOUR:VOLT " ++ voltage; ":SENS:FUNC 'CURR'";
   ":SENS:VOLT:PROT 10"; ":SENS:CURR:PROT 0.1";
   ":SENS:CURR:APER " ++ aperture; ":OUTP ON"]%string.

Lemma setup_unfold voltage measurement_time auto_sensitivity curr_range w :
  link_down E (tick w) = false ->
  setup voltage measurement_time auto_sensitivity curr_range w =
  write_all E
    (tl (setup_commands
           (strftime (now (S (tick w))) "%Y,%m,%d")
           (strftime (now (S (tick w))) "%H,%M,%S")
           (format_volt voltage) (format_0_3f measurement_time)))
    (advance E (emit (wire "*RST") (advance E w))).
Proof.
  intros L. unfold Instrument.setup, reset.
  erewrite bind_Ret
    by (unfold write, socket_sendall; rewrite L; reflexivity).
  erewrite bind_Ret by reflexivity. reflexivity.
Qed.

(** The history of [setup]: its commands up to the first that the link
    refuses. *)
Lemma setup_history voltage measurement_time auto_sensitivity curr_range w :
  let r := setup voltage measurement_time auto_sensitivity curr_range w in
  let d := now (S (tick w)) in
  let commands :=
    setup_commands (strftime d "%Y,%m,%d") (strftime d "%H,%M,%S")
      (format_volt voltage) (format_0_3f measurement_time) in
  exists n,
    trace_since w (snd r) = map wire (firstn n commands) /\
    datapoints (snd r) = datapoints w /\
    match fst r with
    | Ret _ => n = 10%nat
    | Raise e => e = OSError /\ (n < 10)%nat
    | OutOfFuel => False
    end.
Proof.
  intros r d commands.
  destruct (link_down E (tick w)) eqn:L.
  - exists 0%nat. unfold r, Instrument.setup, reset.
    erewrite bind_Raise
      by (unfold write, socket_sendall; rewrite L; reflexivity).
    split; [|split; [reflexivity|split; [reflexivity|lia]]].
    apply trace_since_app. simpl. rewrite app_nil_r. reflexivity.
  - unfold r. rewrite (setup_unfold _ _ _ _ _ L).
    fold d. fold commands.
    set (w1 := advance E (emit (wire "*RST") (advance E w))).
    destruct (@write_all_outcome E (tl commands) w1)
      as (n & N & W1 & _ & W3 & _ & R); [discriminate|].
    exists (S n). split; [|split].
    + apply trace_since_app. rewrite W1.
      unfold w1. simpl. rewrite <- app_assoc. reflexivity.
    + rewrite W3. reflexivity.
    + destruct (fst (write_all E (tl commands) w1)).
      * destruct R as [R _]. simpl in R. lia.
      * destruct R as (R1 & R2 & _). split; [exact R1|]. simpl in R2. lia.
      * exact R.
Qed.


(** What [format(x, "0.3f")] makes of a time below half a
    millisecond. *)
Lemma format_0_3f_small x :
  0 <= x -> x < 1 # 2000 -> format_0_3f x = "0.000"%string.
Proof.
  intros H0 H1. unfold format_0_3f.
  assert (S : Qltb x 0 = false).
  { unfold Qltb. apply negb_false_iff, Qle_bool_iff. exact H0. }
  rewrite S.
  assert (R : round_half_even (x * 1000) = 0%Z).
  { destruct x as [n d]. unfold Qle, Qlt in *. simpl in *.
    unfold round_half_even, Qmult. cbn [Qnum Qden]. rewrite Pos.mul_1_r.
    assert (C : (2 * ((n * 1000) mod Z.pos d) ?= Z.pos d)%Z = Lt).
    { rewrite Z.mod_small by lia. apply Z.compare_lt_iff. lia. }
    rewrite C. apply Z.div_small. lia. }
  rewrite R. reflexivity.
Qed.


End SetupFacts.

(** ** The object: what its methods keep and what they change *)

Lemma or_str_same s : or_str (Some s) s = s.
Proof. unfold or_str. destruct (String.eqb s ""); reflexivity. Qed.

(** Computations that leave [self.datapoints] alone. *)
Definition Quiet {A} (m : M A) : Prop :=
  forall w, datapoints (snd (m w)) = datapoints w.

Lemma Quiet_ret A (a : A) : Quiet (ret a).
Proof. intros w. reflexivity. Qed.

Lemma Quiet_bind A B (m : M A) (f : A -> M B) :
  Quiet m -> (forall a, Quiet (f a)) -> Quiet (bind m f).
Proof.
  intros Hm Hf w. unfold bind. specialize (Hm w).
  destruct (m w) as [[a|e|] w1]; simpl in *; try exact Hm.
  rewrite Hf. exact Hm.
Qed.

Lemma Quiet_write E c : Quiet (write E c).
Proof.
  intros w. unfold write, socket_sendall.
  destruct (link_down E (tick w)); reflexivity.
Qed.

Lemma Quiet_query E c n : Quiet (query E c n).
Proof.
  unfold query. apply Quiet_bind; [apply Quiet_write | intros _].
  apply Quiet_bind; [|intros d; apply Quiet_ret].
  intros w. unfold socket_recv. destruct (link_down E (tick w)); reflexivity.
Qed.

Lemma Quiet_beep_up E : Quiet (beep_up E).
Proof.
  unfold beep_up.
  do 4 (apply Quiet_bind; [apply Quiet_write | intros _]).
  apply Quiet_write.
Qed.

Lemma Quiet_beep_dn E : Quiet (beep_dn E).
Proof.
  unfold beep_dn.
  do 4 (apply Quiet_bind; [apply Quiet_write | intros _]).
  apply Quiet_write.
Qed.

Lemma Quiet_measure E : Quiet (measure E).
Proof.
  unfold measure.
  apply Quiet_bind; [apply Quiet_query | intros c].
  apply Quiet_bind; [apply Quiet_query | intros v]. apply Quiet_ret.
Qed.

Section ObjectFacts.

Variable E : Env.
Variable float_of_bytes : bytes -> option Q.

Local Abbreviation Stepped := (Step E float_of_bytes).

(** An operation that leaves no event. *)
Lemma Step_quiet w w' :
  tick w' = S (tick w) ->
  stoptrigger w' = stoptrigger (advance E w) ->
  log w' = log w ->
  datapoints w' = datapoints w ->
  Stepped w w'.
Proof.
  intros T F L D.
  apply Step_prim with (l := []) (ks := []); simpl; auto; try lia;
    try (rewrite app_nil_r; exact L).
Qed.

Lemma last_write_dead k n : last_write (dead E) k n = last_write E k n.
Proof.
  induction n as [|n IH]; [reflexivity|]. simpl. rewrite IH. reflexivity.
Qed.

(** What the flag, the clock and [self.datapoints] are concerned, a
    socket in any state is like the link. *)
Lemma Step_link s w w' :
  Step (link_of E s) float_of_bytes w w' -> Stepped w w'.
Proof.
  destruct s; try (intros H; exact H);
    intros [T F L]; (split; [exact T | | exact L]);
    rewrite <- last_write_dead; exact F.
Qed.

(** What every method keeps: the endpoint given to the constructor, a
    socket once there is one, and the flag, which only the external
    actor writes. *)
Definition Kept (o o' : Self) : Prop :=
  address o' = address o /\ port o' = port o /\
  (socket o <> None -> socket o' <> None) /\
  (timeout o' = timeout o \/ timeout o' = Some 5000%Z) /\
  Stepped (world o) (world o').

Lemma Kept_refl o : Kept o o.
Proof.
  split; [reflexivity|]. split; [reflexivity|]. split; [auto|].
  split; [left; reflexivity|]. apply Step_refl.
Qed.

Lemma Kept_trans o1 o2 o3 : Kept o1 o2 -> Kept o2 o3 -> Kept o1 o3.
Proof.
  intros (A1 & P1 & S1 & T1 & W1) (A2 & P2 & S2 & T2 & W2).
  split; [congruence|]. split; [congruence|]. split; [auto|].
  split.
  - destruct T2 as [T2 | T2]; [rewrite T2; exact T1 | right; exact T2].
  - eapply Step_trans; eassumption.
Qed.

Lemma call_kept A (m : Env -> M A) o :
  (forall E', Steps E' float_of_bytes (m E')) ->
  Kept o (snd (call E m o)) /\ socket (snd (call E m o)) = socket o.
Proof.
  intros H. unfold call. destruct (socket o) as [s|] eqn:So.
  - pose proof (H (link_of E s) (world o)) as S.
    destruct (m (link_of E s) (world o)) as [r w']. simpl in *.
    split; [|exact So].
    split; [reflexivity|]. split; [reflexivity|].
    split; [intros _; cbn [socket with_world]; rewrite So; discriminate|].
    split; [left; reflexivity|].
    eapply Step_link. exact S.
  - pose proof (H (dead E) (world o)) as S.
    assert (X : forall (r : Outcome A) w',
               Stepped (world o) w' ->
               Kept o (with_world w' o) /\ socket (with_world w' o) = None).
    { intros r w' Sw. split; [|exact So].
      split; [reflexivity|]. split; [reflexivity|].
      split; [intros C; exfalso; apply C; exact So|].
      split; [left; reflexivity | exact Sw]. }
    apply (Step_link Closed) in S.
    destruct (m (dead E) (world o)) as [[a|e|] w']; simpl in *.
    + apply (X (Ret a)). exact S.
    + destruct e; apply (X (Raise OSError)); exact S.
    + apply (X OutOfFuel). exact S.
Qed.

Lemma connect_kept a p o : Kept o (snd (connect E a p o)).
Proof.
  unfold connect, obind, socket_socket, socket_connect.
  destruct (link_down E (tick (world o))) eqn:L1; cbn [fst snd].
  - split; [reflexivity|]. split; [reflexivity|]. split; [auto|].
    split; [left; reflexivity|]. apply Step_advance.
  - cbn [socket with_socket with_world world tick with_inbuf advance].
    destruct (link_down E (S (tick (world o)))) eqn:L2; cbn [fst snd].
    + split; [reflexivity|]. split; [reflexivity|].
      split; [intros _; discriminate|]. split; [left; reflexivity|].
      eapply Step_trans with (w2 := with_inbuf [] (advance E (world o))).
      * apply Step_quiet; reflexivity.
      * apply Step_advance.
    + split; [reflexivity|]. split; [reflexivity|].
      split; [intros _; discriminate|]. split; [right; reflexivity|].
      eapply Step_trans with (w2 := with_inbuf [] (advance E (world o))).
      * apply Step_quiet; reflexivity.
      * apply Step_advance.
Qed.

Lemma close_kept o : Kept o (snd (close E o)).
Proof.
  unfold close. destruct (socket o) eqn:So; cbn [fst snd].
  - split; [reflexivity|]. split; [reflexivity|].
    split; [intros _; discriminate|]. split; [left; reflexivity|].
    apply Step_advance.
  - split; [reflexivity|]. split; [reflexivity|].
    split; [intros C; exfalso; apply C; exact So|].
    split; [left; reflexivity|]. apply Step_advance.
Qed.

Lemma ignore_snd A (m : Obj A) o : snd (ignore m o) = snd (m o).
Proof. unfold ignore. destruct (m o) as [[a|e|] o']; reflexivity. Qed.

Section Calls.

Variable Volt : Type.
Variable format_volt : Volt -> string.
Variable DateTime : Type.
Variable now : nat -> DateTime.
Variable strftime : DateTime -> string -> string.

Local Abbreviation perform :=
  (Instrument.perform E format_volt now strftime float_of_bytes).
Local Abbreviation session :=
  (Instrument.session E format_volt now strftime float_of_bytes).

Lemma Steps_setup E' v t a c :
  Steps E' float_of_bytes (setup E' format_volt now strftime v t a c).
Proof.
  unfold setup, reset.
  apply Steps_bind; [apply Steps_write | intros _].
  apply Steps_bind; [intros w; apply Step_advance | intros d].
  do 8 (apply Steps_bind; [apply Steps_write | intros _]).
  apply Steps_write.
Qed.

Lemma perform_kept c o : Kept o (snd (perform c o)).
Proof.
  destruct c; cbn [Instrument.perform]; rewrite ?ignore_snd.
  - apply connect_kept.
  - apply call_kept. intros E'. apply Steps_write.
  - apply call_kept. intros E'. apply Steps_query.
  - apply close_kept.
  - apply call_kept. intros E'. apply Steps_beep_up.
  - apply call_kept. intros E'. apply Steps_beep_dn.
  - apply call_kept. intros E'. apply Steps_write.
  - apply call_kept. intros E'. apply Steps_setup.
  - apply call_kept. intros E'. apply Steps_measure.
  - apply call_kept. intros E'. apply Steps_run_measurement.
Qed.

Lemma session_kept cs o : Kept o (session cs o).
Proof.
  revert o. induction cs as [|c cs IH]; intros o; [apply Kept_refl|].
  cbn [Instrument.session fold_left].
  eapply Kept_trans; [apply perform_kept | apply IH].
Qed.

Lemma Quiet_setup E' v t a c :
  Quiet (setup E' format_volt now strftime v t a c).
Proof.
  unfold setup, reset.
  apply Quiet_bind; [apply Quiet_write | intros _].
  apply Quiet_bind; [intros w; reflexivity | intros d].
  do 8 (apply Quiet_bind; [apply Quiet_write | intros _]).
  apply Quiet_write.
Qed.

Lemma call_quiet A (m : Env -> M A) o :
  (forall E', Quiet (m E')) ->
  datapoints (world (snd (call E m o))) = datapoints (world o).
Proof.
  intros H. unfold call. destruct (socket o) as [s|].
  - specialize (H (link_of E s) (world o)).
    destruct (m (link_of E s) (world o)) as [r w']. exact H.
  - specialize (H (dead E) (world o)).
    destruct (m (dead E) (world o)) as [[x|e|] w']; try exact H.
    destruct e; exact H.
Qed.

(** A call of [run_measurement]. *)
Definition is_run (c : Call Volt) : bool :=
  match c with RunMeasurement _ _ _ _ _ _ => true | _ => false end.

Lemma perform_quiet c o :
  is_run c = false ->
  datapoints (world (snd (perform c o))) = datapoints (world o).
Proof.
  destruct c; cbn [Instrument.perform is_run]; rewrite ?ignore_snd;
    intros H; try discriminate.
  - unfold connect, obind, socket_socket, socket_connect.
    destruct (link_down E (tick (world o))); cbn [fst snd];
      [reflexivity|].
    cbn [socket with_socket with_world world tick with_inbuf advance].
    destruct (link_down E (S (tick (world o)))); reflexivity.
  - apply call_quiet. intros E'. apply Quiet_write.
  - apply call_quiet. intros E'. apply Quiet_query.
  - unfold close. destruct (socket o); reflexivity.
  - apply call_quiet. intros E'. apply Quiet_beep_up.
  - apply call_quiet. intros E'. apply Quiet_beep_dn.
  - apply call_quiet. intros E'. apply Quiet_write.
  - apply call_quiet. intros E'. apply Quiet_setup.
  - apply call_quiet. intros E'. apply Quiet_measure.
Qed.

Lemma session_quiet cs o :
  forallb (fun c => negb (is_run c)) cs = true ->
  datapoints (world (session cs o)) = datapoints (world o).
Proof.
  revert o. induction cs as [|c cs IH]; intros o H; [reflexivity|].
  cbn [forallb] in H. apply andb_prop in H. destruct H as [H1 H2].
  cbn [Instrument.session fold_left].
  change (fold_left _ cs ?x) with (session cs x).
  rewrite (IH _ H2). apply perform_quiet.
  apply negb_true_iff. exact H1.
Qed.

(** A call that reaches the instrument. *)
Definition uses_socket (c : Call Volt) : Prop :=
  match c with
  | Connect _ _ _ | Close _ => False
  | RunMeasurement _ _ _ _ _ fuel => (1 <= fuel)%nat
  | _ => True
  end.

(** On a socket that is closed or not connected such a call raises
    [OSError] and has sent nothing. *)
Lemma perform_refused c o :
  socket o = Some Closed \/ socket o = Some Unconnected ->
  uses_socket c ->
  let r := perform c o in
  fst r = Raise OSError /\ socket (snd r) = socket o /\
  Forall silent (trace_since (world o) (world (snd r))).
Proof.
  intros So U.
  assert (X : forall A (m : Env -> M A),
             (fst (m (dead E) (world o)) = Raise OSError /\
              Forall silent
                (trace_since (world o) (snd (m (dead E) (world o))))) ->
             fst (call E m o) = Raise OSError /\
             socket (snd (call E m o)) = socket o /\
             Forall silent
               (trace_since (world o) (world (snd (call E m o))))).
  { intros A m [H1 H2]. unfold call.
    assert (L : exists s, socket o = Some s /\ link_of E s = dead E).
    { destruct So as [So | So]; rewrite So; eauto. }
    destruct L as (s & Hs & Hl). rewrite Hs, Hl.
    destruct (m (dead E) (world o)) as [r w']. cbn [fst snd] in *.
    split; [exact H1|]. split; [exact Hs | exact H2]. }
  assert (Y : forall A (m : Env -> M A),
             m (dead E) (world o) = (Raise OSError, advance E (world o)) ->
             fst (m (dead E) (world o)) = Raise OSError /\
             Forall silent
               (trace_since (world o) (snd (m (dead E) (world o))))).
  { intros A m ->. split; [reflexivity|].
    rewrite trace_since_app with (l := []); [constructor|].
    simpl. rewrite app_nil_r. reflexivity. }
  assert (Z : forall A (m : Obj A),
             fst (m o) = Raise OSError -> fst (ignore m o) = Raise OSError).
  { intros A m H. unfold ignore. destruct (m o) as [[x|e|] o'];
      simpl in *; congruence. }
  destruct c; cbn [Instrument.perform uses_socket] in *;
    try contradiction; cbv zeta; rewrite ?ignore_snd.
  1, 3, 4, 5, 6:
    match goal with
    | |- context [call _ ?m _] => apply (X _ m); apply (Y _ m); reflexivity
    end.
  1, 2:
    match goal with
    | |- context [call _ ?m _] =>
        destruct (X _ m) as (X1 & X2); [apply (Y _ m); reflexivity|];
        split; [apply Z; exact X1 | exact X2]
    end.
  - match goal with
    | |- context [call _ ?m _] => destruct (X _ m) as (X1 & X2)
    end.
    + cbv beta.
      destruct (@run_refused (dead E) Volt format_volt float_of_bytes
                  turn_on_time turn_on_voltage turn_off_time_meas
                  turn_off_voltage meas_interval fuel (world o))
        as (R1 & R2 & _); [reflexivity | exact U|].
      split; assumption.
    + split; [apply Z; exact X1 | exact X2].
Qed.

(** X11.  Whatever calls are made on the object, in whatever order and
    however each of them ends, [self.address] and [self.port] stay what
    the constructor made them ([connect] does not store the endpoint it
    is given), [self.socket] stays bound, [self.timeout] is what it was
    or 5000, and [self.stoptrigger] holds the last value the external
    actor wrote, or its old value: no method but the constructor
    assigns it.  [self.datapoints] is left as it is by every method but
    [run_measurement]. *)
Theorem attributes_are_kept cs o :
  let o' := session cs o in
  address o' = address o /\ port o' = port o /\
  (socket o <> None -> socket o' <> None) /\
  (timeout o' = timeout o \/ timeout o' = Some 5000%Z) /\
  (tick (world o) <= tick (world o'))%nat /\
  stoptrigger (world o') =
    match last_write E (tick (world o))
            (tick (world o') - tick (world o)) with
    | Some b => b
    | None => stoptrigger (world o)
    end /\
  (forallb (fun c => negb (is_run c)) cs = true ->
   datapoints (world o') = datapoints (world o)).
Proof.
  destruct (session_kept cs o) as (A & P & S & T & [W1 W2 _]).
  repeat split; try assumption. apply session_quiet.
Qed.

(** X12.  [close] closes the socket and never fails on an object that has
    one; closing twice is allowed.  On the closed socket every method
    that talks to the instrument raises [OSError] and sends nothing,
    and the socket stays closed: only [connect] makes the object usable
    again, and a [connect()] without arguments that returns has
    connected a new socket to the address and port of the
    constructor. *)
Theorem after_close o :
  socket o <> None ->
  let o1 := snd (close E o) in
  fst (close E o) = Ret tt /\ socket o1 = Some Closed /\
  log (world o1) = log (world o) /\
  datapoints (world o1) = datapoints (world o) /\
  fst (close E o1) = Ret tt /\ socket (snd (close E o1)) = Some Closed /\
  (forall c, uses_socket c ->
             fst (perform c o1) = Raise OSError /\
             socket (snd (perform c o1)) = Some Closed /\
             Forall silent
               (trace_since (world o1) (world (snd (perform c o1))))) /\
  (fst (connect E None None o1) = Ret tt ->
   socket (snd (connect E None None o1))
   = Some (Connected (address o) (port o))).
Proof.
  intros So o1.
  assert (C : close E o = (Ret tt, with_socket Closed
                                     (with_world (advance E (world o)) o))).
  { unfold close. destruct (socket o); [reflexivity | contradiction]. }
  unfold o1. rewrite C. cbn [fst snd].
  split; [reflexivity|]. split; [reflexivity|]. split; [reflexivity|].
  split; [reflexivity|]. split; [reflexivity|]. split; [reflexivity|].
  split.
  - intros c U.
    destruct (@perform_refused c
                (with_socket Closed (with_world (advance E (world o)) o)))
      as (R1 & R2 & R3); [left; reflexivity | exact U|].
    split; [exact R1|]. split; [rewrite R2; reflexivity | exact R3].
  - unfold connect, obind, socket_socket, socket_connect.
    cbn [or_str or_int world with_socket with_world address port].
    destruct (link_down E (tick (advance E (world o))));
      cbn [fst snd]; [discriminate|].
    cbn [socket with_socket with_world world tick with_inbuf advance].
    destruct (link_down E _); cbn [fst snd]; [discriminate|].
    reflexivity.
Qed.

End Calls.



End ObjectFacts.

(** ** More runs on the bench *)

(** The bench with nobody at the flag, with the cable unplugged, and
    with an instrument that answers what is not a number. *)
Definition unattended : Env :=
  {| clock := steady_clock; stop_writer := fun _ => None;
     arrive := fun _ => encode "1.5"; link_down := fun _ => false |}.

Definition unplugged : Env :=
  {| clock := steady_clock; stop_writer := fun _ => None;
     arrive := fun _ => []; link_down := fun _ => true |}.

Definition garbled (stop_at : nat) : Env :=
  {| clock := steady_clock;
     stop_writer := fun k => if Nat.eqb k stop_at then Some true else None;
     arrive := fun _ => encode "n/a";
     link_down := fun _ => false |}.

(** [run_measurement(0.5, 5, 0.2, 0, 0.01)] on an instrument that
    answers ["n/a"], stopped after 0.12 s. *)
Abbreviation garbled_run :=
  (run_measurement (garbled 12) format_int float_of_reply
     (1 # 2) 5%Z (1 # 5) 0%Z (1 # 100) 100 idle).

(** An object with a connected socket. *)
Definition connected : Instrument.Self :=
  {| Instrument.address := "10.138.50.191"; Instrument.port := 5025;
     Instrument.socket := Some (Instrument.Connected "10.138.50.191" 5025);
     Instrument.timeout := Some 5000%Z; Instrument.world := idle |}.

Lemma bench_last_write stop_at n :
  (stop_at < n)%nat -> last_write (bench stop_at) 0 n = Some true.
Proof.
  induction n as [|n IH]; intros H; [lia|].
  cbn [last_write stop_writer bench Nat.add].
  destruct (Nat.eqb n stop_at) eqn:Q; [reflexivity|].
  apply Nat.eqb_neq in Q. apply IH. lia.
Qed.

Lemma bench_flag stop_at k :
  (stop_at <= k)%nat -> flag_seen (bench stop_at) idle k = true.
Proof.
  intros H. unfold flag_seen. change (tick idle) with 0%nat.
  rewrite Nat.sub_0_r, bench_last_write by lia. reflexivity.
Qed.

Lemma steady_clock_unbounded B :
  exists K, forall k, (K <= k)%nat -> B <= steady_clock k.
Proof.
  destruct B as [n d]. exists (Z.to_nat (100 * Z.max n 0)).
  intros k Hk. unfold steady_clock, Qle. simpl.
  assert (P : (100 * Z.max n 0 <= Z.of_nat k)%Z) by lia.
  assert (D : (1 <= Z.pos d)%Z) by lia.
  nia.
Qed.

Lemma garbled_run_raises : fst garbled_run = Raise ValueError.
Proof. vm_compute. reflexivity. Qed.

Lemma rows_hold_clock_readings_witness :
  fst full_run = Ret full_rows /\
  exists pre post ts1 tg1 ts2,
    trace_since idle (snd full_run)
    = pre ++ EvStop true :: wire (switch_off_command format_int 0%Z) :: post /\
    readings pre = clock (bench 100) 0 :: ts1 /\
    readings post = tg1 :: ts2 /\
    map row_time full_rows = ts1 ++ ts2.
Proof.
  split; [exact full_run_returns|].
  destruct (rows_hold_clock_readings (bench 100) format_int float_of_reply
              (1 # 2) 5%Z (1 # 5) 0%Z (1 # 100) 100 idle full_run_returns)
    as (pre & post & ts1 & tg1 & ts2 & H1 & _ & H2 & H3 & H4 & _).
  exists pre, post, ts1, tg1, ts2. auto.
Defined.



Lemma run_on_dead_link_witness :
  (forall k, (tick idle <= k)%nat -> link_down unplugged k = true) /\
  (1 <= 100)%nat /\
  fst (run_measurement unplugged format_int float_of_reply
         (1 # 2) 5%Z (1 # 5) 0%Z (1 # 100) 100 idle) = Raise OSError.
Proof.
  assert (H1 : forall k, (tick idle <= k)%nat -> link_down unplugged k = true)
    by (intros k _; reflexivity).
  assert (H2 : (1 <= 100)%nat) by lia.
  split; [exact H1|]. split; [exact H2|].
  apply (run_on_dead_link unplugged format_int float_of_reply
           (1 # 2) 5%Z (1 # 5) 0%Z (1 # 100) idle H1 H2).
Defined.

Lemma second_run_skips_first_loop_witness :
  fst full_run = Ret full_rows /\
  (forall k, (tick idle <= k)%nat -> stop_writer (bench 100) k <> Some false) /\
  stoptrigger (snd full_run) = true /\
  ~ In (EvStop false)
      (trace_since (snd full_run)
         (snd (run_measurement (bench 100) format_int float_of_reply
                 (1 # 2) 5%Z (1 # 5) 0%Z (1 # 100) 100 (snd full_run)))).
Proof.
  assert (H : forall k, (tick idle <= k)%nat ->
                        stop_writer (bench 100) k <> Some false).
  { intros k _. simpl. destruct (Nat.eqb k 100); discriminate. }
  split; [exact full_run_returns|]. split; [exact H|].
  destruct (second_run_skips_first_loop (bench 100) format_int float_of_reply
              (1 # 2) 5%Z (1 # 5) 0%Z (1 # 100)
              (1 # 2) 5%Z (1 # 5) 0%Z (1 # 100) 100 100 idle
              full_run_returns H) as (H1 & H2 & _).
  split; [exact H1 | exact H2].
Defined.


(** [setup(0, 0.0001)] on the bench. *)
Abbreviation bench_setup :=
  (Instrument.setup (bench 100) format_int
     (fun _ : nat => tt) (fun (_ : unit) (f : string) => f)
     0%Z (1 # 10000) true (1 # 10) idle).

Lemma bench_setup_returns : fst bench_setup = Ret tt.
Proof. vm_compute. reflexivity. Qed.


Lemma after_close_witness :
  Instrument.socket connected <> None /\
  fst (Instrument.close (bench 100) connected) = Ret tt /\
  Instrument.socket (snd (Instrument.close (bench 100) connected))
  = Some Instrument.Closed.
Proof.
  assert (H : Instrument.socket connected <> None) by discriminate.
  split; [exact H|].
  destruct (after_close (bench 100) float_of_reply format_int
              (fun _ : nat => tt) (fun (_ : unit) (f : string) => f)
              connected H) as (H1 & H2 & _).
  split; [exact H1 | exact H2].
Defined.
